(** * The message-cleaning cog ([bot/exts/moderation/clean.py])

    A shallow embedding of the [Clean] cog: the predicate builder, the two
    message sources (cache and channel history), the age test that decides
    between bulk and individual deletion, the deleter, and the session
    logic around the process-wide [cleaning] flag.

    Python values are modelled as follows.
    - [int] is [Z]; a [datetime] is a count of microseconds, also [Z].
    - A [float] is a binary64 number, written as the rational it denotes;
      a subtraction or a product of floats is the exact result rounded to
      the nearest double, ties to even.  The rounding is checked against
      the binary64 operations of the standard library on sample readings
      of the clock.
    - A [str] is a [string].  The module [re] is not part of the cog: a
      compiled pattern is a record of the methods the cog and its callers
      use, and [re.compile] is a parameter that receives the text and the
      flags the cog passes.
    - The objects of the chat library are records holding the attributes
      the cog reads, [mention] included.  Users and channels compare by
      their identifier.
    - A coroutine is a function from the world before to a result and the
      world after.  Every [await] of a library call is answered by the
      environment: the call succeeds, raises [NotFound] or raises another
      error, and [clean stop] may have run while the coroutine was
      suspended.  Nothing else touches the flag during a session: the
      statements about a flag that stays down are about runs in which no
      new session is started, after a [clean stop], while this one is
      still suspended.
    - A [return] or a [break] inside a loop is a result of the loop
      function that tells how the loop was left.

    The file has two parts: the definitions, which follow the source, the
    notions the statements are written with and some sample values; then
    the proofs. *)

From Stdlib Require Import ZArith QArith Qround Qabs Qpower Bool List String.
From Stdlib Require Import Ascii Lia Lqa Arith DecimalString SpecFloat.
Import ListNotations.

Local Open Scope Z_scope.

(** ** Objects of the chat library *)

Module User.
Record t := { id : Z; bot : bool; mention : string }.
Definition eqb (a b : t) : bool := id a =? id b.
End User.

Module TextChannel.
Record t := { id : Z }.
Definition eqb (a b : t) : bool := id a =? id b.
End TextChannel.

Module EmbedField.
Record t := { name : string; value : string }.
End EmbedField.

(** An attribute that is not set ([Embed.Empty]) is [None]. *)
Module Embed.
Record t := {
  title : option string;
  description : option string;
  footer_text : option string;
  author_name : option string;
  fields : list EmbedField.t
}.
End Embed.

Definition datetime := Z.

Module Message.
Record t := {
  id : Z;
  author : User.t;
  channel : TextChannel.t;
  created_at : datetime;
  content : string;
  embeds : list Embed.t
}.
End Message.

(** ** The age test *)

(** The first second of 2015 in Unix milliseconds: the origin of the
    timestamps held in the identifiers. *)
Definition DISCORD_EPOCH : Z := 1420070400000.

(** Python's floats are IEEE 754 binary64 numbers.  A finite one is held
    as the rational number it denotes, and an operation returns the double
    nearest to the exact result, ties going to the even significand.  (A
    result beyond the largest double would be infinite; the readings of a
    clock and what is computed from them here stay far below.) *)

(** The integer nearest to [x], the even one of two equally near. *)
Definition round_half_even (x : Q) : Z :=
  let f := Qfloor x in
  match (x - inject_Z f ?= 1 # 2)%Q with
  | Lt => f
  | Gt => f + 1
  | Eq => if Z.even f then f else f + 1
  end.

(** The exponent [e] with [2 ^ e <= |x| < 2 ^ (e + 1)], for [x] other than
    zero. *)
Definition binade (x : Q) : Z :=
  let a := Qabs x in
  if Qle_bool 1 a then Z.log2 (Qfloor a)
  else - Z.log2_up (Qceiling (/ a)).

(** The double nearest to [x]: a significand of 53 bits, fewer below the
    smallest normal number. *)
Definition round_double (x : Q) : Q :=
  if Qeq_bool x 0 then 0%Q
  else
    let e := Z.max (binade x - 52) (-1074) in
    (inject_Z (round_half_even (x / 2 ^ e)) * 2 ^ e)%Q.

Definition float_sub (a b : Q) : Q := round_double (a - b).
Definition float_mul (a b : Q) : Q := round_double (a * b).

(** Python's [int] on a float: rounding towards zero. *)
Definition int_of_float (x : Q) : Z := Z.quot (Qnum x) (Z.pos (Qden x)).

(** [(time.time() - 14 * 24 * 60 * 60) * 1000.0 - 1420070400000], before
    [int] is applied: the integers are converted to the doubles they are
    and every operation is one of doubles. *)
Definition two_weeks_old_ms (now : Q) : Q :=
  float_sub
    (float_mul (float_sub now (inject_Z (14 * 24 * 60 * 60))) 1000)
    1420070400000.

Definition two_weeks_old_snowflake (now : Q) : Z :=
  Z.shiftl (int_of_float (two_weeks_old_ms now)) 22.

(** [is_older_than_14d] once [time.time()] has returned [now]. *)
Definition is_older_than_14d_at (now : Q) (message : Message.t) : bool :=
  Message.id message <? two_weeks_old_snowflake now.

(** What [discord.utils.snowflake_time] reads in an identifier: the
    creation time in Unix milliseconds. *)
Definition snowflake_time_ms (id : Z) : Z := Z.shiftr id 22 + DISCORD_EPOCH.

Definition FOURTEEN_DAYS_MS : Z := 14 * 24 * 60 * 60 * 1000.

(** ** Compiled patterns *)

(** [re] is a library: a compiled [re.Pattern] is known here by what its
    methods answer, whatever the pattern language and the flags make of
    it.  [search] tells whether [pattern.search(text)] finds a match
    somewhere in the text, [fullmatch] whether [pattern.fullmatch(text)]
    matches the whole of it.  Texts are held as the bytes of their UTF-8
    encoding. *)
Record Pattern := {
  search : string -> bool;
  fullmatch : string -> bool
}.

(** The flags of [re.compile], as the integers they are. *)
Definition re_IGNORECASE : Z := 2.
Definition re_DOTALL : Z := 16.

(** ** Exceptions and results *)

Inductive Exn :=
| BadArgument (msg : string)
| ValueError (msg : string)
| TypeError
| NotFound
| HTTPException.

Inductive Result (A : Type) :=
| Returned (a : A)
| Raised (e : Exn).
Arguments Returned {A} a.
Arguments Raised {A} e.

(** ** The predicate builder *)

Definition Predicate := Message.t -> Result bool.

Definition newline : string := String "010"%char EmptyString.

(** [attr for attr in content if attr]: the attributes that are set and
    not empty. *)
Definition truthy_attr (attr : option string) : list string :=
  match attr with
  | Some (String c s) => [String c s]
  | _ => []
  end.

(** The two [content.append] of the loop over the fields of an embed. *)
Definition append_field (content : list (option string))
    (field : EmbedField.t) : list (option string) :=
  (content ++ [Some (EmbedField.name field)])
  ++ [Some (EmbedField.value field)].

(** The body of the loop over the embeds: four [content.append], then the
    loop over the fields. *)
Definition append_embed (content : list (option string)) (embed : Embed.t)
    : list (option string) :=
  fold_left append_field (Embed.fields embed)
    ((((content ++ [Embed.title embed]) ++ [Embed.description embed])
      ++ [Embed.footer_text embed]) ++ [Embed.author_name embed]).

(** The list [content] of [predicate_regex] before the join. *)
Definition content_attributes (message : Message.t) : list (option string) :=
  fold_left append_embed (Message.embeds message)
    [Some (Message.content message)].

Definition searchable_text (message : Message.t) : string :=
  String.concat newline (flat_map truthy_attr (content_attributes message)).

Definition predicate_bots_only : Predicate :=
  fun message => Returned (User.bot (Message.author message)).

Definition predicate_specific_users (users : list User.t) : Predicate :=
  fun message => Returned (existsb (User.eqb (Message.author message)) users).

(** [bool(regex.search(content))]. *)
Definition predicate_regex (pattern : Pattern) : Predicate :=
  fun message => Returned (search pattern (searchable_text message)).

(** [first_limit <= message.created_at <= second_limit]; the predicate is
    installed whenever the second limit is set, and comparing [None] with a
    datetime raises. *)
Definition predicate_range (first_limit : option datetime)
    (second_limit : datetime) : Predicate :=
  fun message =>
    match first_limit with
    | None => Raised TypeError
    | Some first =>
        Returned ((first <=? Message.created_at message)
                  && (Message.created_at message <=? second_limit))
    end.

Definition predicate_after (first_limit : datetime) : Predicate :=
  fun message => Returned (first_limit <=? Message.created_at message).

(** [all(pred(m) for pred in predicates)], left to right, stopping at the
    first predicate that answers [False]. *)
Fixpoint all_predicates (predicates : list Predicate) : Predicate :=
  fun message =>
    match predicates with
    | [] => Returned true
    | pred :: rest =>
        match pred message with
        | Returned true => all_predicates rest message
        | other => other
        end
    end.

Definition non_empty {A : Type} (l : option (list A)) : bool :=
  match l with
  | Some (_ :: _) => true
  | _ => false
  end.

Definition _build_predicate (bots_only : bool) (users : option (list User.t))
    (pattern : option Pattern) (first_limit second_limit : option datetime)
    : Predicate :=
  let predicates :=
    (if bots_only then [predicate_bots_only] else [])
    ++ (match users with
        | Some (u :: us) => [predicate_specific_users (u :: us)]
        | _ => []
        end)
    ++ (match pattern with
        | Some r => [predicate_regex r]
        | None => []
        end)
    ++ (match second_limit, first_limit with
        | Some second, _ => [predicate_range first_limit second]
        | None, Some first => [predicate_after first]
        | None, None => []
        end) in
  match predicates with
  | [] => fun _ => Returned true
  | [pred] => pred
  | _ => all_predicates predicates
  end.

(** ** The [Regex] converter *)

(** [body ++ "`"] with no newline in [body] gives [body]. *)
Fixpoint before_closing_backtick (s : string) : option string :=
  match s with
  | EmptyString => None
  | String c EmptyString => if Ascii.eqb c "`" then Some EmptyString else None
  | String c rest =>
      if Ascii.eqb c "010" then None
      else option_map (String c) (before_closing_backtick rest)
  end.

(** [re.fullmatch(r"`(.+?)`", argument)]: the text between the wrapping
    backticks, which is not empty and holds no newline. *)
Definition between_backticks (argument : string) : option string :=
  match argument with
  | String "`" rest =>
      match before_closing_backtick rest with
      | Some (String c body) => Some (String c body)
      | _ => None
      end
  | _ => None
  end.

Fixpoint has_newline (s : string) : bool :=
  match s with
  | EmptyString => false
  | String c rest => Ascii.eqb c "010" || has_newline rest
  end.

(** [Regex.convert].  [re_compile] stands for [re.compile]: from a pattern
    text and flags it gives the compiled pattern, or the message of the
    [re.error] raised. *)
Definition Regex_convert (re_compile : string -> Z -> string + Pattern)
    (argument : string) : Result Pattern :=
  match between_backticks argument with
  | None => Raised (BadArgument "Regex pattern missing wrapping backticks")
  | Some text =>
      match re_compile text (re_IGNORECASE + re_DOTALL) with
      | inr pattern => Returned pattern
      | inl msg => Raised (BadArgument ("Regex error: " ++ msg))
      end
  end.

(** ** Arguments of the commands *)

(** [CleanChannels]: the literal ["*"] or a list of channels. *)
Inductive CleanChannels :=
| AllChannels
| ChannelList (channels : list TextChannel.t).

(** [CleanLimit]: a message, or the datetime an [Age] or an [ISODateTime]
    converts to. *)
Inductive CleanLimit :=
| LimitMessage (message : Message.t)
| LimitDatetime (t : datetime).

Inductive GuildChannel :=
| IsTextChannel (channel : TextChannel.t)
| OtherChannel (id : Z).

Module Context.
Record t := {
  channel : TextChannel.t;
  message : Message.t;
  author : User.t;
  guild_channels : list GuildChannel
}.
End Context.

(** ** The world a coroutine runs in *)

(** The library calls the cog awaits. *)
Inductive Call :=
| ctx_send (channel : TextChannel.t) (content : string)
    (delete_after : option Z)
| ctx_send_help
| message_delete (message : Message.t)
| channel_delete_messages (channel : TextChannel.t)
    (messages : list Message.t)
| history_next (channel : TextChannel.t) (limit : Z)
    (before after : option datetime)
| upload_log (messages : list Message.t) (actor_id : Z)
| send_log_message (title text : string)
| add_reaction (message : Message.t) (emoji : string).

(** How an awaited call ends: it succeeds, it raises [NotFound], or it
    raises another HTTP error. *)
Inductive Outcome := Done | Missing | Failed.

(** The environment's answer to one [await]: the outcome, and whether
    [clean stop] cleared the flag while the coroutine was suspended. *)
Record Reply := { outcome : Outcome; stop : bool }.

(** What the cog does not decide.  [message_limit] and [check_mark] are the
    constants [CleanMessages.message_limit] and [Emojis.check_mark];
    [history] is what [channel.history] yields; [clock] gives the successive
    readings of [time.time()]; [reply] answers the successive awaits. *)
Record Env := {
  message_limit : Z;
  check_mark : string;
  is_mod_channel : TextChannel.t -> bool;
  cached_messages : list Message.t;
  history : TextChannel.t -> Z -> option datetime -> option datetime
            -> list Message.t;
  log_url : string;
  clock : nat -> Q;
  reply : nat -> Reply
}.

(** [cleaning] is [self.cleaning]; [ticks] counts the readings of the clock;
    [log] holds the awaited calls with their answers, oldest first;
    [ignored] holds the identifiers handed to [mod_log.ignore]. *)
Record World := {
  cleaning : bool;
  ticks : nat;
  log : list (Call * Reply);
  ignored : list Z
}.

Definition M (A : Type) : Type := World -> Result A * World.

Definition ret {A : Type} (a : A) : M A := fun w => (Returned a, w).

Definition raise {A : Type} (e : Exn) : M A := fun w => (Raised e, w).

Definition lift {A : Type} (r : Result A) : M A := fun w => (r, w).

Definition bind {A B : Type} (m : M A) (k : A -> M B) : M B :=
  fun w =>
    match m w with
    | (Returned a, w') => k a w'
    | (Raised e, w') => (Raised e, w')
    end.

Notation "x <- m ;; k" := (bind m (fun x => k))
  (at level 61, m at next level, right associativity).
Notation "m ;; k" := (bind m (fun _ => k))
  (at level 61, right associativity).

(** [with suppress(NotFound): body]: [None] when the body raised
    [NotFound]. *)
Definition suppress_NotFound {A : Type} (body : M A) : M (option A) :=
  fun w =>
    match body w with
    | (Returned a, w') => (Returned (Some a), w')
    | (Raised NotFound, w') => (Returned None, w')
    | (Raised e, w') => (Raised e, w')
    end.

Definition get_cleaning : M bool := fun w => (Returned (cleaning w), w).

Definition set_cleaning (b : bool) : M unit :=
  fun w =>
    (Returned tt,
     {| cleaning := b; ticks := ticks w; log := log w; ignored := ignored w |}).

Definition mod_log_ignore (ids : list Z) : M unit :=
  fun w =>
    (Returned tt,
     {| cleaning := cleaning w; ticks := ticks w; log := log w;
        ignored := (ignored w ++ ids)%list |}).

Definition exn_of (o : Outcome) : Result unit :=
  match o with
  | Done => Returned tt
  | Missing => Raised NotFound
  | Failed => Raised HTTPException
  end.

Definition string_of_Z (z : Z) : string := NilZero.string_of_int (Z.to_int z).

Definition string_of_nat (n : nat) : string :=
  NilZero.string_of_uint (Nat.to_uint n).

Definition is_some {A : Type} (o : option A) : bool :=
  match o with
  | Some _ => true
  | None => false
  end.

Definition Mapping : Type := list (TextChannel.t * list Message.t).

(** [message_mappings[channel].append(message)] on a [defaultdict(list)];
    the entries keep their order of insertion. *)
Fixpoint mapping_append (mapping : Mapping) (channel : TextChannel.t)
    (message : Message.t) : Mapping :=
  match mapping with
  | [] => [(channel, [message])]
  | (c, ms) :: rest =>
      if TextChannel.eqb c channel then (c, (ms ++ [message])%list) :: rest
      else (c, ms) :: mapping_append rest channel message
  end.

(** The two appends made for a message that is to be deleted. *)
Definition record_match (found : Mapping * list Z) (message : Message.t)
    : Mapping * list Z :=
  (mapping_append (fst found) (Message.channel message) message,
   (snd found ++ [Message.id message])%list).

(** Number of seconds before invocations and responses are deleted. *)
Definition MESSAGE_DELETE_DELAY : Z := 5.

(** Default number of messages to look at in each channel. *)
Definition DEFAULT_TRAVERSE : Z := 10.

(** How the inner loop of [_delete_found] ends: [return deleted], [break]
    with [delete_old] set, or exhaustion of the messages. *)
Inductive LoopExit :=
| LoopReturn (deleted : list Message.t)
| LoopBreak (current_index : nat) (to_delete deleted : list Message.t)
| LoopEnd (to_delete deleted : list Message.t).

Definition resolve_limit (limit : CleanLimit) : datetime :=
  match limit with
  | LimitMessage message => Message.created_at message
  | LimitDatetime t => t
  end.

Definition is_message (limit : option CleanLimit) : bool :=
  match limit with
  | Some (LimitMessage _) => true
  | _ => false
  end.

(** Truth value of the [channels] argument: ["*"] or a list that is not
    empty. *)
Definition channels_given (channels : option CleanChannels) : bool :=
  match channels with
  | Some AllChannels => true
  | Some (ChannelList (_ :: _)) => true
  | _ => false
  end.

Definition mention_channel (c : TextChannel.t) : string :=
  ("<#" ++ string_of_Z (TextChannel.id c) ++ ">")%string.


(** ** The cog *)

Section Cog.

Variable env : Env.

(** [await call]: the call is logged with the environment's answer, the
    flag is cleared if [clean stop] ran meanwhile, and the call returns or
    raises.  The only command that runs during the suspension is
    [clean stop]: a [clean] command started meanwhile is turned away while
    the flag is set, and one started after a [clean stop], which would set
    the flag again, is not part of the runs described here. *)
Definition await (call : Call) : M unit :=
  fun w =>
    let r := reply env (List.length (log w)) in
    (exn_of (outcome r),
     {| cleaning := cleaning w && negb (stop r);
        ticks := ticks w;
        log := (log w ++ [(call, r)])%list;
        ignored := ignored w |}).

Definition time_time : M Q :=
  fun w =>
    (Returned (clock env (ticks w)),
     {| cleaning := cleaning w; ticks := S (ticks w); log := log w;
        ignored := ignored w |}).

Definition _validate_input (traverse : Z) (channels : option CleanChannels)
    (bots_only : bool) (users : option (list User.t))
    (first_limit second_limit : option CleanLimit) : Result unit :=
  if message_limit env <? traverse then
    Raised (BadArgument ("Cannot traverse more than "
                         ++ string_of_Z (message_limit env) ++ " messages."))
  else if (is_message first_limit || is_message second_limit)
          && channels_given channels then
    Raised (BadArgument "Both a message limit and channels specified.")
  else if match first_limit, second_limit with
          | Some (LimitMessage first), Some (LimitMessage second) =>
              negb (TextChannel.eqb (Message.channel first)
                      (Message.channel second))
          | _, _ => false
          end then
    Raised (BadArgument "Message limits are in different channels.")
  else if non_empty users && bots_only then
    Raised (BadArgument "Marked as bots only, but users were specified.")
  else if is_some second_limit && negb (is_some first_limit) then
    Raised (ValueError "Second limit specified without the first.")
  else Returned tt.

Definition _send_expiring_message (ctx : Context.t) (content : string)
    : M unit :=
  let delete_after :=
    if is_mod_channel env (Context.channel ctx) then None
    else Some MESSAGE_DELETE_DELAY in
  await (ctx_send (Context.channel ctx) content delete_after).

Definition _delete_invocation (ctx : Context.t) : M unit :=
  if negb (is_mod_channel env (Context.channel ctx)) then
    mod_log_ignore [Message.id (Context.message ctx)];;
    _ <- suppress_NotFound (await (message_delete (Context.message ctx)));;
    ret tt
  else ret tt.

(** The loop of [_get_messages_from_cache].  The method does not await
    anything, so under the bot's scheduler the flag keeps one value during
    the whole scan; [cleaning_at n] is the value of [self.cleaning] read by
    the [n]-th iteration, which lets the flag change between two reads. *)
Fixpoint cache_loop (cleaning_at : nat -> bool) (to_delete : Predicate)
    (messages : list Message.t) (n : nat) (found : Mapping * list Z)
    : Result (Mapping * list Z) :=
  match messages with
  | [] => Returned found
  | message :: rest =>
      if negb (cleaning_at n) then Returned found
      else
        match to_delete message with
        | Raised e => Raised e
        | Returned true =>
            cache_loop cleaning_at to_delete rest (S n)
              (record_match found message)
        | Returned false => cache_loop cleaning_at to_delete rest (S n) found
        end
  end.

(** [islice] refuses a negative stop. *)
Definition _get_messages_from_cache (cleaning_at : nat -> bool)
    (traverse : Z) (to_delete : Predicate) : Result (Mapping * list Z) :=
  if traverse <? 0 then
    Raised (ValueError "Stop argument for islice() must be None or an integer: 0 <= x <= sys.maxsize.")
  else
    cache_loop cleaning_at to_delete
      (firstn (Z.to_nat traverse) (cached_messages env)) 0%nat ([], []).

(** The [async for] over one channel's history: every step of the iterator
    is awaited, the last one included, which finds the history exhausted.
    [None] stands for the [return] taken on cancellation. *)
Fixpoint history_loop (channel : TextChannel.t) (traverse : Z)
    (before after : option datetime) (to_delete : Predicate)
    (messages : list Message.t) (found : Mapping * list Z)
    : M (option (Mapping * list Z)) :=
  match messages with
  | [] =>
      await (history_next channel traverse before after);;
      ret (Some found)
  | message :: rest =>
      await (history_next channel traverse before after);;
      flag <- get_cleaning;;
      if negb flag then ret None
      else
        matched <- lift (to_delete message);;
        history_loop channel traverse before after to_delete rest
          (if matched : bool then record_match found message else found)
  end.

Fixpoint channels_loop (traverse : Z) (channels : list TextChannel.t)
    (to_delete : Predicate) (before after : option datetime)
    (found : Mapping * list Z) : M (Mapping * list Z) :=
  match channels with
  | [] => ret found
  | channel :: rest =>
      r <- history_loop channel traverse before after to_delete
             (history env channel traverse before after) found;;
      match r with
      | None => ret ([], [])
      | Some found' =>
          channels_loop traverse rest to_delete before after found'
      end
  end.

Definition _get_messages_from_channels (traverse : Z)
    (channels : list TextChannel.t) (to_delete : Predicate)
    (before after : option datetime) : M (Mapping * list Z) :=
  channels_loop traverse channels to_delete before after ([], []).

Definition is_older_than_14d (message : Message.t) : M bool :=
  now <- time_time;;
  ret (is_older_than_14d_at now message).

(** The loop of [_delete_messages_individually], [deleted] being the list
    built so far. *)
Fixpoint individually_loop (messages deleted : list Message.t)
    : M (list Message.t) :=
  match messages with
  | [] => ret deleted
  | message :: rest =>
      flag <- get_cleaning;;
      if negb flag then ret deleted
      else
        r <- suppress_NotFound (await (message_delete message));;
        individually_loop rest
          (match r with
           | Some _ => deleted ++ [message]
           | None => deleted
           end)%list
  end.

Definition _delete_messages_individually (messages : list Message.t)
    : M (list Message.t) :=
  individually_loop messages [].

(** The inner loop of [_delete_found] over [enumerate(messages)]. *)
Fixpoint bulk_loop (channel : TextChannel.t) (messages : list Message.t)
    (current_index : nat) (to_delete deleted : list Message.t) : M LoopExit :=
  match messages with
  | [] => ret (LoopEnd to_delete deleted)
  | message :: rest =>
      flag <- get_cleaning;;
      if negb flag then ret (LoopReturn deleted)
      else
        old <- is_older_than_14d message;;
        if old : bool then ret (LoopBreak current_index to_delete deleted)
        else
          let to_delete := (to_delete ++ [message])%list in
          if (List.length to_delete =? 100)%nat then
            _ <- suppress_NotFound
                   (await (channel_delete_messages channel to_delete));;
            bulk_loop channel rest (S current_index) []
              (deleted ++ to_delete)%list
          else bulk_loop channel rest (S current_index) to_delete deleted
  end.

(** The body of the outer loop of [_delete_found] for one channel: [inl]
    is a [return] out of the method, [inr] goes on to the next channel. *)
Definition delete_found_in (channel : TextChannel.t)
    (messages deleted : list Message.t)
    : M (list Message.t + list Message.t) :=
  exit <- bulk_loop channel messages 0%nat [] deleted;;
  match exit with
  | LoopReturn deleted => ret (inl deleted)
  | LoopBreak _ to_delete deleted | LoopEnd to_delete deleted =>
      flag <- get_cleaning;;
      if negb flag then ret (inl deleted)
      else
        deleted <-
          (if (0 <? List.length to_delete)%nat then
             _ <- suppress_NotFound
                    (await (channel_delete_messages channel to_delete));;
             ret (deleted ++ to_delete)%list
           else ret deleted);;
        flag <- get_cleaning;;
        if negb flag then ret (inl deleted)
        else
          match exit with
          | LoopBreak current_index _ _ =>
              old_deleted <-
                _delete_messages_individually (skipn current_index messages);;
              ret (inr (deleted ++ old_deleted)%list)
          | _ => ret (inr deleted)
          end
  end.

Fixpoint delete_found_loop (message_mappings : Mapping)
    (deleted : list Message.t) : M (list Message.t) :=
  match message_mappings with
  | [] => ret deleted
  | (channel, messages) :: rest =>
      r <- delete_found_in channel messages deleted;;
      match r with
      | inl deleted => ret deleted
      | inr deleted => delete_found_loop rest deleted
      end
  end.

Definition _delete_found (message_mappings : Mapping) : M (list Message.t) :=
  delete_found_loop message_mappings [].

Definition _modlog_cleaned_messages (messages : list Message.t)
    (channels : CleanChannels) (ctx : Context.t) : M bool :=
  match messages with
  | [] =>
      _send_expiring_message ctx ":x: No matching messages could be found.";;
      ret false
  | _ :: _ =>
      await (upload_log (rev messages) (User.id (Context.author ctx)));;
      let target_channels :=
        match channels with
        | AllChannels => "all channels"%string
        | ChannelList l => String.concat ", " (map mention_channel l)
        end in
      let text :=
        ("**" ++ string_of_nat (List.length messages) ++ "** messages deleted in "
         ++ target_channels ++ " by " ++ User.mention (Context.author ctx)
         ++ newline ++ newline
         ++ "A log of the deleted messages can be found [here]("
         ++ log_url env ++ ").")%string in
      await (send_log_message "Bulk message delete" text);;
      ret true
  end.

(** The channels the session works on once the default is applied. *)
Definition default_channels (ctx : Context.t)
    (channels : option CleanChannels)
    (first_limit second_limit : option CleanLimit) : CleanChannels :=
  match channels with
  | Some AllChannels => AllChannels
  | Some (ChannelList (c :: cs)) => ChannelList (c :: cs)
  | _ =>
      match first_limit, second_limit with
      | Some (LimitMessage first), _ => ChannelList [Message.channel first]
      | _, Some (LimitMessage second) => ChannelList [Message.channel second]
      | _, _ => ChannelList [Context.channel ctx]
      end
  end.

(** The limits as datetimes, after [sorted] when both are set. *)
Definition standardize_limits (first_limit second_limit : option CleanLimit)
    : option datetime * option datetime :=
  match option_map resolve_limit first_limit,
        option_map resolve_limit second_limit with
  | Some first, Some second => (Some (Z.min first second),
                                Some (Z.max first second))
  | first, second => (first, second)
  end.

Definition text_channels (channels : list GuildChannel)
    : list TextChannel.t :=
  flat_map (fun c => match c with
                     | IsTextChannel t => [t]
                     | OtherChannel _ => []
                     end) channels.

(** The choice between the cache and the channel histories. *)
Definition find_messages (ctx : Context.t) (traverse : Z)
    (channels : CleanChannels) (use_cache : option bool)
    (predicate : Predicate) (first_limit second_limit : option datetime)
    : M (Mapping * list Z) :=
  match channels, use_cache with
  | AllChannels, Some true =>
      fun w =>
        lift (_get_messages_from_cache (fun _ => cleaning w) traverse
                predicate) w
  | _, _ =>
      let deletion_channels :=
        match channels with
        | AllChannels => text_channels (Context.guild_channels ctx)
        | ChannelList l => l
        end in
      _get_messages_from_channels traverse deletion_channels predicate
        second_limit first_limit
  end.

Definition _clean_messages (ctx : Context.t) (traverse : Z)
    (channels : option CleanChannels) (bots_only : bool)
    (users : option (list User.t)) (pattern : option Pattern)
    (first_limit second_limit : option CleanLimit) (use_cache : option bool)
    : M unit :=
  lift (_validate_input traverse channels bots_only users
          first_limit second_limit);;
  flag <- get_cleaning;;
  if flag : bool then
    _send_expiring_message ctx
      ":x: Please wait for the currently ongoing clean operation to complete."
  else
    set_cleaning true;;
    let channels := default_channels ctx channels first_limit second_limit in
    let (first_limit, second_limit) :=
      standardize_limits first_limit second_limit in
    let predicate :=
      _build_predicate bots_only users pattern first_limit second_limit in
    _delete_invocation ctx;;
    found <- find_messages ctx traverse channels use_cache predicate
               first_limit second_limit;;
    flag <- get_cleaning;;
    if negb flag then ret tt
    else
      mod_log_ignore (snd found);;
      deleted_messages <- _delete_found (fst found);;
      set_cleaning false;;
      logged <- _modlog_cleaned_messages deleted_messages channels ctx;;
      if logged && is_mod_channel env (Context.channel ctx) then
        _ <- suppress_NotFound
               (await (add_reaction (Context.message ctx) (check_mark env)));;
        ret tt
      else ret tt.

(** The [clean] group command. *)
Definition clean_group (ctx : Context.t) (users : option (list User.t))
    (traverse : option Z) (first_limit second_limit : option CleanLimit)
    (use_cache : option bool) (bots_only : bool) (pattern : option Pattern)
    (channels : option CleanChannels) : M unit :=
  let traverse_given :=
    match traverse with
    | Some n => negb (n =? 0)
    | None => false
    end in
  if negb (traverse_given || non_empty users || is_some first_limit
           || is_some second_limit || is_some pattern
           || channels_given channels) then
    await ctx_send_help
  else
    let traverse :=
      if traverse_given then
        match traverse with
        | Some n => n
        | None => 0
        end
      else if is_some first_limit then message_limit env
      else DEFAULT_TRAVERSE in
    let use_cache :=
      match use_cache with
      | Some b => b
      | None =>
          match channels with
          | Some AllChannels => true
          | _ => false
          end
      end in
    _clean_messages ctx traverse channels bots_only users pattern
      first_limit second_limit (Some use_cache).

(** The sub-commands; an argument left out is [None] and takes the default
    of the signature. *)
Definition with_default {A : Type} (default : A) (argument : option A) : A :=
  match argument with
  | Some a => a
  | None => default
  end.

Definition clean_user (ctx : Context.t) (user : User.t)
    (traverse : option Z) (use_cache : option bool)
    (channels : option CleanChannels) : M unit :=
  _clean_messages ctx (with_default DEFAULT_TRAVERSE traverse) channels false
    (Some [user]) None None None (Some (with_default true use_cache)).

Definition clean_all (ctx : Context.t) (traverse : option Z)
    (use_cache : option bool) (channels : option CleanChannels) : M unit :=
  _clean_messages ctx (with_default DEFAULT_TRAVERSE traverse) channels false
    None None None None (Some (with_default true use_cache)).

Definition clean_bots (ctx : Context.t) (traverse : option Z)
    (use_cache : option bool) (channels : option CleanChannels) : M unit :=
  _clean_messages ctx (with_default DEFAULT_TRAVERSE traverse) channels true
    None None None None (Some (with_default true use_cache)).

Definition clean_regex (ctx : Context.t) (pattern : Pattern)
    (traverse : option Z) (use_cache : option bool)
    (channels : option CleanChannels) : M unit :=
  _clean_messages ctx (with_default DEFAULT_TRAVERSE traverse) channels false
    None (Some pattern) None None (Some (with_default true use_cache)).

Definition clean_until (ctx : Context.t) (until : CleanLimit)
    (channel : option TextChannel.t) : M unit :=
  _clean_messages ctx (message_limit env)
    (option_map (fun c => ChannelList [c]) channel) false None None
    (Some until) None (Some true).

Definition clean_between (ctx : Context.t)
    (first_limit second_limit : CleanLimit)
    (channel : option TextChannel.t) : M unit :=
  _clean_messages ctx (message_limit env)
    (option_map (fun c => ChannelList [c]) channel) false None None
    (Some first_limit) (Some second_limit) (Some true).

(** The [clean stop] command. *)
Definition clean_cancel (ctx : Context.t) : M unit :=
  flag <- get_cleaning;;
  message <-
    (if negb flag then ret ":question: There's no cleaning going on."%string
     else
       set_cleaning false;;
       ret (check_mark env ++ " Clean interrupted.")%string);;
  _send_expiring_message ctx message;;
  _delete_invocation ctx.

Definition cog_command_error : M unit := set_cleaning false.

(** How the command framework runs a command of the cog: an exception
    that leaves the command is handed to [cog_command_error] and then
    travels on to the bot's error handler. *)
Definition invoke (command : M unit) : M unit :=
  fun w =>
    match command w with
    | (Returned tt, w') => (Returned tt, w')
    | (Raised e, w') => (Raised e, snd (cog_command_error w'))
    end.

End Cog.

(** ** Reading the log *)

(** The entries logged when [calls] are awaited one after the other, the
    first one as await number [start]. *)
Fixpoint answered (env : Env) (start : nat) (calls : list Call)
    : list (Call * Reply) :=
  match calls with
  | [] => []
  | call :: rest => (call, reply env start) :: answered env (S start) rest
  end.

(** The messages a logged call contributes to the list the deleter
    returns: all the messages of a bulk call, and the message of an
    individual call that did not raise. *)
Definition reported_by (entry : Call * Reply) : list Message.t :=
  match fst entry with
  | channel_delete_messages _ messages => messages
  | message_delete message =>
      match outcome (snd entry) with
      | Done => [message]
      | _ => []
      end
  | _ => []
  end.

Definition reported (entries : list (Call * Reply)) : list Message.t :=
  flat_map reported_by entries.

(** The messages a logged call deleted: those of a delete call that
    succeeded. *)
Definition deleted_by (entry : Call * Reply) : list Message.t :=
  match outcome (snd entry), fst entry with
  | Done, channel_delete_messages _ messages => messages
  | Done, message_delete message => [message]
  | _, _ => []
  end.

Definition deleted_in (entries : list (Call * Reply)) : list Message.t :=
  flat_map deleted_by entries.

(** A bulk call that raised [NotFound]. *)
Definition bulk_missing (entry : Call * Reply) : bool :=
  match outcome (snd entry), fst entry with
  | Missing, channel_delete_messages _ _ => true
  | _, _ => false
  end.

Definition no_stop (entries : list (Call * Reply)) : bool :=
  forallb (fun entry => negb (stop (snd entry))) entries.

Definition failed (entry : Call * Reply) : bool :=
  match outcome (snd entry) with
  | Failed => true
  | _ => false
  end.

Definition no_failure (entries : list (Call * Reply)) : bool :=
  forallb (fun entry => negb (failed entry)) entries.

(** Every call of [entries] is awaited while the flag is set, [flag] being
    its value before the first call. *)
Fixpoint guarded (flag : bool) (entries : list (Call * Reply)) : bool :=
  match entries with
  | [] => true
  | entry :: rest => flag && guarded (negb (stop (snd entry))) rest
  end.

(** The batches of 100 the inner loop of [_delete_found] flushes when it
    walks [messages] with [pending] already collected, and what is left
    pending at the end. *)
Fixpoint batches (pending messages : list Message.t)
    : list (list Message.t) * list Message.t :=
  match messages with
  | [] => ([], pending)
  | message :: rest =>
      let pending := (pending ++ [message])%list in
      if (List.length pending =? 100)%nat then
        (pending :: fst (batches [] rest), snd (batches [] rest))
      else batches pending rest
  end.

(** The batches followed by the left-over batch when there is one. *)
Definition chunks (messages : list Message.t) : list (list Message.t) :=
  (fst (batches [] messages)
   ++ match snd (batches [] messages) with
      | [] => []
      | m :: ms => [m :: ms]
      end)%list.

(** Each message of the list passes the age test when the loop examines
    it, the first one at clock reading number [tick]. *)
Fixpoint all_eligible_from (env : Env) (tick : nat)
    (messages : list Message.t) : bool :=
  match messages with
  | [] => true
  | message :: rest =>
      negb (is_older_than_14d_at (clock env tick) message)
      && all_eligible_from env (S tick) rest
  end.

(** [l1] is [l2] with some elements left out. *)
Inductive subseq {A : Type} : list A -> list A -> Prop :=
| subseq_nil : subseq [] []
| subseq_skip x l1 l2 : subseq l1 l2 -> subseq l1 (x :: l2)
| subseq_keep x l1 l2 : subseq l1 l2 -> subseq (x :: l1) (x :: l2).

(** ** The limits a session works with *)

Definition within (lower upper : datetime) (message : Message.t) : Prop :=
  lower <= Message.created_at message <= upper.

(** What a call of a session shows of the limits [lower] and [upper]: a
    history request carries them as its bounds, and a deleted message was
    created between them, unless it is the invocation itself. *)
Definition uses_limits (ctx : Context.t) (lower upper : datetime)
    (call : Call) : Prop :=
  match call with
  | history_next _ _ before after => after = Some lower /\ before = Some upper
  | channel_delete_messages _ messages => Forall (within lower upper) messages
  | message_delete message =>
      within lower upper message \/ message = Context.message ctx
  | _ => True
  end.

(** ** What a scan collects *)

(** The containers after a complete scan of [messages] with a predicate
    that does not raise. *)
Definition collect (to_delete : Message.t -> bool)
    (messages : list Message.t) : Mapping * list Z :=
  fold_left
    (fun found message =>
       if to_delete message then record_match found message else found)
    messages ([], []).




Definition said_yes (to_delete : Predicate) (message : Message.t) : bool :=
  match to_delete message with
  | Returned true => true
  | _ => false
  end.

(** ** Conditions on the environment *)

(** From await number [start] on, [clean stop] never runs and no call
    fails with an error other than [NotFound]. *)
Definition quiet_from (env : Env) (start : nat) : Prop :=
  forall n, (start <= n)%nat ->
    stop (reply env n) = false /\ outcome (reply env n) <> Failed.

(** The first of the messages, if there is one, fails the age test at
    clock reading number [tick]. *)
Definition cut_is_old (env : Env) (tick : nat) (messages : list Message.t)
    : bool :=
  match messages with
  | [] => true
  | cut :: _ => is_older_than_14d_at (clock env tick) cut
  end.

(** The world once [call] has been awaited in [w]. *)
Definition after_await (env : Env) (call : Call) (w : World) : World :=
  {| cleaning := cleaning w && negb (stop (reply env (List.length (log w))));
     ticks := ticks w;
     log := (log w ++ [(call, reply env (List.length (log w)))])%list;
     ignored := ignored w |}.

(** From [w] to [w'] the calls of [seg] were logged, each one awaited
    while the flag was set, and the flag went down if one of them saw
    [clean stop] run. *)
Definition extends (w : World) (seg : list (Call * Reply)) (w' : World)
    : Prop :=
  log w' = (log w ++ seg)%list /\
  cleaning w' = cleaning w && no_stop seg /\
  guarded (cleaning w) seg = true.

(** A run of the deleter from [w]: it raises exactly when one of its calls
    failed, and what it returns satisfies [post]. *)
Definition deleter_post {A : Type} (w : World) (run : Result A * World)
    (post : list (Call * Reply) -> A -> Prop) : Prop :=
  exists seg,
    extends w seg (snd run) /\
    match fst run with
    | Returned a => no_failure seg = true /\ post seg a
    | Raised _ => no_failure seg = false
    end.

(** The list a run of [delete_found_in] hands on, returning or not. *)
Definition handed_on (r : list Message.t + list Message.t)
    : list Message.t :=
  match r with
  | inl deleted => deleted
  | inr deleted => deleted
  end.

(** What the inner loop guarantees when it ends. *)
Definition bulk_loop_post_of (messages : list Message.t) (start : nat)
    (pending deleted : list Message.t) (seg : list (Call * Reply))
    (exit : LoopExit) : Prop :=
  match exit with
  | LoopReturn d =>
      d = (deleted ++ reported seg)%list /\
      exists rest, (pending ++ messages = reported seg ++ rest)%list
  | LoopBreak current_index to_delete d =>
      d = (deleted ++ reported seg)%list /\
      (start <= current_index)%nat /\
      (pending ++ messages
       = reported seg ++ to_delete
         ++ skipn (current_index - start) messages)%list
  | LoopEnd to_delete d =>
      d = (deleted ++ reported seg)%list /\
      (pending ++ messages = reported seg ++ to_delete)%list
  end.

(** ** Properties of coroutines *)

(** [m] never sets the flag. *)
Definition keeps_flag_down {A : Type} (m : M A) : Prop :=
  forall w, cleaning w = false -> cleaning (snd (m w)) = false.

(** [m] returns only with the flag down. *)
Definition returns_cleared {A : Type} (m : M A) : Prop :=
  forall w, match m w with
            | (Returned _, w') => cleaning w' = false
            | (Raised _, _) => True
            end.

(** Every call [m] logs satisfies [P], and every value it returns
    satisfies [R]. *)
Definition traces {A : Type} (P : Call -> Prop) (R : A -> Prop) (m : M A)
    : Prop :=
  forall w, exists seg,
    log (snd (m w)) = (log w ++ seg)%list /\
    Forall (fun entry => P (fst entry)) seg /\
    (forall a, fst (m w) = Returned a -> R a).

(** Every message found satisfies [Q]. *)
Definition all_found (Q : Message.t -> Prop) (found : Mapping * list Z)
    : Prop :=
  Forall (fun entry => Forall Q (snd entry)) (fst found).

(** ** Doubles *)

(** [x] is a double: rounding leaves it as it is. *)
Definition is_double (x : Q) : Prop := (round_double x == x)%Q.

(** A double as the Standard Library's [spec_float] of binary64, and
    back. *)
Definition to_binary64 (x : Q) : spec_float :=
  if Qeq_bool x 0 then S754_zero false
  else
    let e := Z.max (binade x - 52) (-1074) in
    match round_half_even (Qabs x / 2 ^ e) with
    | Z.pos m => S754_finite (negb (Qle_bool 0 x)) m e
    | _ => S754_zero false
    end.

Definition of_binary64 (f : spec_float) : Q :=
  match f with
  | S754_finite s m e =>
      ((if s then -1 else 1) * inject_Z (Z.pos m) * 2 ^ e)%Q
  | _ => 0%Q
  end.

(** The threshold of the age test computed with the Standard Library's
    binary64 operations. *)
Definition two_weeks_old_ms_binary64 (now : spec_float) : spec_float :=
  SFsub 53 1024
    (SFmul 53 1024
       (SFsub 53 1024 now (to_binary64 (inject_Z (14 * 24 * 60 * 60))))
       (to_binary64 1000))
    (to_binary64 1420070400000).

(** ** The entries a pattern is searched in *)

(** The entries of an embed: its title, description, footer text and
    author name, then the name and the value of each of its fields. *)
Definition entries_of_embed (embed : Embed.t) : list (option string) :=
  [Embed.title embed; Embed.description embed;
   Embed.footer_text embed; Embed.author_name embed]
  ++ flat_map (fun field => [Some (EmbedField.name field);
                             Some (EmbedField.value field)])
       (Embed.fields embed).

(** The message content, then the entries of each embed. *)
Definition searched_entries (message : Message.t) : list (option string) :=
  Some (Message.content message)
  :: flat_map entries_of_embed (Message.embeds message).

(** The entries that are set and not empty. *)
Fixpoint non_empty_entries (entries : list (option string)) : list string :=
  match entries with
  | [] => []
  | None :: rest => non_empty_entries rest
  | Some text :: rest =>
      if String.eqb text EmptyString then non_empty_entries rest
      else text :: non_empty_entries rest
  end.

(** ** What the predicate tests *)

(** The conjunction of the tests [_build_predicate] installs. *)
Definition criteria_hold (bots_only : bool) (users : option (list User.t))
    (pattern : option Pattern) (first_limit second_limit : option datetime)
    (message : Message.t) : bool :=
  (if bots_only then User.bot (Message.author message) else true)
  && (if non_empty users then
        existsb (User.eqb (Message.author message))
          match users with
          | Some l => l
          | None => []
          end
      else true)
  && match pattern with
     | Some r => search r (searchable_text message)
     | None => true
     end
  && match first_limit, second_limit with
     | Some first, Some second =>
         (first <=? Message.created_at message)
         && (Message.created_at message <=? second)
     | Some first, None => first <=? Message.created_at message
     | None, _ => true
     end.

(** The world with the flag down. *)
Definition flag_down (w : World) : World :=
  {| cleaning := false; ticks := ticks w; log := log w;
     ignored := ignored w |}.

(** ** Looking a channel up *)

(** [message_mappings[channel]], the empty list for a channel that has no
    entry. *)
Definition mapping_get (mapping : Mapping) (channel : TextChannel.t)
    : list Message.t :=
  match find (fun entry => TextChannel.eqb (fst entry) channel) mapping with
  | Some entry => snd entry
  | None => []
  end.

(** The step of a scan for a message the predicate answered on. *)
Definition scan_step (to_delete : Message.t -> bool)
    (found : Mapping * list Z) (message : Message.t) : Mapping * list Z :=
  if to_delete message then record_match found message else found.

(** The requests of a complete scan of the histories of [channels]. *)
Definition history_requests (env : Env) (traverse : Z)
    (before after : option datetime) (channels : list TextChannel.t)
    : list Call :=
  flat_map
    (fun c =>
       repeat (history_next c traverse before after)
         (S (List.length (history env c traverse before after))))
    channels.

(** ** What a call of the deleter may be *)

(** A bulk deletion of 1 to 100 messages of one entry of the mapping, for
    the channel of that entry, or the deletion of one message of an
    entry. *)
Definition deletes_matched (mapping : Mapping) (call : Call) : Prop :=
  match call with
  | channel_delete_messages c messages =>
      (0 < List.length messages <= 100)%nat /\
      exists matched,
        In (c, matched) mapping /\ Forall (fun m => In m matched) messages
  | message_delete message =>
      exists c matched, In (c, matched) mapping /\ In message matched
  | _ => False
  end.

(** Every message passes the age test at every reading of the clock. *)
Definition always_eligible (env : Env) (messages : list Message.t) : Prop :=
  forall t m, In m messages -> is_older_than_14d_at (clock env t) m = false.

(** The bulk calls that delete the messages of a mapping, entry after
    entry. *)
Definition bulk_calls (mapping : Mapping) : list Call :=
  flat_map
    (fun entry => map (channel_delete_messages (fst entry))
                    (chunks (snd entry)))
    mapping.

(** The predicate a session builds from its arguments. *)
Definition session_predicate (bots_only : bool)
    (users : option (list User.t)) (pattern : option Pattern)
    (first_limit second_limit : option CleanLimit) : Predicate :=
  _build_predicate bots_only users pattern
    (fst (standardize_limits first_limit second_limit))
    (snd (standardize_limits first_limit second_limit)).

(** The channels whose history a session may read. *)
Definition session_channels (ctx : Context.t)
    (channels : option CleanChannels)
    (first_limit second_limit : option CleanLimit) : list TextChannel.t :=
  match default_channels ctx channels first_limit second_limit with
  | AllChannels => text_channels (Context.guild_channels ctx)
  | ChannelList l => l
  end.

(** What a call of a session may be, [accepted] telling the messages the
    predicate of the session accepted: a history request for one of the
    session's channels, with the traverse count and the limits of the
    session; a deletion of accepted messages or of the invocation. *)
Definition session_call (ctx : Context.t) (traverse : Z)
    (channels : list TextChannel.t) (first_limit second_limit : option datetime)
    (accepted : Message.t -> Prop) (call : Call) : Prop :=
  match call with
  | history_next c limit before after =>
      In c channels /\ limit = traverse /\
      before = second_limit /\ after = first_limit
  | channel_delete_messages _ messages => Forall accepted messages
  | message_delete message =>
      accepted message \/ message = Context.message ctx
  | _ => True
  end.

(** A call that deletes nothing but messages [ok] holds of and the
    invocation. *)
Definition deletes_only (ctx : Context.t) (ok : Message.t -> Prop)
    (call : Call) : Prop :=
  match call with
  | channel_delete_messages _ messages => Forall ok messages
  | message_delete message => ok message \/ message = Context.message ctx
  | _ => True
  end.

(** A call that reads no other history than that of [channel]. *)
Definition reads_only (channel : TextChannel.t) (call : Call) : Prop :=
  match call with
  | history_next c _ _ _ => c = channel
  | _ => True
  end.

(** ** The calls of a session where nothing goes wrong *)

(** The call of [_delete_invocation]. *)
Definition invocation_calls (env : Env) (ctx : Context.t) : list Call :=
  if negb (is_mod_channel env (Context.channel ctx)) then
    [message_delete (Context.message ctx)]
  else [].

(** The calls of [_modlog_cleaned_messages]. *)
Definition modlog_calls (env : Env) (ctx : Context.t)
    (channels : CleanChannels) (messages : list Message.t) : list Call :=
  match messages with
  | [] =>
      [ctx_send (Context.channel ctx)
         ":x: No matching messages could be found."
         (if is_mod_channel env (Context.channel ctx) then None
          else Some MESSAGE_DELETE_DELAY)]
  | _ :: _ =>
      [upload_log (rev messages) (User.id (Context.author ctx));
       send_log_message "Bulk message delete"
         ("**" ++ string_of_nat (List.length messages)
          ++ "** messages deleted in "
          ++ match channels with
             | AllChannels => "all channels"
             | ChannelList l => String.concat ", " (map mention_channel l)
             end
          ++ " by " ++ User.mention (Context.author ctx)
          ++ newline ++ newline
          ++ "A log of the deleted messages can be found [here]("
          ++ log_url env ++ ").")%string]
  end.

(** The reaction that ends a session in a mod channel when messages were
    deleted. *)
Definition reaction_calls (env : Env) (ctx : Context.t)
    (messages : list Message.t) : list Call :=
  match messages with
  | [] => []
  | _ :: _ =>
      if is_mod_channel env (Context.channel ctx) then
        [add_reaction (Context.message ctx) (check_mark env)]
      else []
  end.

(** The session reads the cache: the channels are ["*"] and [use_cache]
    is true. *)
Definition reads_cache (channels : option CleanChannels)
    (use_cache : option bool) : bool :=
  match channels, use_cache with
  | Some AllChannels, Some true => true
  | _, _ => false
  end.

(** The messages a complete scan goes through: the first [traverse] of the
    cache, or what the histories of the session's channels hold between
    the standardized limits. *)
Definition messages_read (env : Env) (ctx : Context.t) (traverse : Z)
    (channels : option CleanChannels) (use_cache : option bool)
    (first_limit second_limit : option CleanLimit) : list Message.t :=
  if reads_cache channels use_cache then
    firstn (Z.to_nat traverse) (cached_messages env)
  else
    flat_map
      (fun c =>
         history env c traverse
           (snd (standardize_limits first_limit second_limit))
           (fst (standardize_limits first_limit second_limit)))
      (session_channels ctx channels first_limit second_limit).

(** The requests of that scan: none for the cache. *)
Definition scan_requests (env : Env) (ctx : Context.t) (traverse : Z)
    (channels : option CleanChannels) (use_cache : option bool)
    (first_limit second_limit : option CleanLimit) : list Call :=
  if reads_cache channels use_cache then []
  else
    history_requests env traverse
      (snd (standardize_limits first_limit second_limit))
      (fst (standardize_limits first_limit second_limit))
      (session_channels ctx channels first_limit second_limit).

(** A run from [w] that returns [a] with the flag at [flag], after the
    calls [calls] and no other. *)
Definition runs_to {A : Type} (env : Env) (w : World) (calls : list Call)
    (run : Result A * World) (a : A) (flag : bool) : Prop :=
  fst run = Returned a /\
  cleaning (snd run) = flag /\
  log (snd run)
  = (log w ++ answered env (List.length (log w)) calls)%list.

(** ** Sample values *)

Definition calm : Reply := {| outcome := Done; stop := false |}.

Definition a_channel : TextChannel.t := {| TextChannel.id := 1 |}.

Definition a_user : User.t :=
  {| User.id := 7; User.bot := false; User.mention := "<@7>" |}.

(** A clock stopped in November 2023. *)
Definition a_time : Q := 1700000000.

(** The double nearest to 1700191018.54, a reading at which the product
    by [1000.0] is rounded up to the next millisecond. *)
Definition a_rounded_time : Q := round_double (170019101854 # 100).

(** A reading half a millisecond or so past [a_time]. *)
Definition a_time_and_a_bit : Q := 1700000000 + (1 # 2048).

(** The identifier of a message created exactly fourteen days before
    [a_time]: the smallest one that passes the age test then. *)
Definition a_young_id : Z := Z.shiftl 278720000000 22.

Definition a_message (id : Z) : Message.t :=
  {| Message.id := id; Message.author := a_user;
     Message.channel := a_channel; Message.created_at := 0;
     Message.content := EmptyString; Message.embeds := [] |}.

(** A message whose only text is the value of an embed field. *)
Definition a_message_with_field (value : string) : Message.t :=
  {| Message.id := a_young_id; Message.author := a_user;
     Message.channel := a_channel; Message.created_at := 0;
     Message.content := EmptyString;
     Message.embeds :=
       [{| Embed.title := None; Embed.description := None;
           Embed.footer_text := None; Embed.author_name := None;
           Embed.fields :=
             [{| EmbedField.name := EmptyString;
                 EmbedField.value := value |}] |}] |}.

Definition a_context : Context.t :=
  {| Context.channel := a_channel; Context.message := a_message 5;
     Context.author := a_user; Context.guild_channels := [] |}.

(** An environment with the given clock and answers, where the channel
    histories are empty and only the cache holds messages. *)
Definition an_env (cached : list Message.t) (clock : nat -> Q)
    (reply : nat -> Reply) : Env :=
  {| message_limit := 10000; check_mark := "ok";
     is_mod_channel := fun _ => true;
     cached_messages := cached;
     history := fun _ _ _ _ => [];
     log_url := "url";
     clock := clock; reply := reply |}.

Definition a_world (flag : bool) : World :=
  {| cleaning := flag; ticks := 0; log := []; ignored := [] |}.

(** An environment where nothing goes wrong, with no cached message. *)
Definition a_quiet_env : Env := an_env [] (fun _ => a_time) (fun _ => calm).

(** Two messages young enough for a bulk deletion, and three messages of
    which the first is too old. *)
Definition two_young_messages : list Message.t :=
  [a_message a_young_id; a_message (a_young_id + 1)].

Definition three_messages_from_the_cut : list Message.t :=
  [a_message (a_young_id - 1); a_message (a_young_id + 3);
   a_message (a_young_id - 5)].

(** 101 messages that pass the age test at [a_time]. *)
Definition many_young_messages : list Message.t :=
  map (fun i => a_message (a_young_id + Z.of_nat i)) (seq 0 101).

(** An environment where the history of every channel holds the two young
    messages and [clean stop] runs during await number 1. *)
Definition a_history_env : Env :=
  {| message_limit := 10000; check_mark := "ok";
     is_mod_channel := fun _ => true;
     cached_messages := [];
     history := fun _ _ _ _ => two_young_messages;
     log_url := "url";
     clock := fun _ => a_time;
     reply := fun n => {| outcome := Done; stop := (n =? 1)%nat |} |}.

(** An environment whose cache holds five messages. *)
Definition a_cache_env : Env :=
  an_env (two_young_messages ++ three_messages_from_the_cut)
    (fun _ => a_time) (fun _ => calm).

(** An environment where nothing goes wrong, whose cache holds the two
    young messages. *)
Definition a_young_cache_env : Env :=
  an_env two_young_messages (fun _ => a_time) (fun _ => calm).

(** An environment where nothing goes wrong and the history of every
    channel holds the two young messages. *)
Definition a_calm_history_env : Env :=
  {| message_limit := 10000; check_mark := "ok";
     is_mod_channel := fun _ => true;
     cached_messages := [];
     history := fun _ _ _ _ => two_young_messages;
     log_url := "url";
     clock := fun _ => a_time;
     reply := fun _ => calm |}.

Definition accept_all : Predicate := fun _ => Returned true.




Definition is_digit (c : ascii) : bool :=
  ((48 <=? nat_of_ascii c) && (nat_of_ascii c <=? 57))%nat.

Fixpoint has_digit (s : string) : bool :=
  match s with
  | EmptyString => false
  | String c rest => is_digit c || has_digit rest
  end.

Fixpoint all_digits (s : string) : bool :=
  match s with
  | EmptyString => true
  | String c rest => is_digit c && all_digits rest
  end.

(** The pattern [[0-9]+] compiled: it is found in the texts that hold a
    digit, and it matches in full the texts made of digits. *)
Definition digits : Pattern :=
  {| search := has_digit;
     fullmatch := fun s => match s with
                           | EmptyString => false
                           | String _ _ => all_digits s
                           end |}.

(** A compiler that knows this pattern only. *)
Definition compile_digits (text : string) (flags : Z) : string + Pattern :=
  if String.eqb text "[0-9]+" then inr digits else inl "unknown pattern"%string.


(** The deleter on the 101 messages when the first bulk call raises
    [NotFound]. *)
Definition a_run_with_a_vanished_batch : Result (list Message.t) * World :=
  _delete_found
    (an_env [] (fun _ => a_time)
       (fun n => match n with
                 | O => {| outcome := Missing; stop := false |}
                 | S _ => calm
                 end))
    [(a_channel, many_young_messages)] (a_world true).

(** The deleter on the 101 messages when the first bulk call raises
    [NotFound] and [clean stop] runs during that call. *)
Definition a_cancelled_run_with_a_vanished_batch
    : Result (list Message.t) * World :=
  _delete_found
    (an_env [] (fun _ => a_time)
       (fun n => match n with
                 | O => {| outcome := Missing; stop := true |}
                 | S _ => calm
                 end))
    [(a_channel, many_young_messages)] (a_world true).


(** From await number [start] on, every call succeeds and [clean stop]
    never runs. *)
Definition calm_from (env : Env) (start : nat) : Prop :=
  forall n, (start <= n)%nat -> reply env n = calm.

(** * Proofs *)

(** ** The age test *)

Lemma lt_shiftl_iff_shiftr_lt (a t : Z) :
  a < Z.shiftl t 22 <-> Z.shiftr a 22 < t.
Proof.
  rewrite Z.shiftl_mul_pow2, Z.shiftr_div_pow2 by lia.
  assert (Hp : 0 < 2 ^ 22) by lia.
  split; intro H.
  - apply Z.div_lt_upper_bound; lia.
  - destruct (Z_lt_le_dec a (t * 2 ^ 22)) as [|Hge]; [assumption|].
    rewrite Z.mul_comm in Hge.
    apply (Z.div_le_lower_bound a (2 ^ 22) t Hp) in Hge; lia.
Qed.

Lemma round_half_even_cases (x : Q) :
  round_half_even x = Qfloor x \/ round_half_even x = Qfloor x + 1.
Proof.
  unfold round_half_even.
  destruct (x - inject_Z (Qfloor x) ?= 1 # 2)%Q; auto.
  destruct (Z.even (Qfloor x)); auto.
Qed.

Lemma round_half_even_near (x : Q) :
  (inject_Z (round_half_even x) - (1 # 2) <= x
   <= inject_Z (round_half_even x) + (1 # 2))%Q.
Proof.
  pose proof (Qfloor_le x) as Hlo. pose proof (Qlt_floor x) as Hhi.
  rewrite inject_Z_plus in Hhi. change (inject_Z 1) with 1%Q in Hhi.
  unfold round_half_even.
  destruct (x - inject_Z (Qfloor x) ?= 1 # 2)%Q eqn:E.
  - apply Qeq_alt in E.
    destruct (Z.even (Qfloor x)); rewrite ?inject_Z_plus;
      change (inject_Z 1) with 1%Q; split; lra.
  - apply Qlt_alt in E. split; lra.
  - apply Qgt_alt in E. rewrite inject_Z_plus.
    change (inject_Z 1) with 1%Q. split; lra.
Qed.

Lemma round_half_even_ge (n : Z) (x : Q) :
  (inject_Z n <= x)%Q -> n <= round_half_even x.
Proof.
  intro H. apply Qfloor_resp_le in H. rewrite Qfloor_Z in H.
  destruct (round_half_even_cases x) as [-> | ->]; lia.
Qed.

Lemma round_half_even_le (n : Z) (x : Q) :
  (x <= inject_Z n)%Q -> round_half_even x <= n.
Proof.
  intro H. pose proof (Qfloor_resp_le _ _ H) as Hf. rewrite Qfloor_Z in Hf.
  destruct (Z.eq_dec (Qfloor x) n) as [E|E].
  - unfold round_half_even. rewrite E.
    destruct (x - inject_Z n ?= 1 # 2)%Q eqn:C; [|lia|].
    + apply Qeq_alt in C. lra.
    + apply Qgt_alt in C. lra.
  - destruct (round_half_even_cases x) as [-> | ->]; lia.
Qed.

Lemma round_half_even_Z (n : Z) (x : Q) :
  (x == inject_Z n)%Q -> round_half_even x = n.
Proof.
  intro E. apply Z.le_antisymm.
  - apply round_half_even_le. rewrite E. apply Qle_refl.
  - apply round_half_even_ge. rewrite E. apply Qle_refl.
Qed.

Lemma binade_from_one (x : Q) :
  (1 <= x)%Q -> binade x = Z.log2 (Qfloor x).
Proof.
  intro H. unfold binade.
  assert (Ha : (Qabs x == x)%Q) by (apply Qabs_pos; lra).
  assert (Hb : Qle_bool 1 (Qabs x) = true)
    by (apply Qle_bool_iff; rewrite Ha; exact H).
  rewrite Hb. apply f_equal. apply Qfloor_comp. exact Ha.
Qed.

Lemma binade_between (x : Q) (a : Z) :
  0 <= a -> (inject_Z (2 ^ a) <= x < inject_Z (2 ^ (a + 1)))%Q ->
  binade x = a.
Proof.
  intros Ha [Hlo Hhi].
  assert (H1 : (1 <= x)%Q).
  { eapply Qle_trans; [|exact Hlo].
    change 1%Q with (inject_Z 1). rewrite <- Zle_Qle.
    pose proof (Z.pow_pos_nonneg 2 a). lia. }
  rewrite binade_from_one by exact H1.
  apply Z.log2_unique; [exact Ha|]. split.
  - apply Qfloor_resp_le in Hlo. rewrite Qfloor_Z in Hlo. exact Hlo.
  - rewrite Zlt_Qlt. eapply Qle_lt_trans; [apply Qfloor_le | exact Hhi].
Qed.

Lemma binade_below (x : Q) (a : Z) :
  (1 <= x < inject_Z (2 ^ a))%Q -> 0 <= binade x < a.
Proof.
  intros [Hlo Hhi]. rewrite binade_from_one by exact Hlo.
  assert (Hf : 1 <= Qfloor x).
  { apply Qfloor_resp_le in Hlo. exact Hlo. }
  split; [apply Z.log2_nonneg|].
  apply Z.log2_lt_pow2; [lia|].
  rewrite Zlt_Qlt. eapply Qle_lt_trans; [apply Qfloor_le | exact Hhi].
Qed.

Lemma round_double_from_one (x : Q) :
  (1 <= x)%Q ->
  round_double x
  = (inject_Z (round_half_even (x / 2 ^ (binade x - 52)))
     * 2 ^ (binade x - 52))%Q.
Proof.
  intro H. unfold round_double.
  assert (Hz : Qeq_bool x 0 = false).
  { destruct (Qeq_bool x 0) eqn:E; [|reflexivity].
    apply Qeq_bool_eq in E. lra. }
  rewrite Hz.
  assert (Hb : 0 <= binade x).
  { rewrite binade_from_one by exact H. apply Z.log2_nonneg. }
  replace (Z.max (binade x - 52) (-1074)) with (binade x - 52) by lia.
  reflexivity.
Qed.

Lemma pow2_positive (e : Z) : (0 < 2 ^ e)%Q.
Proof. apply Qpower_0_lt. reflexivity. Qed.

(** A number that has no bit below the last place of its binade is a
    double: rounding leaves it as it is. *)
Lemma round_double_exact (x : Q) (j g : Z) :
  (1 <= x)%Q -> (x == inject_Z j * 2 ^ g)%Q -> binade x - 52 <= g ->
  (round_double x == x)%Q.
Proof.
  intros H1 Hx Hg. rewrite round_double_from_one by exact H1.
  set (e := binade x - 52) in *.
  pose proof (pow2_positive e) as He.
  assert (Hd : (2 ^ (g - e) == 2 ^ g / 2 ^ e)%Q).
  { apply Qpower_minus. discriminate. }
  assert (Hi : (2 ^ (g - e) == inject_Z (2 ^ (g - e)))%Q).
  { rewrite Zpower_Qpower by lia. reflexivity. }
  assert (Hs : (x / 2 ^ e == inject_Z (j * 2 ^ (g - e)))%Q).
  { rewrite inject_Z_mult, <- Hi, Hd, Hx. field. lra. }
  rewrite (round_half_even_Z _ _ Hs).
  rewrite inject_Z_mult, <- Hi, Hd, Hx. field. lra.
Qed.

Lemma int_of_float_nonneg (x : Q) : (0 <= x)%Q -> int_of_float x = Qfloor x.
Proof.
  intro H. destruct x as [n d]. unfold int_of_float, Qfloor. cbn.
  apply Z.quot_div_nonneg; [|lia].
  unfold Qle in H. cbn in H. lia.
Qed.

Section Reading.

Variable now : Q.
Hypothesis now_double : is_double now.
Hypothesis now_range : (1421280001 <= now < 2147483648)%Q.

Lemma now_grid : exists m, (now == inject_Z m * (1 # 4194304))%Q.
Proof.
  assert (Hb : binade now = 30).
  { apply binade_between; [lia|].
    change (inject_Z (2 ^ 30)) with 1073741824%Q.
    change (inject_Z (2 ^ (30 + 1))) with 2147483648%Q. lra. }
  unfold is_double in now_double.
  rewrite round_double_from_one, Hb in now_double by lra.
  eexists. symmetry. exact now_double.
Qed.

Lemma first_difference_exact :
  (float_sub now (inject_Z (14 * 24 * 60 * 60)) == now - 1209600)%Q.
Proof.
  change (inject_Z (14 * 24 * 60 * 60)) with 1209600%Q. unfold float_sub.
  destruct now_grid as [m Hm].
  assert (Hb : binade (now - 1209600) = 30).
  { apply binade_between; [lia|].
    change (inject_Z (2 ^ 30)) with 1073741824%Q.
    change (inject_Z (2 ^ (30 + 1))) with 2147483648%Q. lra. }
  apply (round_double_exact _ (m - 1209600 * 4194304) (-22)).
  - lra.
  - change (2 ^ (-22))%Q with (1 # 4194304)%Q.
    rewrite Hm. unfold Zminus. rewrite inject_Z_plus, inject_Z_opp,
      inject_Z_mult. field.
  - rewrite Hb. lia.
Qed.

(** The product is rounded to a multiple of the 4096th of a
    millisecond: to a whole number [r] of them that is within a half of
    the exact product and on the same side of every whole millisecond. *)
Lemma product_rounded :
  exists r,
    (float_mul (float_sub now (inject_Z (14 * 24 * 60 * 60))) 1000
     == inject_Z r * (1 # 4096))%Q /\
    (forall N, (inject_Z N <= (now - 1209600) * 1000)%Q -> N * 4096 <= r) /\
    (forall N, ((now - 1209600) * 1000 <= inject_Z N)%Q -> r <= N * 4096) /\
    (inject_Z r - (1 # 2) <= (now - 1209600) * 1000 * 4096)%Q.
Proof.
  pose proof first_difference_exact as H1.
  set (y1 := float_sub now (inject_Z (14 * 24 * 60 * 60))) in *.
  unfold float_mul.
  assert (Hb : binade (y1 * 1000) = 40).
  { apply binade_between; [lia|].
    change (inject_Z (2 ^ 40)) with 1099511627776%Q.
    change (inject_Z (2 ^ (40 + 1))) with 2199023255552%Q.
    rewrite H1. lra. }
  rewrite round_double_from_one, Hb by (rewrite H1; lra).
  change (2 ^ (40 - 52))%Q with (1 # 4096)%Q.
  assert (Hs : (y1 * 1000 / (1 # 4096) == (now - 1209600) * 1000 * 4096)%Q).
  { rewrite H1. field. }
  exists (round_half_even (y1 * 1000 / (1 # 4096))).
  split; [reflexivity|]. split; [|split].
  - intros N HN. apply round_half_even_ge.
    rewrite inject_Z_mult, Hs. change (inject_Z 4096) with 4096%Q. lra.
  - intros N HN. apply round_half_even_le.
    rewrite inject_Z_mult, Hs. change (inject_Z 4096) with 4096%Q. lra.
  - rewrite <- Hs. apply round_half_even_near.
Qed.

Lemma second_difference_exact :
  (two_weeks_old_ms now
   == float_mul (float_sub now (inject_Z (14 * 24 * 60 * 60))) 1000
      - 1420070400000)%Q /\
  (1000 <= two_weeks_old_ms now)%Q.
Proof.
  unfold two_weeks_old_ms.
  destruct product_rounded as (r & Hr & Hge & Hle & _).
  set (y2 := float_mul (float_sub now (inject_Z (14 * 24 * 60 * 60))) 1000)
    in *.
  assert (Hlo : 1420070401000 * 4096 <= r)
    by (apply Hge; unfold inject_Z; lra).
  assert (Hhi : r <= 2146274048000 * 4096)
    by (apply Hle; unfold inject_Z; lra).
  assert (Hy2 : (1420070401000 <= y2 <= 2146274048000)%Q).
  { rewrite Zle_Qle in Hlo, Hhi.
    change (inject_Z (1420070401000 * 4096)) with 5816608362496000%Q in Hlo.
    change (inject_Z (2146274048000 * 4096)) with 8791138500608000%Q in Hhi.
    rewrite Hr. lra. }
  assert (Hex : (float_sub y2 1420070400000 == y2 - 1420070400000)%Q).
  { unfold float_sub.
    pose proof (binade_below (y2 - 1420070400000) 40) as Hb.
    change (inject_Z (2 ^ 40)) with 1099511627776%Q in Hb.
    apply (round_double_exact _ (r - 1420070400000 * 4096) (-12)).
    - lra.
    - change (2 ^ (-12))%Q with (1 # 4096)%Q.
      rewrite Hr. unfold Zminus.
      rewrite inject_Z_plus, inject_Z_opp, inject_Z_mult. field.
    - assert (0 <= binade (y2 - 1420070400000) < 40) by (apply Hb; lra).
      lia. }
  split; [exact Hex | rewrite Hex; lra].
Qed.

End Reading.

(** The threshold is between one thousand and the exact product less the
    origin of the identifiers, rounded as [product_rounded] tells. *)
Lemma threshold_of_a_reading (now : Q) :
  is_double now -> (1421280001 <= now < 2147483648)%Q ->
  exists r,
    int_of_float (two_weeks_old_ms now)
    = Qfloor (inject_Z r * (1 # 4096) - 1420070400000) /\
    (forall N, (inject_Z N <= (now - 1209600) * 1000)%Q -> N * 4096 <= r) /\
    (inject_Z r - (1 # 2) <= (now - 1209600) * 1000 * 4096)%Q.
Proof.
  intros Hd Hr.
  destruct (product_rounded now Hd Hr) as (r & Hy2 & Hge & _ & Hnear).
  destruct (second_difference_exact now Hd Hr) as [Hex Hpos].
  exists r. split; [|split; assumption].
  rewrite int_of_float_nonneg by lra.
  apply Qfloor_comp. rewrite Hex, Hy2. reflexivity.
Qed.

(** The original claim fails within the last millisecond: a message
    created fourteen days and almost half a millisecond before the reading
    of the clock is more than fourteen days old and is not reported so. *)
Lemma older_by_a_fraction_of_a_millisecond :
  is_double a_time_and_a_bit /\
  (inject_Z (snowflake_time_ms (Message.id (a_message a_young_id))
             + FOURTEEN_DAYS_MS)
   < a_time_and_a_bit * 1000)%Q /\
  is_older_than_14d_at a_time_and_a_bit (a_message a_young_id) = false.
Proof. vm_compute. repeat split. Qed.

(** C3, amended.  For a reading of the clock that is a double between
    January 2015
    and January 2038, the age test compares the millisecond timestamp held
    in the identifier with the threshold
    [int ((now - 14 days) * 1000.0 - 1420070400000)] of the double
    arithmetic, comparing the identifier with the threshold shifted left by
    22 bits; a message reported older than fourteen days was created more
    than fourteen days before the reading, and a message created at least
    fourteen days and one millisecond before the reading is reported
    older. *)
Theorem is_older_than_14d_to_the_millisecond (now : Q) (message : Message.t) :
  is_double now ->
  (1421280001 <= now < 2147483648)%Q ->
  (is_older_than_14d_at now message = true <->
   Z.shiftr (Message.id message) 22 < int_of_float (two_weeks_old_ms now)) /\
  (is_older_than_14d_at now message = true ->
   (inject_Z (snowflake_time_ms (Message.id message) + FOURTEEN_DAYS_MS)
    < now * 1000)%Q) /\
  ((inject_Z (snowflake_time_ms (Message.id message) + FOURTEEN_DAYS_MS + 1)
    <= now * 1000)%Q ->
   is_older_than_14d_at now message = true).
Proof.
  intros Hd Hr.
  assert (Hiff : is_older_than_14d_at now message = true <->
                 Z.shiftr (Message.id message) 22
                   < int_of_float (two_weeks_old_ms now)).
  { unfold is_older_than_14d_at, two_weeks_old_snowflake.
    rewrite Z.ltb_lt. apply lt_shiftl_iff_shiftr_lt. }
  split; [exact Hiff|].
  destruct (threshold_of_a_reading now Hd Hr) as (r & HT & Hge & Hnear).
  set (t := Z.shiftr (Message.id message) 22) in *.
  unfold snowflake_time_ms, DISCORD_EPOCH, FOURTEEN_DAYS_MS. fold t.
  change (14 * 24 * 60 * 60 * 1000) with 1209600000.
  clearbody t. split.
  - intro Hold. apply Hiff in Hold. rewrite HT in Hold.
    assert (Hle : (inject_Z (t + 1)
                   <= inject_Z r * (1 # 4096) - 1420070400000)%Q).
    { eapply Qle_trans; [|apply Qfloor_le]. rewrite <- Zle_Qle. lia. }
    clear Hiff HT Hge Hold. rewrite !inject_Z_plus in *.
    set (qt := inject_Z t) in *. set (qr := inject_Z r) in *.
    unfold inject_Z in *. lra.
  - intro Hage. apply Hiff. rewrite HT.
    assert (Hr' : (t + 1420070400000 + 1) * 4096 <= r).
    { apply Hge. clear Hiff HT Hge Hnear. rewrite !inject_Z_plus in *.
      set (qt := inject_Z t) in *. unfold inject_Z in *. lra. }
    assert (Hq : (inject_Z (t + 1)
                  <= inject_Z r * (1 # 4096) - 1420070400000)%Q).
    { rewrite Zle_Qle in Hr'. rewrite inject_Z_mult, !inject_Z_plus in Hr'.
      clear Hiff HT Hge Hnear Hage. rewrite inject_Z_plus.
      set (qt := inject_Z t) in *. set (qr := inject_Z r) in *.
      unfold inject_Z in *. lra. }
    apply Qfloor_resp_le in Hq. rewrite Qfloor_Z in Hq. lia.
Qed.

Lemma is_older_than_14d_to_the_millisecond_witness :
  is_double a_rounded_time /\
  (1421280001 <= a_rounded_time < 2147483648)%Q /\
  (is_older_than_14d_at a_rounded_time (a_message (a_young_id - 1)) = true <->
   Z.shiftr (Message.id (a_message (a_young_id - 1))) 22
     < int_of_float (two_weeks_old_ms a_rounded_time)).
Proof.
  assert (Hd : is_double a_rounded_time) by (vm_compute; reflexivity).
  assert (Hr : (1421280001 <= a_rounded_time < 2147483648)%Q)
    by (split; vm_compute; [discriminate | reflexivity]).
  split; [exact Hd|]. split; [exact Hr|].
  apply (proj1 (is_older_than_14d_to_the_millisecond a_rounded_time
                  (a_message (a_young_id - 1)) Hd Hr)).
Defined.

(** At this reading the double product is rounded up across a whole
    millisecond: the threshold is one more than exact arithmetic on the
    same reading gives, and it is the one the Standard Library's binary64
    operations give. *)
Example a_threshold_rounded_up :
  int_of_float (two_weeks_old_ms a_rounded_time) = 278911018540 /\
  Qfloor ((a_rounded_time - 1209600) * 1000 - 1420070400000) = 278911018539 /\
  (of_binary64 (two_weeks_old_ms_binary64 (to_binary64 a_rounded_time))
   == two_weeks_old_ms a_rounded_time)%Q /\
  (of_binary64 (two_weeks_old_ms_binary64 (to_binary64 a_time))
   == two_weeks_old_ms a_time)%Q /\
  (of_binary64 (two_weeks_old_ms_binary64 (to_binary64 a_time_and_a_bit))
   == two_weeks_old_ms a_time_and_a_bit)%Q.
Proof. vm_compute. repeat split. Qed.

(** ** The flag stays down once it is down *)

Lemma keeps_ret {A : Type} (a : A) : keeps_flag_down (ret a).
Proof. intros w H. exact H. Qed.

Lemma keeps_bind {A B : Type} (m : M A) (k : A -> M B) :
  keeps_flag_down m -> (forall a, keeps_flag_down (k a)) ->
  keeps_flag_down (bind m k).
Proof.
  intros Hm Hk w H. unfold bind. specialize (Hm w H).
  destruct (m w) as [[a|e] w']; simpl in *.
  - apply Hk. exact Hm.
  - exact Hm.
Qed.

Lemma keeps_await env call : keeps_flag_down (await env call).
Proof. intros w H. unfold await. simpl. rewrite H. reflexivity. Qed.

Lemma keeps_suppress {A : Type} (m : M A) :
  keeps_flag_down m -> keeps_flag_down (suppress_NotFound m).
Proof.
  intros Hm w H. unfold suppress_NotFound. specialize (Hm w H).
  destruct (m w) as [[a|[]] w']; exact Hm.
Qed.

Lemma keeps_send_expiring env ctx content :
  keeps_flag_down (_send_expiring_message env ctx content).
Proof. apply keeps_await. Qed.

Lemma keeps_modlog env messages channels ctx :
  keeps_flag_down (_modlog_cleaned_messages env messages channels ctx).
Proof.
  unfold _modlog_cleaned_messages. destruct messages.
  - apply keeps_bind; [apply keeps_send_expiring | intro; apply keeps_ret].
  - apply keeps_bind; [apply keeps_await | intro].
    apply keeps_bind; [apply keeps_await | intro; apply keeps_ret].
Qed.

(** ** Leaving a session *)

Lemma returns_cleared_bind {A B : Type} (m : M A) (k : A -> M B) :
  (forall a, returns_cleared (k a)) -> returns_cleared (bind m k).
Proof.
  intros Hk w. unfold bind. destruct (m w) as [[a|e] w'].
  - apply Hk.
  - exact I.
Qed.

Lemma returns_cleared_of_keeps {B : Type} (k : M B) :
  keeps_flag_down k -> returns_cleared (set_cleaning false ;; k).
Proof.
  intros Hk w. unfold bind, set_cleaning.
  match goal with |- context [k ?w0] => specialize (Hk w0 eq_refl) end.
  destruct (k _) as [[b|e] w']; [exact Hk | exact I].
Qed.

Lemma invoke_cleared (m : M unit) w :
  match m w with
  | (Returned _, w') => cleaning w' = false
  | (Raised _, _) => True
  end ->
  cleaning (snd (invoke m w)) = false.
Proof.
  intro H. unfold invoke.
  destruct (m w) as [[[]|e] w']; simpl; [exact H | reflexivity].
Qed.

(** What a session does once [self.cleaning] has been set. *)
Lemma session_returns_cleared env ctx traverse channels bots_only users
    pattern first_limit second_limit use_cache :
  returns_cleared
    (let channels := default_channels ctx channels first_limit second_limit in
     let (first_limit, second_limit) :=
       standardize_limits first_limit second_limit in
     let predicate :=
       _build_predicate bots_only users pattern first_limit second_limit in
     _delete_invocation env ctx;;
     found <- find_messages env ctx traverse channels use_cache predicate
                first_limit second_limit;;
     flag <- get_cleaning;;
     if negb flag then ret tt
     else
       mod_log_ignore (snd found);;
       deleted_messages <- _delete_found env (fst found);;
       set_cleaning false;;
       logged <- _modlog_cleaned_messages env deleted_messages channels ctx;;
       if logged && is_mod_channel env (Context.channel ctx) then
         _ <- suppress_NotFound
                (await env
                   (add_reaction (Context.message ctx) (check_mark env)));;
         ret tt
       else ret tt).
Proof.
  cbv zeta. destruct (standardize_limits first_limit second_limit) as [f s].
  apply returns_cleared_bind. intros _.
  apply returns_cleared_bind. intros found.
  intro w. unfold bind at 1. unfold get_cleaning at 1.
  destruct (cleaning w) eqn:Hflag; simpl negb; cbv iota.
  - apply returns_cleared_bind. intros _.
    apply returns_cleared_bind. intros deleted.
    apply returns_cleared_of_keeps.
    apply keeps_bind; [apply keeps_modlog | intro logged].
    destruct (logged && _).
    + apply keeps_bind; [|intro; apply keeps_ret].
      apply keeps_suppress, keeps_await.
    + apply keeps_ret.
  - unfold ret. exact Hflag.
Qed.

(** C7.  Whatever the environment answers, a cleanup session entered with
    the flag down leaves it down when the command is over: after normal
    completion, after a cancellation, and after any exception, which the
    framework hands to [cog_command_error]. *)
Theorem cleaning_cleared_on_every_exit env ctx traverse channels bots_only
    users pattern first_limit second_limit use_cache w :
  cleaning w = false ->
  cleaning
    (snd (invoke
            (_clean_messages env ctx traverse channels bots_only users
               pattern first_limit second_limit use_cache) w)) = false.
Proof.
  intro Hidle. apply invoke_cleared.
  unfold _clean_messages.
  unfold bind at 1. unfold lift at 1.
  destruct (_validate_input _ _ _ _ _ _ _) as [[]|e]; [|exact I].
  unfold bind at 1. unfold get_cleaning at 1. rewrite Hidle.
  unfold bind at 1. unfold set_cleaning at 1.
  apply session_returns_cleared.
Qed.

Lemma cleaning_cleared_on_every_exit_witness :
  cleaning (a_world false) = false /\
  cleaning
    (snd (invoke
            (_clean_messages
               (an_env [a_message a_young_id] (fun _ => a_time)
                  (fun _ => {| outcome := Failed; stop := false |}))
               a_context 10 (Some AllChannels) false None None None None
               (Some true))
            (a_world false))) = false.
Proof.
  split; [reflexivity|].
  apply cleaning_cleared_on_every_exit. reflexivity.
Defined.

(** ** A second invocation *)




(** ** What a coroutine logs and returns *)

Section Traces.

Variable P : Call -> Prop.

Lemma traces_silent {A : Type} (R : A -> Prop) (m : M A) :
  (forall w, log (snd (m w)) = log w) ->
  (forall w a, fst (m w) = Returned a -> R a) ->
  traces P R m.
Proof.
  intros Hlog HR w. exists []. rewrite app_nil_r.
  split; [apply Hlog|]. split; [constructor | apply HR].
Qed.

Lemma traces_ret {A : Type} (R : A -> Prop) (a : A) :
  R a -> traces P R (ret a).
Proof.
  intro H. apply traces_silent; [reflexivity|].
  intros w a' E. inversion E. subst. exact H.
Qed.

Lemma traces_lift {A : Type} (R : A -> Prop) (r : Result A) :
  (forall a, r = Returned a -> R a) -> traces P R (lift r).
Proof. intro H. apply traces_silent; [reflexivity | intros w; exact H]. Qed.

Lemma traces_bind {A B : Type} (R1 : A -> Prop) (R2 : B -> Prop)
    (m : M A) (k : A -> M B) :
  traces P R1 m -> (forall a, R1 a -> traces P R2 (k a)) ->
  traces P R2 (bind m k).
Proof.
  intros Hm Hk w. destruct (Hm w) as (seg1 & Hlog1 & HP1 & Hres1).
  unfold bind. destruct (m w) as [[a|e] w1]; simpl in *.
  - destruct (Hk a (Hres1 a eq_refl) w1) as (seg2 & Hlog2 & HP2 & Hres2).
    exists (seg1 ++ seg2)%list. rewrite Hlog2, Hlog1, app_assoc.
    split; [reflexivity|]. split; [apply Forall_app; auto | exact Hres2].
  - exists seg1. split; [exact Hlog1|]. split; [exact HP1|]. discriminate.
Qed.

Lemma traces_await env call : P call -> traces P (fun _ => True) (await env call).
Proof.
  intros H w. exists [(call, reply env (List.length (log w)))].
  split; [reflexivity|]. split; [repeat constructor; exact H | auto].
Qed.

Lemma traces_suppress {A : Type} (R : A -> Prop) (m : M A) :
  traces P R m -> traces P (fun _ => True) (suppress_NotFound m).
Proof.
  intros Hm w. destruct (Hm w) as (seg & Hlog & HP & _).
  exists seg. unfold suppress_NotFound.
  destruct (m w) as [[a|[]] w']; auto.
Qed.

Lemma traces_get_cleaning : traces P (fun _ => True) get_cleaning.
Proof. apply traces_silent; auto. Qed.

Lemma traces_set_cleaning b : traces P (fun _ => True) (set_cleaning b).
Proof. apply traces_silent; auto. Qed.

Lemma traces_mod_log_ignore ids : traces P (fun _ => True) (mod_log_ignore ids).
Proof. apply traces_silent; auto. Qed.

Lemma traces_time_time env : traces P (fun _ => True) (time_time env).
Proof. apply traces_silent; auto. Qed.

End Traces.

(** ** Matched messages only *)

Section Matched.

Variable env : Env.
Variable P : Call -> Prop.
Variable Q : Message.t -> Prop.
Variable to_delete : Predicate.

Hypothesis matched_Q : forall m, to_delete m = Returned true -> Q m.
Hypothesis bulk_P :
  forall c ms, Forall Q ms -> P (channel_delete_messages c ms).
Hypothesis single_P : forall m, Q m -> P (message_delete m).

Lemma mapping_append_Q mapping channel message :
  Forall (fun entry => Forall Q (snd entry)) mapping -> Q message ->
  Forall (fun entry => Forall Q (snd entry))
    (mapping_append mapping channel message).
Proof.
  intros Hm Hq. induction mapping as [|[c ms] rest IH]; simpl.
  - repeat constructor. exact Hq.
  - inversion Hm as [|? ? Hms Hrest]; subst.
    destruct (TextChannel.eqb c channel).
    + constructor; [|exact Hrest]. simpl in *. apply Forall_app. auto.
    + constructor; [exact Hms | apply IH; exact Hrest].
Qed.

Lemma record_match_Q found message :
  (all_found Q) found -> Q message -> (all_found Q) (record_match found message).
Proof. intros. apply mapping_append_Q; assumption. Qed.

Lemma cache_loop_Q cleaning_at messages n found found' :
  (all_found Q) found ->
  cache_loop cleaning_at to_delete messages n found = Returned found' ->
  (all_found Q) found'.
Proof.
  revert n found. induction messages as [|m rest IH]; intros n found Hf E.
  - inversion E. subst. exact Hf.
  - simpl in E. destruct (negb (cleaning_at n)).
    + inversion E. subst. exact Hf.
    + destruct (to_delete m) as [[|]|e] eqn:Em; [| |discriminate].
      * eapply IH; [|exact E]. apply record_match_Q; auto.
      * eapply IH; [|exact E]. exact Hf.
Qed.

Lemma history_loop_Q channel traverse before after messages found :
  P (history_next channel traverse before after) ->
  (all_found Q) found ->
  traces P (fun r => forall found', r = Some found' -> (all_found Q) found')
    (history_loop env channel traverse before after to_delete messages found).
Proof.
  intro Hp. revert found.
  induction messages as [|m rest IH]; intros found Hf; simpl.
  - eapply traces_bind; [apply traces_await; exact Hp | intros _ _].
    apply traces_ret. intros f E. inversion E. subst. exact Hf.
  - eapply traces_bind; [apply traces_await; exact Hp | intros _ _].
    eapply traces_bind; [apply traces_get_cleaning | intros flag _].
    destruct (negb flag).
    + apply traces_ret. discriminate.
    + eapply traces_bind with (R1 := fun b => to_delete m = Returned b).
      * apply traces_lift. auto.
      * intros [|] Em; apply IH; [apply record_match_Q; auto | exact Hf].
Qed.

Lemma channels_loop_Q traverse channels before after found :
  (forall c, P (history_next c traverse before after)) ->
  (all_found Q) found ->
  traces P (all_found Q)
    (channels_loop env traverse channels to_delete before after found).
Proof.
  intro Hp. revert found.
  induction channels as [|c rest IH]; intros found Hf; simpl.
  - apply traces_ret. exact Hf.
  - eapply traces_bind; [apply history_loop_Q; auto | intros [f|] Hr].
    + apply IH. apply Hr. reflexivity.
    + apply traces_ret. constructor.
Qed.

Lemma individually_loop_Q messages deleted :
  Forall Q messages ->
  traces P (fun _ => True) (individually_loop env messages deleted).
Proof.
  revert deleted. induction messages as [|m rest IH]; intros deleted Hm; simpl.
  - apply traces_ret. exact I.
  - inversion Hm; subst.
    eapply traces_bind; [apply traces_get_cleaning | intros flag _].
    destruct (negb flag); [apply traces_ret; exact I|].
    eapply traces_bind.
    + eapply traces_suppress. apply traces_await. auto.
    + intros r _. apply IH. assumption.
Qed.

Lemma bulk_loop_Q channel messages current_index to_delete0 deleted :
  Forall Q messages -> Forall Q to_delete0 ->
  traces P
    (fun exit => match exit with
                 | LoopReturn _ => True
                 | LoopBreak _ pending _ | LoopEnd pending _ =>
                     Forall Q pending
                 end)
    (bulk_loop env channel messages current_index to_delete0 deleted).
Proof.
  revert current_index to_delete0 deleted.
  induction messages as [|m rest IH]; intros idx pending deleted Hm Hp; simpl.
  - apply traces_ret. exact Hp.
  - inversion Hm; subst.
    eapply traces_bind; [apply traces_get_cleaning | intros flag _].
    destruct (negb flag); [apply traces_ret; exact I|].
    eapply traces_bind with (R1 := fun _ => True).
    + unfold is_older_than_14d.
      eapply traces_bind; [apply traces_time_time | intros now _].
      apply traces_ret. exact I.
    + intros old _. destruct old; [apply traces_ret; exact Hp|].
      assert (Hp' : Forall Q (pending ++ [m])%list)
        by (apply Forall_app; auto).
      destruct (_ =? 100)%nat.
      * eapply traces_bind.
        -- eapply traces_suppress. apply traces_await. auto.
        -- intros _ _. apply IH; [assumption | constructor].
      * apply IH; assumption.
Qed.

Lemma Forall_skipn_Q n (messages : list Message.t) :
  Forall Q messages -> Forall Q (skipn n messages).
Proof.
  revert n. induction messages as [|m rest IH]; intros [|n] H; simpl; auto.
  inversion H; subst. apply IH. assumption.
Qed.

Lemma delete_found_in_Q channel messages deleted :
  Forall Q messages ->
  traces P (fun _ => True) (delete_found_in env channel messages deleted).
Proof.
  intro Hm. unfold delete_found_in.
  eapply traces_bind; [apply bulk_loop_Q; [exact Hm | constructor]|].
  assert (Hflush : forall pending d,
             Forall Q pending ->
             traces P (fun _ => True)
               (if (0 <? List.length pending)%nat then
                  _ <- suppress_NotFound
                         (await env (channel_delete_messages channel pending));;
                  ret (d ++ pending)%list
                else ret d)).
  { intros pending d Hp. destruct (_ <? _)%nat.
    - eapply traces_bind.
      + eapply traces_suppress. apply traces_await. auto.
      + intros _ _. apply traces_ret. exact I.
    - apply traces_ret. exact I. }
  intros [d|idx pending d|pending d] Hexit.
  - apply traces_ret. exact I.
  - eapply traces_bind; [apply traces_get_cleaning | intros flag _].
    destruct (negb flag); [apply traces_ret; exact I|].
    eapply traces_bind; [apply Hflush; exact Hexit | intros d' _].
    eapply traces_bind; [apply traces_get_cleaning | intros flag' _].
    destruct (negb flag'); [apply traces_ret; exact I|].
    eapply traces_bind.
    + apply individually_loop_Q. apply Forall_skipn_Q. exact Hm.
    + intros old _. apply traces_ret. exact I.
  - eapply traces_bind; [apply traces_get_cleaning | intros flag _].
    destruct (negb flag); [apply traces_ret; exact I|].
    eapply traces_bind; [apply Hflush; exact Hexit | intros d' _].
    eapply traces_bind; [apply traces_get_cleaning | intros flag' _].
    destruct (negb flag'); apply traces_ret; exact I.
Qed.

Lemma delete_found_loop_Q mapping deleted :
  Forall (fun entry => Forall Q (snd entry)) mapping ->
  traces P (fun _ => True) (delete_found_loop env mapping deleted).
Proof.
  revert deleted.
  induction mapping as [|[c ms] rest IH]; intros deleted Hm; simpl.
  - apply traces_ret. exact I.
  - inversion Hm; subst.
    eapply traces_bind; [apply delete_found_in_Q; assumption|].
    intros [d|d] _; [apply traces_ret; exact I | apply IH; assumption].
Qed.

End Matched.

(** ** The limits are sorted before they are used *)

Lemma all_predicates_In predicates pred message :
  In pred predicates ->
  all_predicates predicates message = Returned true ->
  pred message = Returned true.
Proof.
  induction predicates as [|p rest IH]; intros Hin E; [contradiction|].
  simpl in E. destruct (p message) as [[|]|e] eqn:Ep; try discriminate.
  destruct Hin as [<-|Hin]; [exact Ep | apply IH; assumption].
Qed.

Lemma chosen_predicate_In predicates pred message :
  In pred predicates ->
  match predicates with
  | [] => fun _ => Returned true
  | [p] => p
  | _ => all_predicates predicates
  end message = Returned true ->
  pred message = Returned true.
Proof.
  intros Hin E. destruct predicates as [|p [|q rest]].
  - contradiction.
  - destruct Hin as [<-|[]]. exact E.
  - eapply all_predicates_In; eassumption.
Qed.

Lemma build_predicate_within bots_only users pattern lower upper message :
  _build_predicate bots_only users pattern (Some lower) (Some upper) message
    = Returned true ->
  within lower upper message.
Proof.
  intro E. unfold _build_predicate in E.
  apply (chosen_predicate_In _ (predicate_range (Some lower) upper)) in E.
  - unfold predicate_range in E. inversion E as [H].
    apply andb_true_iff in H. destruct H as [H1 H2].
    unfold within. lia.
  - do 3 (apply in_or_app; right). left. reflexivity.
Qed.

Lemma modlog_traces env P messages channels ctx :
  (forall channel content delete_after,
      P (ctx_send channel content delete_after)) ->
  (forall ms actor, P (upload_log ms actor)) ->
  (forall title text, P (send_log_message title text)) ->
  traces P (fun _ => True)
    (_modlog_cleaned_messages env messages channels ctx).
Proof.
  intros Hsend Hup Hlog. unfold _modlog_cleaned_messages.
  destruct messages.
  - eapply traces_bind; [apply traces_await, Hsend | intros _ _].
    apply traces_ret. exact I.
  - eapply traces_bind; [apply traces_await, Hup | intros _ _].
    eapply traces_bind; [apply traces_await, Hlog | intros _ _].
    apply traces_ret. exact I.
Qed.

(** With both limits given, every history request of a session carries
    the earlier of the two resolved datetimes as [after] and the later as
    [before], and every message the session deletes, the invocation apart,
    was created between them. *)
Lemma limits_reach_every_call env ctx traverse channels bots_only users
    pattern first_limit second_limit use_cache w :
  let lower := Z.min (resolve_limit first_limit) (resolve_limit second_limit) in
  let upper := Z.max (resolve_limit first_limit) (resolve_limit second_limit) in
  exists seg,
    log (snd (_clean_messages env ctx traverse channels bots_only users
                pattern (Some first_limit) (Some second_limit) use_cache w))
      = (log w ++ seg)%list /\
    Forall (fun entry => uses_limits ctx lower upper (fst entry)) seg.
Proof.
  intros lower upper.
  set (P := uses_limits ctx lower upper).
  assert (Htr : traces P (fun _ => True)
                  (_clean_messages env ctx traverse channels bots_only users
                     pattern (Some first_limit) (Some second_limit)
                     use_cache)).
  { unfold _clean_messages.
    eapply traces_bind; [apply traces_lift with (R := fun _ => True); auto|].
    intros _ _.
    eapply traces_bind; [apply traces_get_cleaning | intros flag _].
    destruct flag.
    { apply traces_await. exact I. }
    eapply traces_bind; [apply traces_set_cleaning | intros _ _].
    cbv zeta. change (standardize_limits (Some first_limit) (Some second_limit))
      with (Some lower, Some upper). cbv iota beta.
    set (predicate := _build_predicate bots_only users pattern
                        (Some lower) (Some upper)).
    assert (Hpred : forall m, predicate m = Returned true -> within lower upper m)
      by (intro m; apply build_predicate_within).
    eapply traces_bind with (R1 := fun _ => True).
    { unfold _delete_invocation. destruct (negb _).
      - eapply traces_bind; [apply traces_mod_log_ignore | intros _ _].
        eapply traces_bind.
        + eapply traces_suppress. apply traces_await. right. reflexivity.
        + intros _ _. apply traces_ret. exact I.
      - apply traces_ret. exact I. }
    intros _ _.
    eapply traces_bind with (R1 := all_found (within lower upper)).
    { unfold find_messages.
      assert (Hhist : forall l,
                 traces P (all_found (within lower upper))
                   (_get_messages_from_channels env traverse l predicate
                      (Some upper) (Some lower))).
      { intro l. apply channels_loop_Q; auto.
        - intro c. split; reflexivity.
        - constructor. }
      destruct (default_channels _ _ _ _) as [|l]; [|apply Hhist].
      destruct use_cache as [[|]|]; try apply Hhist.
      apply traces_silent; [reflexivity|].
      intros w0 found E. unfold lift, _get_messages_from_cache in E.
      simpl in E. destruct (traverse <? 0); [discriminate|].
      eapply cache_loop_Q; [exact Hpred | | exact E]. constructor. }
    intros found Hfound.
    eapply traces_bind; [apply traces_get_cleaning | intros flag _].
    destruct (negb flag); [apply traces_ret; exact I|].
    eapply traces_bind; [apply traces_mod_log_ignore | intros _ _].
    eapply traces_bind with (R1 := fun _ => True).
    { unfold _delete_found.
      refine (delete_found_loop_Q env P (within lower upper) _ _
                (fst found) [] Hfound).
      - intros c ms Hms. exact Hms.
      - intros m Hm. left. exact Hm. }
    intros deleted _.
    eapply traces_bind; [apply traces_set_cleaning | intros _ _].
    eapply traces_bind.
    { apply modlog_traces; intros; exact I. }
    intros logged _. destruct (logged && _).
    - eapply traces_bind.
      + eapply traces_suppress. apply traces_await. exact I.
      + intros _ _. apply traces_ret. exact I.
    - apply traces_ret. exact I. }
  destruct (Htr w) as (seg & Hlog & HP & _).
  exists seg. split; assumption.
Qed.

(** ** Cache or history *)


(** ** Cancellation while the messages are looked up *)


Section HistoryScan.

Variable env : Env.
Variable traverse : Z.
Variables before after : option datetime.
Variable to_delete : Predicate.

Hypothesis to_delete_total : forall m, exists b, to_delete m = Returned b.







End HistoryScan.






(** ** The text a pattern is searched in *)

Local Open Scope string_scope.

Lemma before_closing_backtick_spec s : forall body,
  before_closing_backtick s = Some body <->
  s = body ++ "`" /\ has_newline body = false.
Proof.
  induction s as [|c rest IH]; intro body.
  - split; [discriminate|]. intros [E _]. destruct body; discriminate.
  - cbn [before_closing_backtick]. destruct rest as [|c' rest'].
    + destruct (Ascii.eqb c "`") eqn:Ec.
      * apply Ascii.eqb_eq in Ec. subst c. split.
        -- intro E. inversion E. auto.
        -- intros [E _]. destruct body as [|b body']; [reflexivity|].
           inversion E. destruct body'; discriminate.
      * split; [discriminate|]. intros [E _].
        destruct body as [|b body'].
        -- inversion E. subst c. discriminate.
        -- inversion E. destruct body'; discriminate.
    + destruct (Ascii.eqb c "010") eqn:En.
      * split; [discriminate|]. intros [E Hn].
        destruct body as [|b body']; [inversion E|].
        inversion E. subst b. cbn [has_newline] in Hn.
        rewrite En in Hn. discriminate.
      * split.
        -- intro E.
           destruct (before_closing_backtick (String c' rest')) as [b|] eqn:Eb;
             [|discriminate].
           inversion E. subst body.
           destruct (proj1 (IH b) eq_refl) as [Es Hn].
           split; [cbn [append]; rewrite <- Es; reflexivity|].
           cbn [has_newline]. rewrite En. exact Hn.
        -- intros [E Hn]. destruct body as [|b body']; [inversion E|].
           inversion E. subst b.
           assert (Eb : before_closing_backtick (String c' rest') = Some body').
           { apply IH. split; [assumption|].
             cbn [has_newline] in Hn. rewrite En in Hn. exact Hn. }
           rewrite Eb. reflexivity.
Qed.

(** [between_backticks] is the full match of [`(.+?)`]: the argument is a
    text that is not empty and holds no newline, between two backticks. *)
Lemma between_backticks_spec argument text :
  between_backticks argument = Some text <->
  argument = "`" ++ text ++ "`" /\ text <> "" /\ has_newline text = false.
Proof.
  unfold between_backticks. split.
  - destruct argument as [|c rest]; [discriminate|].
    destruct (Ascii.eqb c "`") eqn:Ec.
    + apply Ascii.eqb_eq in Ec. subst c.
      destruct (before_closing_backtick rest) as [[|b body]|] eqn:Eb;
        try discriminate.
      intro E. inversion E. subst text.
      apply before_closing_backtick_spec in Eb. destruct Eb as [Es Hn].
      subst rest. split; [reflexivity|]. split; [discriminate | exact Hn].
    + intro E. exfalso. apply Ascii.eqb_neq in Ec.
      destruct c as [[] [] [] [] [] [] [] []]; try discriminate.
      apply Ec. reflexivity.
  - intros (E & Hne & Hn). subst argument. cbn [append].
    assert (Eb : before_closing_backtick (text ++ "`") = Some text)
      by (apply before_closing_backtick_spec; auto).
    rewrite Eb. destruct text; [contradiction | reflexivity].
Qed.

Lemma fold_append_field (fields : list EmbedField.t) : forall content,
  fold_left append_field fields content
  = (content
     ++ flat_map (fun field => [Some (EmbedField.name field);
                                Some (EmbedField.value field)]) fields)%list.
Proof.
  induction fields as [|field rest IH]; intro content; cbn [fold_left flat_map].
  - rewrite app_nil_r. reflexivity.
  - rewrite IH. unfold append_field. rewrite <- !app_assoc. reflexivity.
Qed.

Lemma fold_append_embed (embeds : list Embed.t) : forall content,
  fold_left append_embed embeds content
  = (content ++ flat_map entries_of_embed embeds)%list.
Proof.
  induction embeds as [|embed rest IH]; intro content;
    cbn [fold_left flat_map].
  - rewrite app_nil_r. reflexivity.
  - rewrite IH. unfold append_embed, entries_of_embed.
    rewrite fold_append_field, <- !app_assoc. reflexivity.
Qed.

Lemma truthy_attrs_are_the_non_empty_entries (entries : list (option string)) :
  flat_map truthy_attr entries = non_empty_entries entries.
Proof.
  induction entries as [|[[|c s]|] rest IH]; cbn; rewrite ?IH; reflexivity.
Qed.

(** The list the predicate builds by appending, embed after embed and
    field after field, holds the entries in the order they are named. *)
Lemma searchable_text_spec (message : Message.t) :
  searchable_text message
  = String.concat newline (non_empty_entries (searched_entries message)).
Proof.
  unfold searchable_text, content_attributes, searched_entries.
  rewrite fold_append_embed, truthy_attrs_are_the_non_empty_entries.
  reflexivity.
Qed.

(** C9.  The predicate built for a pattern alone answers what the
    [search] method of the pattern answers (a search in the text, not a
    full match) on the newline-join of the entries that are set and not
    empty among the message content and, embed after embed, the title,
    description, footer text, author name and every field's name and
    value.  A pattern that comes from [Regex.convert] was compiled from
    the text between the backticks with the flags [re.IGNORECASE] and
    [re.DOTALL], so its search is case-insensitive.  A message with an
    empty content whose only text is an embed field of value ["42"] is
    accepted whenever the pattern is found in ["42"], as [[0-9]+] is. *)
Theorem predicate_regex_searches (pattern : Pattern) (message : Message.t) :
  _build_predicate false None (Some pattern) None None message
    = Returned
        (search pattern
           (String.concat newline
              (non_empty_entries (searched_entries message)))) /\
  (forall re_compile argument,
      Regex_convert re_compile argument = Returned pattern ->
      exists text,
        argument = "`" ++ text ++ "`" /\
        re_compile text (re_IGNORECASE + re_DOTALL) = inr pattern) /\
  (search pattern "42" = true ->
   _build_predicate false None (Some pattern) None None
     (a_message_with_field "42") = Returned true).
Proof.
  split; [|split].
  - cbn [_build_predicate app]. unfold predicate_regex.
    rewrite searchable_text_spec. reflexivity.
  - intros re_compile argument. unfold Regex_convert.
    destruct (between_backticks argument) as [text|] eqn:Eb; [|discriminate].
    apply between_backticks_spec in Eb. destruct Eb as (Ea & _ & _).
    destruct (re_compile text (re_IGNORECASE + re_DOTALL)) as [msg|p] eqn:Ec;
      [discriminate|].
    intro E. inversion E. subst p. exists text. auto.
  - intro H. cbn [_build_predicate app]. unfold predicate_regex.
    change (searchable_text (a_message_with_field "42")) with "42".
    rewrite H. reflexivity.
Qed.

Lemma predicate_regex_searches_witness :
  (exists text,
      "`[0-9]+`" = "`" ++ text ++ "`" /\
      compile_digits text (re_IGNORECASE + re_DOTALL) = inr digits) /\
  _build_predicate false None (Some digits) None None
    (a_message_with_field "42") = Returned true.
Proof.
  split.
  - apply (proj1 (proj2 (predicate_regex_searches digits
                           (a_message_with_field "42")))).
    reflexivity.
  - apply (proj2 (proj2 (predicate_regex_searches digits
                           (a_message_with_field "42")))).
    reflexivity.
Defined.

(** A search is not a full match. *)
Example search_inside_the_text :
  search digits "issue 42, again" = true /\
  fullmatch digits "issue 42, again" = false /\
  _build_predicate false None (Some digits) None None
    {| Message.id := 1; Message.author := a_user;
       Message.channel := a_channel; Message.created_at := 0;
       Message.content := "issue 42, again"; Message.embeds := [] |}
  = Returned true.
Proof. repeat split. Qed.

Local Close Scope string_scope.

(** ** Batches of a hundred *)

Local Open Scope nat_scope.

Lemma batches_concat messages : forall pending,
  (List.concat (fst (batches pending messages))
   ++ snd (batches pending messages)
   = pending ++ messages)%list.
Proof.
  induction messages as [|m rest IH]; intro pending; cbn [batches].
  - cbn [fst snd List.concat]. rewrite app_nil_r. reflexivity.
  - destruct (List.length (pending ++ [m]) =? 100); cbn [fst snd List.concat].
    + rewrite <- app_assoc, IH. cbn [app]. rewrite <- app_assoc. reflexivity.
    + rewrite IH, <- app_assoc. reflexivity.
Qed.

Lemma concat_full_length (l : list (list Message.t)) :
  Forall (fun batch => List.length batch = 100) l ->
  List.length (List.concat l) = List.length l * 100.
Proof.
  induction 1 as [|b bs Hb _ IH]; [reflexivity|].
  cbn [List.concat List.length]. rewrite length_app, IH, Hb. lia.
Qed.

Lemma batches_sizes messages : forall pending,
  List.length pending < 100 ->
  Forall (fun batch => List.length batch = 100)
    (fst (batches pending messages)) /\
  List.length (snd (batches pending messages)) < 100.
Proof.
  induction messages as [|m rest IH]; intros pending Hp; cbn [batches].
  - split; [constructor | exact Hp].
  - destruct (List.length (pending ++ [m]) =? 100) eqn:E; cbn [fst snd].
    + apply Nat.eqb_eq in E.
      destruct (IH [] ltac:(cbn; lia)) as (Hall & Hrest).
      split; [constructor; assumption | exact Hrest].
    + apply Nat.eqb_neq in E. rewrite length_app in E. cbn in E.
      apply IH. rewrite length_app. cbn. lia.
Qed.

(** The chunks make up the list, each holds between 1 and 100 messages,
    and there are [ceil (N / 100)] of them. *)
Lemma chunks_spec messages :
  List.concat (chunks messages) = messages /\
  Forall (fun batch => 0 < List.length batch <= 100) (chunks messages) /\
  List.length (chunks messages) = (List.length messages + 99) / 100.
Proof.
  unfold chunks.
  pose proof (batches_concat messages []) as Hc.
  destruct (batches_sizes messages [] ltac:(cbn; lia)) as (Hall & Hrest).
  pose proof (concat_full_length _ Hall) as Hlen.
  cbn [app] in Hc.
  assert (Hfull : Forall (fun batch => 0 < List.length batch <= 100)
                    (fst (batches [] messages))).
  { eapply Forall_impl; [|exact Hall]. cbn beta. intros b Hb. lia. }
  set (full := fst (batches [] messages)) in *.
  destruct (snd (batches [] messages)) as [|m ms].
  - rewrite app_nil_r in *. split; [exact Hc|]. split; [exact Hfull|].
    rewrite <- Hc, Hlen.
    apply Nat.div_unique with (r := 99); lia.
  - split; [rewrite concat_app; cbn [List.concat]; rewrite app_nil_r; exact Hc|].
    split.
    + apply Forall_app. split; [exact Hfull|].
      constructor; [cbn [List.length] in *; lia | constructor].
    + rewrite length_app. cbn [List.length] in *.
      rewrite <- Hc, length_app, Hlen. cbn [List.length].
      apply Nat.div_unique with (r := List.length ms); lia.
Qed.

Local Close Scope nat_scope.

(** ** The deleter in a quiet environment *)

Lemma quiet_from_later env start later :
  (start <= later)%nat -> quiet_from env start -> quiet_from env later.
Proof. intros Hle Hq n Hn. apply Hq. lia. Qed.

Lemma quiet_await env call w :
  quiet_from env (List.length (log w)) ->
  suppress_NotFound (await env call) w
  = (Returned match outcome (reply env (List.length (log w))) with
              | Done => Some tt
              | _ => None
              end,
     after_await env call w) /\
  cleaning (after_await env call w) = cleaning w /\
  quiet_from env (List.length (log (after_await env call w))).
Proof.
  intro Hq. destruct (Hq _ (le_n _)) as [Hs Hf].
  split; [|split].
  - unfold suppress_NotFound, await, after_await.
    destruct (outcome _); [reflexivity | reflexivity | contradiction].
  - unfold after_await. cbn [cleaning]. rewrite Hs. apply andb_true_r.
  - eapply quiet_from_later; [|exact Hq].
    unfold after_await. cbn [log]. rewrite length_app. lia.
Qed.

Lemma answered_app env calls1 : forall start calls2,
  answered env start (calls1 ++ calls2)
  = (answered env start calls1
     ++ answered env (start + List.length calls1) calls2)%list.
Proof.
  induction calls1 as [|c rest IH]; intros start calls2; cbn [answered app].
  - rewrite Nat.add_0_r. reflexivity.
  - rewrite IH. cbn [List.length].
    replace (S start + List.length rest)%nat
      with (start + S (List.length rest))%nat by lia.
    reflexivity.
Qed.

Lemma answered_length env calls : forall start,
  List.length (answered env start calls) = List.length calls.
Proof.
  induction calls as [|c rest IH]; intro start; cbn [answered List.length];
    [|rewrite IH]; reflexivity.
Qed.

(** The inner loop over messages that pass the age test: it flushes the
    batches and goes on with the rest. *)
Lemma bulk_loop_eligible env channel eligible :
  forall rest current_index pending deleted w,
    cleaning w = true ->
    quiet_from env (List.length (log w)) ->
    all_eligible_from env (ticks w) eligible = true ->
    exists w',
      bulk_loop env channel (eligible ++ rest) current_index pending deleted w
      = bulk_loop env channel rest (current_index + List.length eligible)
          (snd (batches pending eligible))
          (deleted ++ List.concat (fst (batches pending eligible))) w' /\
      cleaning w' = true /\
      ticks w' = (ticks w + List.length eligible)%nat /\
      ignored w' = ignored w /\
      log w'
      = (log w
         ++ answered env (List.length (log w))
              (map (channel_delete_messages channel)
                 (fst (batches pending eligible))))%list.
Proof.
  induction eligible as [|m more IH];
    intros rest idx pending deleted w Hflag Hq He.
  - exists w. cbn [batches fst snd List.concat app List.length map answered].
    rewrite Nat.add_0_r, !app_nil_r. auto.
  - cbn [all_eligible_from] in He. apply andb_true_iff in He.
    destruct He as [Hm He]. apply negb_true_iff in Hm.
    cbn [app bulk_loop batches].
    unfold bind at 1. unfold get_cleaning at 1. rewrite Hflag.
    cbn [negb]. unfold bind at 1. unfold is_older_than_14d at 1.
    unfold bind at 1. unfold time_time at 1. unfold ret at 1. rewrite Hm.
    set (w1 := {| cleaning := cleaning w; ticks := S (ticks w);
                  log := log w; ignored := ignored w |}).
    destruct (List.length (pending ++ [m]) =? 100)%nat.
    + destruct (quiet_await env
                  (channel_delete_messages channel (pending ++ [m])) w1 Hq)
        as (Hrun & Hflag2 & Hq2).
      unfold bind at 1. rewrite Hrun.
      destruct (IH rest (S idx) [] (deleted ++ (pending ++ [m]))%list
                  (after_await env
                     (channel_delete_messages channel (pending ++ [m])) w1))
        as (w' & Hgo & Hf' & Ht' & Hi' & Hl'); auto.
      { rewrite Hflag2. exact Hflag. }
      exists w'. cbn [fst snd List.concat map answered List.length].
      rewrite Hgo, Hf', Ht', Hi', Hl'.
      rewrite <- !app_assoc.
      replace (S idx + List.length more)%nat
        with (idx + S (List.length more))%nat by lia.
      split; [reflexivity|]. split; [reflexivity|].
      split; [cbn; lia|]. split; [reflexivity|].
      unfold after_await, w1. cbn [log]. rewrite <- app_assoc, length_app.
      cbn [app List.length].
      replace (List.length (log w) + 1)%nat with (S (List.length (log w)))
        by lia.
      reflexivity.
    + destruct (IH rest (S idx) (pending ++ [m])%list deleted w1)
        as (w' & Hgo & Hf' & Ht' & Hi' & Hl'); auto.
      exists w'. rewrite Hgo, Hf', Ht', Hi', Hl'.
      replace (S idx + List.length more)%nat
        with (idx + S (List.length more))%nat by lia.
      split; [reflexivity|]. split; [reflexivity|].
      split; [cbn; lia|]. split; reflexivity.
Qed.

Lemma after_await_length env call w :
  List.length (log (after_await env call w)) = S (List.length (log w)).
Proof. unfold after_await. cbn [log]. rewrite length_app. cbn. lia. Qed.

Lemma reported_cons entry entries :
  reported (entry :: entries) = (reported_by entry ++ reported entries)%list.
Proof. reflexivity. Qed.

Lemma reported_app entries1 entries2 :
  reported (entries1 ++ entries2)
  = (reported entries1 ++ reported entries2)%list.
Proof. apply flat_map_app. Qed.

(** The individual deletions: one call per message. *)
Lemma individually_loop_quiet env messages : forall deleted w,
  cleaning w = true ->
  quiet_from env (List.length (log w)) ->
  exists w',
    individually_loop env messages deleted w
    = (Returned
         (deleted
          ++ reported (answered env (List.length (log w))
                         (map message_delete messages)))%list,
       w') /\
    cleaning w' = true /\
    log w'
    = (log w
       ++ answered env (List.length (log w)) (map message_delete messages))%list.
Proof.
  induction messages as [|m rest IH]; intros deleted w Hflag Hq.
  - exists w. cbn. rewrite !app_nil_r. auto.
  - cbn [individually_loop].
    unfold bind at 1. unfold get_cleaning at 1. rewrite Hflag. cbn [negb].
    destruct (quiet_await env (message_delete m) w Hq)
      as (Hrun & Hflag2 & Hq2).
    unfold bind at 1. rewrite Hrun.
    match goal with
    | |- context [individually_loop env rest ?d ?w1] =>
        destruct (IH d w1) as (w' & Hgo & Hf' & Hl'); auto
    end.
    { rewrite Hflag2. exact Hflag. }
    exists w'. rewrite Hgo, Hf', Hl', after_await_length.
    cbn [map answered]. rewrite reported_cons.
    split; [|split; [reflexivity|]].
    + unfold reported_by. cbn [fst snd].
      destruct (outcome _); rewrite <- ?app_assoc; reflexivity.
    + unfold after_await. cbn [log]. rewrite <- app_assoc. reflexivity.
Qed.

(** The flush of what is left pending after the inner loop. *)
Lemma flush_quiet env channel pending deleted w :
  quiet_from env (List.length (log w)) ->
  exists w',
    (if (0 <? List.length pending)%nat then
       _ <- suppress_NotFound
              (await env (channel_delete_messages channel pending));;
       ret (deleted ++ pending)%list
     else ret deleted) w
    = (Returned (deleted ++ pending)%list, w') /\
    cleaning w' = cleaning w /\
    quiet_from env (List.length (log w')) /\
    log w'
    = (log w
       ++ answered env (List.length (log w))
            (map (channel_delete_messages channel)
               match pending with
               | [] => []
               | m :: ms => [m :: ms]
               end))%list.
Proof.
  intro Hq. destruct pending as [|m ms].
  - exists w. cbn. rewrite !app_nil_r. auto.
  - cbn [List.length Nat.ltb Nat.leb].
    destruct (quiet_await env (channel_delete_messages channel (m :: ms)) w Hq)
      as (Hrun & Hflag & Hq').
    unfold bind. rewrite Hrun. eexists. split; [reflexivity|].
    split; [exact Hflag|]. split; [exact Hq'|]. reflexivity.
Qed.

Lemma skipn_app_length {A : Type} (l1 l2 : list A) :
  skipn (List.length l1) (l1 ++ l2) = l2.
Proof. induction l1 as [|x l1 IH]; cbn; auto. Qed.

(** The body of the outer loop in a quiet environment: bulk deletions of
    the messages before the cut, individual deletions from the cut on. *)
Lemma delete_found_in_quiet env channel eligible old deleted w :
  cleaning w = true ->
  quiet_from env (List.length (log w)) ->
  all_eligible_from env (ticks w) eligible = true ->
  cut_is_old env (ticks w + List.length eligible) old = true ->
  exists w',
    delete_found_in env channel (eligible ++ old) deleted w
      = (Returned
           (inr (deleted ++ eligible
                 ++ reported
                      (answered env
                         (List.length (log w)
                          + List.length (chunks eligible))
                         (map message_delete old)))%list),
         w') /\
    log w'
    = (log w
       ++ answered env (List.length (log w))
            (map (channel_delete_messages channel) (chunks eligible)
             ++ map message_delete old))%list /\
    List.concat (chunks eligible) = eligible /\
    Forall (fun batch => (0 < List.length batch <= 100)%nat)
      (chunks eligible) /\
    cleaning w' = true.
Proof.
  intros Hflag Hq He Hcut.
  destruct (chunks_spec eligible) as (Hconcat & Hsizes & _).
  destruct (bulk_loop_eligible env channel eligible old 0%nat [] deleted w
              Hflag Hq He)
    as (w1 & Hgo & Hflag1 & Hticks1 & _ & Hlog1).
  assert (Hq1 : quiet_from env (List.length (log w1))).
  { eapply quiet_from_later; [|exact Hq]. rewrite Hlog1, length_app. lia. }
  set (full := fst (batches [] eligible)) in *.
  set (pending := snd (batches [] eligible)) in *.
  set (deleted1 := (deleted ++ List.concat full)%list) in *.
  assert (Hchunks : chunks eligible
                    = (full ++ match pending with
                               | [] => []
                               | m :: ms => [m :: ms]
                               end)%list) by reflexivity.
  assert (Hlogs : forall w2 calls,
             log w2
             = (log w1
                ++ answered env (List.length (log w1))
                     (map (channel_delete_messages channel)
                        match pending with
                        | [] => []
                        | m :: ms => [m :: ms]
                        end)
                ++ calls)%list ->
             log w2
             = (log w
                ++ answered env (List.length (log w))
                     (map (channel_delete_messages channel) (chunks eligible))
                ++ calls)%list).
  { intros w2 calls E. rewrite E, Hlog1, Hchunks, map_app, answered_app.
    rewrite length_app, answered_length, !length_map, <- !app_assoc.
    reflexivity. }
  assert (Hdel : (deleted1 ++ pending)%list = (deleted ++ eligible)%list).
  { unfold deleted1. rewrite <- app_assoc. f_equal.
    exact (batches_concat eligible []). }
  unfold delete_found_in. unfold bind at 1. rewrite Hgo.
  destruct old as [|cut rest].
  - cbn [bulk_loop]. unfold ret at 1.
    unfold bind at 1. unfold get_cleaning at 1. rewrite Hflag1. cbn [negb].
    destruct (flush_quiet env channel pending deleted1 w1 Hq1)
      as (w2 & Hflush & Hflag2 & Hq2 & Hlog2).
    unfold bind at 1. rewrite Hflush.
    unfold bind at 1. unfold get_cleaning at 1.
    rewrite Hflag2, Hflag1. cbn [negb]. unfold ret.
    exists w2. split.
    { rewrite Hdel. cbn [map answered reported flat_map].
      rewrite app_nil_r. reflexivity. }
    split; [|split; [exact Hconcat | split; [exact Hsizes | congruence]]].
    cbn [map]. rewrite !app_nil_r.
    rewrite <- (app_nil_r (answered _ _ _)). apply Hlogs.
    rewrite app_nil_r. exact Hlog2.
  - cbn [cut_is_old] in Hcut. cbn [bulk_loop].
    unfold bind at 1. unfold get_cleaning at 1. rewrite Hflag1. cbn [negb].
    unfold bind at 1. unfold is_older_than_14d at 1.
    unfold bind at 1. unfold time_time at 1. unfold ret at 1.
    rewrite Hticks1, Hcut. unfold ret at 1.
    unfold bind at 1. unfold get_cleaning at 1. cbn [cleaning].
    rewrite Hflag1. cbn [negb].
    match goal with
    | |- context [bind _ _ ?w0] => set (w1' := w0)
    end.
    destruct (flush_quiet env channel pending deleted1 w1' Hq1)
      as (w2 & Hflush & Hflag2 & Hq2 & Hlog2).
    unfold bind at 1. rewrite Hflush.
    unfold bind at 1. unfold get_cleaning at 1.
    rewrite Hflag2. unfold w1' at 1. cbn [cleaning].
    cbn [negb].
    rewrite Nat.add_0_l, skipn_app_length.
    unfold _delete_messages_individually.
    assert (Hflag2' : cleaning w2 = true).
    { rewrite Hflag2. unfold w1'. cbn [cleaning]. reflexivity. }
    destruct (individually_loop_quiet env (cut :: rest) [] w2 Hflag2' Hq2)
      as (w3 & Hind & Hflag3 & Hlog3).
    unfold bind at 1. rewrite Hind. unfold ret.
    assert (Hlog2' := Hlogs w2 [] ltac:(rewrite app_nil_r; exact Hlog2)).
    rewrite app_nil_r in Hlog2'.
    assert (Hlen2 : List.length (log w2)
                    = (List.length (log w) + List.length (chunks eligible))%nat).
    { rewrite Hlog2', length_app, answered_length, length_map. reflexivity. }
    exists w3. split.
    { rewrite Hdel, Hlen2, <- app_assoc. reflexivity. }
    split; [|split; [exact Hconcat | split; [exact Hsizes | exact Hflag3]]].
    rewrite answered_app, app_assoc.
    rewrite Hlog3, Hlen2, length_map.
    rewrite Hlog2'. reflexivity.
Qed.


(** ** The deleter in any environment *)

Lemma subseq_nil_l {A : Type} (l : list A) : subseq [] l.
Proof. induction l as [|x l IH]; [apply subseq_nil | apply subseq_skip, IH]. Qed.

Lemma subseq_refl {A : Type} (l : list A) : subseq l l.
Proof. induction l as [|x l IH]; [apply subseq_nil | apply subseq_keep, IH]. Qed.

Lemma subseq_app {A : Type} (l1 l2 l3 l4 : list A) :
  subseq l1 l2 -> subseq l3 l4 -> subseq (l1 ++ l3) (l2 ++ l4).
Proof.
  intros H12 H34. induction H12 as [|x l1 l2 _ IH|x l1 l2 _ IH]; cbn [app].
  - exact H34.
  - apply subseq_skip, IH.
  - apply subseq_keep, IH.
Qed.

Lemma subseq_prefix {A : Type} (l rest : list A) : subseq l (l ++ rest).
Proof.
  rewrite <- (app_nil_r l) at 1.
  apply subseq_app; [apply subseq_refl | apply subseq_nil_l].
Qed.

Lemma no_stop_app seg1 seg2 :
  no_stop (seg1 ++ seg2) = no_stop seg1 && no_stop seg2.
Proof. apply forallb_app. Qed.

Lemma no_failure_app seg1 seg2 :
  no_failure (seg1 ++ seg2) = no_failure seg1 && no_failure seg2.
Proof. apply forallb_app. Qed.

Lemma guarded_app seg1 : forall flag seg2,
  guarded flag (seg1 ++ seg2)
  = guarded flag seg1 && guarded (flag && no_stop seg1) seg2.
Proof.
  induction seg1 as [|e rest IH]; intros flag seg2.
  - cbn. rewrite andb_true_r. reflexivity.
  - cbn [app guarded no_stop forallb]. rewrite IH.
    destruct flag; reflexivity.
Qed.

Lemma guarded_down seg : guarded false seg = true -> seg = [].
Proof. destruct seg; [reflexivity | discriminate]. Qed.

Lemma guarded_after_stop flag earlier entry later :
  guarded flag (earlier ++ entry :: later) = true ->
  stop (snd entry) = true -> later = [].
Proof.
  intros Hg Hs. rewrite guarded_app in Hg.
  apply andb_true_iff in Hg. destruct Hg as [_ Hg].
  cbn [guarded] in Hg. apply andb_true_iff in Hg. destruct Hg as [_ Hg].
  rewrite Hs in Hg. apply guarded_down. exact Hg.
Qed.

Lemma extends_refl w : extends w [] w.
Proof.
  unfold extends. cbn. rewrite app_nil_r, andb_true_r. auto.
Qed.

Lemma extends_trans w seg1 w1 seg2 w2 :
  extends w seg1 w1 -> extends w1 seg2 w2 -> extends w (seg1 ++ seg2) w2.
Proof.
  intros (Hl1 & Hc1 & Hg1) (Hl2 & Hc2 & Hg2). unfold extends.
  rewrite Hl2, Hl1, Hc2, Hc1, no_stop_app, guarded_app, Hg1, <- Hc1.
  rewrite app_assoc, andb_assoc. rewrite Hc1 at 2. rewrite <- Hc1. auto.
Qed.

Lemma deleter_post_ret {A : Type} (a : A) w
    (post : list (Call * Reply) -> A -> Prop) :
  post [] a -> deleter_post w (ret a w) post.
Proof.
  intro H. exists []. split; [apply extends_refl|]. cbn. auto.
Qed.

Lemma deleter_post_bind {A B : Type} (m : M A) (k : A -> M B) w
    (post1 : list (Call * Reply) -> A -> Prop)
    (post : list (Call * Reply) -> B -> Prop) :
  deleter_post w (m w) post1 ->
  (forall seg1 a w1,
      m w = (Returned a, w1) -> extends w seg1 w1 -> post1 seg1 a ->
      deleter_post w1 (k a w1) (fun seg2 b => post (seg1 ++ seg2)%list b)) ->
  deleter_post w (bind m k w) post.
Proof.
  intros (seg1 & Hext1 & Hres1) Hk. unfold bind.
  destruct (m w) as [[a|e] w1] eqn:Em; cbn [fst snd] in *.
  - destruct Hres1 as [Hnf1 Hp1].
    destruct (Hk seg1 a w1 eq_refl Hext1 Hp1) as (seg2 & Hext2 & Hres2).
    exists (seg1 ++ seg2)%list.
    split; [eapply extends_trans; eassumption|].
    rewrite no_failure_app, Hnf1. cbn [andb].
    destruct (fst (k a w1)); exact Hres2.
  - exists seg1. split; assumption.
Qed.

Lemma deleter_post_weaken {A : Type} w (run : Result A * World)
    (post post' : list (Call * Reply) -> A -> Prop) :
  deleter_post w run post ->
  (forall seg a, post seg a -> post' seg a) ->
  deleter_post w run post'.
Proof.
  intros (seg & Hext & Hres) Himp. exists seg. split; [exact Hext|].
  destruct (fst run); [destruct Hres; auto | exact Hres].
Qed.

(** A call awaited while the flag is set. *)
Lemma deleter_post_await env call w :
  cleaning w = true ->
  deleter_post w (suppress_NotFound (await env call) w)
    (fun seg r =>
       seg = [(call, reply env (List.length (log w)))] /\
       r = match outcome (reply env (List.length (log w))) with
           | Done => Some tt
           | _ => None
           end).
Proof.
  intro Hflag. exists [(call, reply env (List.length (log w)))].
  unfold suppress_NotFound, await, extends. cbn [fst snd log cleaning].
  unfold no_stop, no_failure, failed. cbn [forallb guarded snd].
  rewrite Hflag.
  destruct (outcome (reply env (List.length (log w)))); cbn;
    rewrite ?andb_true_r; auto.
Qed.

Lemma deleter_post_get {B : Type} (k : bool -> M B) w
    (post : list (Call * Reply) -> B -> Prop) :
  deleter_post w (k (cleaning w) w) post ->
  deleter_post w (bind get_cleaning k w) post.
Proof. intro H. exact H. Qed.

Lemma deleter_post_same_start {A : Type} w0 w (run : Result A * World)
    (post : list (Call * Reply) -> A -> Prop) :
  log w0 = log w -> cleaning w0 = cleaning w ->
  deleter_post w0 run post -> deleter_post w run post.
Proof.
  intros Hl Hc (seg & Hext & Hres). exists seg. split; [|exact Hres].
  unfold extends in *. rewrite <- Hl, <- Hc. exact Hext.
Qed.

Lemma individually_loop_post env messages : forall deleted w,
  deleter_post w (individually_loop env messages deleted w)
    (fun seg d =>
       d = (deleted ++ reported seg)%list /\ subseq (reported seg) messages).
Proof.
  induction messages as [|m rest IH]; intros deleted w.
  - cbn [individually_loop]. apply deleter_post_ret.
    split; [cbn; rewrite app_nil_r; reflexivity | apply subseq_nil].
  - cbn [individually_loop]. apply deleter_post_get.
    destruct (cleaning w) eqn:Hflag; cbn [negb].
    + eapply deleter_post_bind; [apply deleter_post_await; exact Hflag|].
      intros seg1 r w1 _ _ [-> ->].
      eapply deleter_post_weaken; [apply IH|].
      intros seg2 d [Hd Hsub]. cbn [app]. rewrite reported_cons.
      unfold reported_by. cbn [fst snd].
      destruct (outcome _); cbn [app]; rewrite Hd, <- ?app_assoc;
        (split; [reflexivity|]);
        first [apply subseq_keep | apply subseq_skip]; exact Hsub.
    + apply deleter_post_ret.
      split; [cbn; rewrite app_nil_r; reflexivity | apply subseq_nil_l].
Qed.

Lemma bulk_loop_post env channel messages :
  forall current_index pending deleted w,
    deleter_post w
      (bulk_loop env channel messages current_index pending deleted w)
      (bulk_loop_post_of messages current_index pending deleted).
Proof.
  induction messages as [|m rest IH]; intros idx pending deleted w.
  - cbn [bulk_loop]. apply deleter_post_ret.
    cbn. rewrite !app_nil_r. auto.
  - cbn [bulk_loop]. apply deleter_post_get.
    destruct (cleaning w) eqn:Hflag; cbn [negb].
    2:{ apply deleter_post_ret. cbn. rewrite app_nil_r.
        split; [reflexivity | eexists; reflexivity]. }
    unfold bind at 1. unfold is_older_than_14d at 1.
    unfold bind at 1. unfold time_time at 1. unfold ret at 1.
    match goal with
    | |- deleter_post _ (_ ?w') _ =>
        apply (deleter_post_same_start w' w); [reflexivity | reflexivity |];
        set (w0 := w')
    end.
    assert (Hflag0 : cleaning w0 = true) by exact Hflag.
    clearbody w0.
    destruct (is_older_than_14d_at _ m).
    { apply deleter_post_ret. cbn. rewrite app_nil_r, Nat.sub_diag.
      auto. }
    destruct (List.length (pending ++ [m]) =? 100)%nat.
    + eapply deleter_post_bind; [apply deleter_post_await; exact Hflag0|].
      intros seg1 r w1 _ _ [-> _].
      eapply deleter_post_weaken; [apply IH|].
      intros seg2 exit Hexit. unfold bulk_loop_post_of in *.
      cbn [app] in *. rewrite reported_cons. unfold reported_by.
      cbn [fst snd].
      destruct exit as [d|i td d|td d].
      * destruct Hexit as [Hd [rest' Hrest]].
        split; [rewrite Hd, <- !app_assoc; reflexivity|].
        exists rest'. rewrite Hrest, <- !app_assoc. reflexivity.
      * destruct Hexit as (Hd & Hi & Hrest).
        split; [rewrite Hd, <- !app_assoc; reflexivity|]. split; [lia|].
        replace (i - idx)%nat with (S (i - S idx)) by lia.
        cbn [skipn]. rewrite Hrest at 1. rewrite <- !app_assoc. reflexivity.
      * destruct Hexit as [Hd Hrest].
        split; [rewrite Hd, <- !app_assoc; reflexivity|].
        rewrite Hrest, <- !app_assoc. reflexivity.
    + eapply deleter_post_weaken; [apply IH|].
      intros seg2 exit Hexit. unfold bulk_loop_post_of in *.
      destruct exit as [d|i td d|td d].
      * destruct Hexit as [Hd [rest' Hrest]].
        split; [exact Hd|]. exists rest'.
        rewrite <- Hrest, <- app_assoc. reflexivity.
      * destruct Hexit as (Hd & Hi & Hrest).
        split; [exact Hd|]. split; [lia|].
        replace (i - idx)%nat with (S (i - S idx)) by lia.
        cbn [skipn]. rewrite <- Hrest, <- app_assoc. reflexivity.
      * destruct Hexit as [Hd Hrest].
        split; [exact Hd|]. rewrite <- Hrest, <- app_assoc. reflexivity.
Qed.

Lemma flush_post env channel pending deleted w :
  cleaning w = true ->
  deleter_post w
    ((if (0 <? List.length pending)%nat then
        _ <- suppress_NotFound
               (await env (channel_delete_messages channel pending));;
        ret (deleted ++ pending)%list
      else ret deleted) w)
    (fun seg d => d = (deleted ++ pending)%list /\ reported seg = pending).
Proof.
  intro Hflag. destruct pending as [|m ms].
  - cbn [List.length Nat.ltb Nat.leb]. apply deleter_post_ret.
    rewrite app_nil_r. auto.
  - cbn [List.length Nat.ltb Nat.leb].
    eapply deleter_post_bind; [apply deleter_post_await; exact Hflag|].
    intros seg1 r w1 _ _ [-> _]. apply deleter_post_ret.
    split; [reflexivity|]. cbn. rewrite app_nil_r. reflexivity.
Qed.

Lemma delete_found_in_post env channel messages deleted w :
  deleter_post w (delete_found_in env channel messages deleted w)
    (fun seg r =>
       handed_on r = (deleted ++ reported seg)%list /\
       subseq (reported seg) messages).
Proof.
  unfold delete_found_in.
  eapply deleter_post_bind; [apply bulk_loop_post|].
  intros seg1 exit w1 _ _ Hexit. unfold bulk_loop_post_of in Hexit.
  cbn [app] in Hexit.
  assert (Hafter : forall to_delete d rest (individually : bool),
             d = (deleted ++ reported seg1)%list ->
             messages = (reported seg1 ++ to_delete ++ rest)%list ->
             deleter_post w1
               ((flag <- get_cleaning;;
                 if negb flag then ret (inl d)
                 else
                   d' <-
                     (if (0 <? List.length to_delete)%nat then
                        _ <- suppress_NotFound
                               (await env
                                  (channel_delete_messages channel to_delete));;
                        ret (d ++ to_delete)%list
                      else ret d);;
                   flag <- get_cleaning;;
                   if negb flag then ret (inl d')
                   else if individually then
                     old_deleted <- _delete_messages_individually env rest;;
                     ret (inr (d' ++ old_deleted)%list)
                   else ret (inr d')) w1)
               (fun seg2 r =>
                  handed_on r = (deleted ++ reported (seg1 ++ seg2))%list /\
                  subseq (reported (seg1 ++ seg2)) messages)).
  { intros td d rest individually Hd Hm.
    apply deleter_post_get. destruct (cleaning w1) eqn:Hflag1; cbn [negb].
    2:{ apply deleter_post_ret. rewrite app_nil_r. cbn [handed_on].
        split; [exact Hd|]. rewrite Hm. apply subseq_prefix. }
    eapply deleter_post_bind; [apply flush_post; exact Hflag1|].
    intros seg2 d' w2 _ _ [-> Hrep]. cbv beta.
    assert (Hprefix : subseq (reported seg1 ++ td) messages).
    { rewrite Hm, app_assoc. apply subseq_prefix. }
    apply deleter_post_get. destruct (cleaning w2) eqn:Hflag2; cbn [negb].
    2:{ apply deleter_post_ret. rewrite !app_nil_r, reported_app, Hrep.
        cbn [handed_on]. rewrite Hd, <- app_assoc. auto. }
    destruct individually.
    - eapply deleter_post_bind; [apply individually_loop_post|].
      intros seg3 old w3 _ _ [Hold Hsub]. cbv beta.
      apply deleter_post_ret. cbn [app] in Hold. subst old.
      rewrite !app_nil_r, !reported_app, Hrep. cbn [handed_on].
      rewrite Hd, <- !app_assoc. split; [reflexivity|].
      rewrite Hm. repeat apply subseq_app; try apply subseq_refl. exact Hsub.
    - apply deleter_post_ret. rewrite !app_nil_r, reported_app, Hrep.
      cbn [handed_on]. rewrite Hd, <- app_assoc. auto. }
  destruct exit as [d|i td d|td d].
  - destruct Hexit as [Hd [rest Hrest]]. apply deleter_post_ret.
    rewrite app_nil_r. cbn [handed_on]. split; [exact Hd|].
    rewrite Hrest. apply subseq_prefix.
  - destruct Hexit as (Hd & _ & Hm). rewrite Nat.sub_0_r in Hm.
    exact (Hafter td d (skipn i messages) true Hd Hm).
  - destruct Hexit as [Hd Hm].
    apply (Hafter td d [] false Hd). rewrite app_nil_r. exact Hm.
Qed.

Lemma delete_found_loop_post env mapping : forall deleted w,
  deleter_post w (delete_found_loop env mapping deleted w)
    (fun seg d =>
       d = (deleted ++ reported seg)%list /\
       subseq (reported seg) (List.concat (map snd mapping))).
Proof.
  induction mapping as [|[channel messages] rest IH]; intros deleted w.
  - cbn [delete_found_loop]. apply deleter_post_ret.
    split; [cbn; rewrite app_nil_r; reflexivity | apply subseq_nil].
  - cbn [delete_found_loop].
    eapply deleter_post_bind; [apply delete_found_in_post|].
    intros seg1 r w1 _ _ [Hr Hsub]. cbv beta.
    cbn [map snd List.concat].
    destruct r as [d|d]; cbn [handed_on] in Hr.
    + apply deleter_post_ret. rewrite app_nil_r. split; [exact Hr|].
      rewrite <- (app_nil_r (reported seg1)).
      apply subseq_app; [exact Hsub | apply subseq_nil_l].
    + eapply deleter_post_weaken; [apply IH|].
      intros seg2 d' [Hd' Hsub']. rewrite reported_app.
      split; [rewrite Hd', Hr, <- app_assoc; reflexivity|].
      apply subseq_app; assumption.
Qed.

Lemma reported_is_deleted seg :
  no_failure seg = true -> existsb bulk_missing seg = false ->
  reported seg = deleted_in seg.
Proof.
  induction seg as [|[call r] rest IH]; intros Hnf Hbm; [reflexivity|].
  cbn [no_failure forallb] in Hnf. apply andb_true_iff in Hnf.
  destruct Hnf as [Hf Hnf]. cbn [existsb] in Hbm.
  apply orb_false_iff in Hbm. destruct Hbm as [Hb Hbm].
  unfold reported, deleted_in. cbn [flat_map]. f_equal.
  - unfold reported_by, deleted_by, failed, bulk_missing in *.
    cbn [fst snd] in *.
    destruct call, (outcome r); try reflexivity; discriminate.
  - apply IH; assumption.
Qed.

(** Whatever the environment answers and whenever the flag goes down, a
    run of the deleter makes no call after the flag is down: none at all
    if it is down at the start, and none after a call during which
    [clean stop] ran.  Unless a call fails with an error other than
    [NotFound], the run returns, and what it returns are the messages of
    the calls it made, in the order of the matched lists, nothing of what
    was done being dropped: all the messages of the bulk calls and the
    messages of the individual calls that did not raise.  These are the
    messages deleted when no bulk call was answered [NotFound]. *)
Lemma cancelled_deletion_keeps_progress env message_mappings w :
  exists seg,
    log (snd (_delete_found env message_mappings w)) = (log w ++ seg)%list /\
    (cleaning w = false -> seg = []) /\
    (forall earlier entry later,
        seg = (earlier ++ entry :: later)%list ->
        stop (snd entry) = true -> later = []) /\
    match fst (_delete_found env message_mappings w) with
    | Returned deleted =>
        no_failure seg = true /\
        deleted = reported seg /\
        subseq deleted (List.concat (map snd message_mappings)) /\
        (existsb bulk_missing seg = false -> deleted = deleted_in seg)
    | Raised _ => no_failure seg = false
    end.
Proof.
  destruct (delete_found_loop_post env message_mappings [] w)
    as (seg & (Hlog & Hflag & Hguard) & Hres).
  exists seg. split; [exact Hlog|]. split; [|split].
  - intro Hdown. rewrite Hdown in Hguard. apply guarded_down. exact Hguard.
  - intros earlier entry later E Hs. rewrite E in Hguard.
    eapply guarded_after_stop; eassumption.
  - unfold _delete_found.
    destruct (fst (delete_found_loop env message_mappings [] w));
      [|exact Hres].
    destruct Hres as (Hnf & Hd & Hsub). cbn [app] in Hd. subst a.
    split; [exact Hnf|]. split; [reflexivity|]. split; [exact Hsub|].
    intro Hbm. apply reported_is_deleted; assumption.
Qed.


(** ** Bulk deletions of more than a hundred messages *)

(** One channel whose messages all pass the age test, no cancellation and
    no failing call: the deleter makes [ceil (N / 100)] bulk calls of at
    most 100 messages each and returns all the [N] messages, whatever the
    bulk calls were answered, [NotFound] included. *)
Lemma delete_found_all_eligible env channel messages w :
  cleaning w = true ->
  quiet_from env (List.length (log w)) ->
  all_eligible_from env (ticks w) messages = true ->
  exists w',
    _delete_found env [(channel, messages)] w = (Returned messages, w') /\
    log w'
    = (log w
       ++ answered env (List.length (log w))
            (map (channel_delete_messages channel) (chunks messages)))%list /\
    List.length (chunks messages) = ((List.length messages + 99) / 100)%nat /\
    Forall (fun batch => (0 < List.length batch <= 100)%nat) (chunks messages).
Proof.
  intros Hflag Hq He.
  destruct (delete_found_in_quiet env channel messages [] [] w Hflag Hq He
              eq_refl)
    as (w' & Hrun & Hlog & _ & Hsizes & _).
  rewrite app_nil_r in Hrun, Hlog.
  exists w'. unfold _delete_found. cbn [delete_found_loop].
  unfold bind. rewrite Hrun. cbn [map answered reported flat_map app].
  rewrite app_nil_r. unfold ret.
  split; [reflexivity|]. split; [exact Hlog|].
  split; [apply chunks_spec | exact Hsizes].
Qed.

(** The example of 150 messages: a bulk call of 100, a bulk call of 50,
    and 150 messages returned. *)
Example one_hundred_and_fifty_messages :
  let messages :=
    map (fun i => a_message (a_young_id + Z.of_nat i)) (seq 0 150) in
  let run := _delete_found a_quiet_env [(a_channel, messages)] (a_world true) in
  fst run = Returned messages /\
  map (fun entry => List.length (reported_by entry)) (log (snd run))
  = [100%nat; 50%nat].
Proof. vm_compute. split; reflexivity. Qed.

(** C1, where the code departs from it.  101 messages that pass the age
    test, the flag set throughout, and a first bulk call that raises
    [NotFound]: two bulk calls are made, of 100 and of 1 message, and the
    list returned still holds the 101 messages, although the log shows a
    single message deleted.  The claim has 101 - 100 = 1 message
    returned. *)
Theorem a_vanished_batch_is_returned :
  List.length many_young_messages = 101%nat /\
  fst a_run_with_a_vanished_batch = Returned many_young_messages /\
  map (fun entry => (List.length (reported_by entry), outcome (snd entry)))
    (log (snd a_run_with_a_vanished_batch))
  = [(100%nat, Missing); (1%nat, Done)] /\
  List.length (deleted_in (log (snd a_run_with_a_vanished_batch))) = 1%nat.
Proof. vm_compute. repeat split. Qed.

(** C4, where the code departs from it.  The same 101 messages, the flag
    set at the start, and a first bulk call of 100 messages that raises
    [NotFound] while [clean stop] runs.  The deleter makes no other call
    and returns, but the list it returns holds the 100 messages of that
    call, none of which it deleted: the bulk path extends the list after
    the suppressed [NotFound], where [_delete_messages_individually]
    appends a message only when its deletion went through.  The claim,
    like the docstring of [_delete_found], has the messages already
    deleted returned, here none. *)
Theorem a_cancelled_run_returns_a_vanished_batch :
  cleaning (a_world true) = true /\
  map (fun entry =>
         (List.length (reported_by entry), outcome (snd entry),
          stop (snd entry)))
    (log (snd a_cancelled_run_with_a_vanished_batch))
  = [(100%nat, Missing, true)] /\
  cleaning (snd a_cancelled_run_with_a_vanished_batch) = false /\
  fst a_cancelled_run_with_a_vanished_batch
  = Returned (firstn 100 many_young_messages) /\
  deleted_in (log (snd a_cancelled_run_with_a_vanished_batch)) = [].
Proof. vm_compute. repeat split. Qed.

(** * Further properties of the cog *)

(** ** The predicate *)

Lemma all_predicates_cons pred rest message b :
  pred message = Returned b ->
  all_predicates (pred :: rest) message
  = if b then all_predicates rest message else Returned false.
Proof. intro E. cbn [all_predicates]. rewrite E. destruct b; reflexivity. Qed.

Lemma build_predicate_criteria bots_only users pattern first_limit
    second_limit message :
  (is_some second_limit = true -> is_some first_limit = true) ->
  _build_predicate bots_only users pattern first_limit second_limit message
  = Returned (criteria_hold bots_only users pattern first_limit second_limit
                message).
Proof.
  intro Hlimits. unfold _build_predicate, criteria_hold.
  assert (Hl : first_limit = None -> second_limit = None).
  { intro E. subst. destruct second_limit; [|reflexivity].
    specialize (Hlimits eq_refl). discriminate. }
  destruct bots_only, users as [[|u us]|], pattern as [r|],
    first_limit as [f|], second_limit as [s|];
    try (specialize (Hl eq_refl); discriminate);
    cbn [app non_empty];
    unfold predicate_bots_only, predicate_specific_users, predicate_regex,
      predicate_range, predicate_after;
    cbn [all_predicates];
    repeat match goal with
           | |- context [User.bot ?a] => destruct (User.bot a)
           | |- context [existsb ?f ?l] => destruct (existsb f l)
           | |- context [search ?r ?t] => destruct (search r t)
           | |- context [(?a <=? ?b)%Z] => destruct (a <=? b)%Z
           end;
    reflexivity.
Qed.

(** X1.  When no second limit comes without a first one, the predicate
    never raises, and it accepts a message exactly when all the tests
    asked for hold: sent by a bot, sent by one of the users, matched by the
    pattern, created at or after the first limit and, with a second limit,
    at or before it.  With no test asked for it accepts every message. *)
Theorem build_predicate_is_the_conjunction bots_only users pattern
    first_limit second_limit message :
  (is_some second_limit = true -> is_some first_limit = true) ->
  _build_predicate bots_only users pattern first_limit second_limit message
  = Returned (criteria_hold bots_only users pattern first_limit second_limit
                message).
Proof. apply build_predicate_criteria. Qed.

Lemma build_predicate_is_the_conjunction_witness :
  _build_predicate true None (Some digits) (Some 0) (Some 10)
    (a_message_with_field "42")
  = Returned (criteria_hold true None (Some digits) (Some 0) (Some 10)
                (a_message_with_field "42")).
Proof.
  apply build_predicate_is_the_conjunction. intros _. reflexivity.
Defined.

(** ** The [Regex] converter *)

(** X2.  [Regex.convert] returns a pattern exactly when the argument is a
    text between two backticks, not empty and without newline, that
    [re.compile] accepts, and the pattern is the one compiled from that
    text with the flags [re.IGNORECASE + re.DOTALL].  Without such
    backticks it raises [BadArgument] for the missing
    backticks, whatever the compiler would say. *)
Theorem Regex_convert_spec re_compile argument :
  (forall pattern,
      Regex_convert re_compile argument = Returned pattern <->
      exists text,
        argument = ("`" ++ text ++ "`")%string /\ text <> EmptyString /\
        has_newline text = false /\
        re_compile text (re_IGNORECASE + re_DOTALL) = inr pattern) /\
  ((forall text,
       argument = ("`" ++ text ++ "`")%string ->
       text = EmptyString \/ has_newline text = true) ->
   Regex_convert re_compile argument
   = Raised (BadArgument "Regex pattern missing wrapping backticks")).
Proof.
  unfold Regex_convert. split.
  - intro pattern. split.
    + destruct (between_backticks argument) as [text|] eqn:Eb;
        [|discriminate].
      apply between_backticks_spec in Eb. destruct Eb as (Ea & Hne & Hn).
      destruct (re_compile text (re_IGNORECASE + re_DOTALL)) as [msg|r] eqn:Ec;
        [discriminate|].
      intro E. inversion E. subst r. exists text. auto.
    + intros (text & Ea & Hne & Hn & Ec).
      assert (Eb : between_backticks argument = Some text)
        by (apply between_backticks_spec; auto).
      rewrite Eb, Ec. reflexivity.
  - intro Hnone.
    destruct (between_backticks argument) as [text|] eqn:Eb; [|reflexivity].
    apply between_backticks_spec in Eb. destruct Eb as (Ea & Hne & Hn).
    destruct (Hnone text Ea) as [E|E]; [contradiction | congruence].
Qed.

Lemma Regex_convert_spec_witness :
  Regex_convert compile_digits "no backticks"
  = Raised (BadArgument "Regex pattern missing wrapping backticks").
Proof.
  apply (proj2 (Regex_convert_spec compile_digits "no backticks")).
  intros text E. destruct text; discriminate.
Defined.

Lemma traces_delete_invocation env ctx w :
  exists seg,
    log (snd (_delete_invocation env ctx w)) = (log w ++ seg)%list.
Proof.
  assert (H : traces (fun _ => True) (fun _ => True)
                (_delete_invocation env ctx)).
  { unfold _delete_invocation. destruct (negb _).
    - eapply traces_bind; [apply traces_mod_log_ignore | intros _ _].
      eapply traces_bind.
      + eapply traces_suppress. apply traces_await. exact I.
      + intros _ _. apply traces_ret. exact I.
    - apply traces_ret. exact I. }
  destruct (H w) as (seg & Hlog & _). exists seg. exact Hlog.
Qed.

(** ** Invocations that do not start a session *)

(** X3.  An invocation whose arguments do not pass validation raises the
    error of the validation and makes no call; as the error then reaches
    [cog_command_error], the command leaves the world as it was except for
    the flag, which is down afterwards even if a session was running. *)
Theorem invalid_invocation_clears_the_flag env ctx traverse channels
    bots_only users pattern first_limit second_limit use_cache e w :
  _validate_input env traverse channels bots_only users
    first_limit second_limit = Raised e ->
  _clean_messages env ctx traverse channels bots_only users pattern
    first_limit second_limit use_cache w = (Raised e, w) /\
  invoke
    (_clean_messages env ctx traverse channels bots_only users pattern
       first_limit second_limit use_cache) w
  = (Raised e, flag_down w).
Proof.
  intro Hinvalid.
  assert (E : _clean_messages env ctx traverse channels bots_only users
                pattern first_limit second_limit use_cache w
              = (Raised e, w)).
  { unfold _clean_messages. unfold bind at 1. unfold lift at 1.
    rewrite Hinvalid. reflexivity. }
  split; [exact E|]. unfold invoke. rewrite E. reflexivity.
Qed.

Lemma invalid_invocation_clears_the_flag_witness :
  _clean_messages a_quiet_env a_context 10 None true (Some [a_user]) None
    None None (Some true) (a_world true)
  = (Raised (BadArgument "Marked as bots only, but users were specified."),
     a_world true) /\
  invoke
    (_clean_messages a_quiet_env a_context 10 None true (Some [a_user]) None
       None None (Some true)) (a_world true)
  = (Raised (BadArgument "Marked as bots only, but users were specified."),
     flag_down (a_world true)).
Proof.
  apply invalid_invocation_clears_the_flag. reflexivity.
Defined.

(** X4.  What the docstrings of [clean until] and [clean between] forbid
    is refused before anything is done: a message limit together with a
    channel, and two message limits of different channels, raise
    [BadArgument] and leave the world as it was. *)
Theorem limits_and_channels_refused env ctx w :
  (forall message channel,
      clean_until env ctx (LimitMessage message) (Some channel) w
      = (Raised (BadArgument "Both a message limit and channels specified."),
         w)) /\
  (forall first second channel,
      (is_message (Some first) || is_message (Some second)) = true ->
      clean_between env ctx first second (Some channel) w
      = (Raised (BadArgument "Both a message limit and channels specified."),
         w)) /\
  (forall first second,
      TextChannel.eqb (Message.channel first) (Message.channel second)
        = false ->
      clean_between env ctx (LimitMessage first) (LimitMessage second) None w
      = (Raised (BadArgument "Message limits are in different channels."),
         w)).
Proof.
  assert (Hlimit : (message_limit env <? message_limit env) = false)
    by apply Z.ltb_irrefl.
  split; [|split].
  - intros message channel. unfold clean_until, _clean_messages.
    unfold bind at 1. unfold lift at 1. unfold _validate_input.
    rewrite Hlimit. reflexivity.
  - intros first second channel Hm. unfold clean_between, _clean_messages.
    unfold bind at 1. unfold lift at 1. unfold _validate_input.
    rewrite Hlimit, Hm. reflexivity.
  - intros first second Hc. unfold clean_between, _clean_messages.
    unfold bind at 1. unfold lift at 1. unfold _validate_input.
    rewrite Hlimit. cbn [is_message orb option_map channels_given andb].
    rewrite Hc. reflexivity.
Qed.

Lemma limits_and_channels_refused_witness :
  clean_between a_quiet_env a_context (LimitMessage (a_message 1))
    (LimitDatetime 5) (Some a_channel) (a_world false)
  = (Raised (BadArgument "Both a message limit and channels specified."),
     a_world false).
Proof.
  apply (proj1 (proj2 (limits_and_channels_refused a_quiet_env a_context
                         (a_world false)))).
  reflexivity.
Defined.

(** X5.  The [clean] group command starts nothing when neither a traverse
    count other than 0, nor users, limits, a pattern or channels are given:
    it sends the help only, whatever [bots_only] and [use_cache] are. *)
Theorem clean_group_without_criteria env ctx users traverse use_cache
    bots_only channels :
  non_empty users = false ->
  traverse = None \/ traverse = Some 0 ->
  channels_given channels = false ->
  clean_group env ctx users traverse None None use_cache bots_only None
    channels
  = await env ctx_send_help.
Proof.
  intros Hu Ht Hc. unfold clean_group. rewrite Hu, Hc.
  destruct Ht as [-> | ->]; reflexivity.
Qed.

Lemma clean_group_without_criteria_witness :
  clean_group a_quiet_env a_context (Some []) (Some 0) None None (Some true)
    true None (Some (ChannelList []))
  = await a_quiet_env ctx_send_help.
Proof.
  apply clean_group_without_criteria; [reflexivity | right | ]; reflexivity.
Defined.

(** ** Stopping a session *)

(** X6.  After [clean stop] the flag is down, whatever it was and whatever
    the environment answers, and the first thing the command does is to
    send one notice, which tells whether a session was running. *)
Theorem clean_cancel_leaves_the_flag_down env ctx w :
  cleaning (snd (clean_cancel env ctx w)) = false /\
  exists seg,
    log (snd (clean_cancel env ctx w))
    = (log w
       ++ (ctx_send (Context.channel ctx)
             (if cleaning w then (check_mark env ++ " Clean interrupted.")%string
              else ":question: There's no cleaning going on."%string)
             (if is_mod_channel env (Context.channel ctx) then None
              else Some MESSAGE_DELETE_DELAY),
           reply env (List.length (log w)))
       :: seg)%list.
Proof.
  assert (E : clean_cancel env ctx w
              = (_send_expiring_message env ctx
                   (if cleaning w
                    then (check_mark env ++ " Clean interrupted.")%string
                    else ":question: There's no cleaning going on."%string);;
                 _delete_invocation env ctx)
                  (if cleaning w then flag_down w else w)).
  { unfold clean_cancel. unfold bind at 1. unfold get_cleaning at 1.
    destruct (cleaning w); reflexivity. }
  rewrite E. clear E.
  assert (Htail : forall content w0,
             cleaning w0 = false -> log w0 = log w ->
             cleaning
               (snd ((_send_expiring_message env ctx content;;
                      _delete_invocation env ctx) w0)) = false /\
             exists seg,
               log (snd ((_send_expiring_message env ctx content;;
                          _delete_invocation env ctx) w0))
               = (log w
                  ++ (ctx_send (Context.channel ctx) content
                        (if is_mod_channel env (Context.channel ctx)
                         then None else Some MESSAGE_DELETE_DELAY),
                      reply env (List.length (log w)))
                  :: seg)%list).
  { intros content w0 Hdown Hlog. split.
    - apply keeps_bind; [apply keeps_send_expiring | intros _ | exact Hdown].
      unfold _delete_invocation. destruct (negb _); [|apply keeps_ret].
      apply keeps_bind; [intros w1 H1; exact H1 | intros _].
      apply keeps_bind; [apply keeps_suppress, keeps_await | intros _].
      apply keeps_ret.
    - unfold bind at 1. unfold _send_expiring_message at 1.
      unfold await at 1. rewrite Hlog.
      destruct (outcome (reply env (List.length (log w)))); cbn [exn_of].
      + match goal with
        | |- context [_delete_invocation env ctx ?w1] =>
            destruct (traces_delete_invocation env ctx w1) as (seg & Hseg)
        end.
        exists seg. rewrite Hseg. cbn [log]. rewrite <- app_assoc.
        reflexivity.
      + exists []. reflexivity.
      + exists []. reflexivity. }
  destruct (cleaning w) eqn:Hflag.
  - exact (Htail (check_mark env ++ " Clean interrupted.")%string
             (flag_down w) eq_refl eq_refl).
  - exact (Htail ":question: There's no cleaning going on."%string w
             Hflag eq_refl).
Qed.

(** ** What a complete scan collects *)

Lemma channel_eqb_eq a b : TextChannel.eqb a b = true <-> a = b.
Proof.
  unfold TextChannel.eqb. rewrite Z.eqb_eq. destruct a, b. cbn.
  split; [intros ->; reflexivity | intro E; inversion E; reflexivity].
Qed.

Lemma channel_eqb_sym a b : TextChannel.eqb a b = TextChannel.eqb b a.
Proof. apply Z.eqb_sym. Qed.

Lemma mapping_get_append mapping channel message c :
  mapping_get (mapping_append mapping channel message) c
  = if TextChannel.eqb channel c
    then (mapping_get mapping c ++ [message])%list
    else mapping_get mapping c.
Proof.
  unfold mapping_get. induction mapping as [|[k ms] rest IH].
  - cbn. destruct (TextChannel.eqb channel c); reflexivity.
  - cbn [mapping_append]. destruct (TextChannel.eqb k channel) eqn:Ek.
    + apply channel_eqb_eq in Ek. subst k. cbn [find fst snd].
      destruct (TextChannel.eqb channel c); reflexivity.
    + cbn [find fst snd]. destruct (TextChannel.eqb k c) eqn:Ekc.
      * apply channel_eqb_eq in Ekc. subst k.
        rewrite (channel_eqb_sym channel c), Ek. reflexivity.
      * exact IH.
Qed.

Lemma mapping_append_keys mapping channel message :
  NoDup (map fst mapping) ->
  NoDup (map fst (mapping_append mapping channel message)) /\
  (forall k, In k (map fst (mapping_append mapping channel message)) ->
             In k (map fst mapping) \/ k = channel).
Proof.
  induction mapping as [|[k ms] rest IH]; intro Hnd.
  - cbn. split; [repeat constructor; intros [] | intros k [<-|[]]; auto].
  - cbn [mapping_append]. destruct (TextChannel.eqb k channel) eqn:Ek.
    + cbn [map fst] in *. split; [exact Hnd | auto].
    + cbn [map fst] in *. inversion Hnd as [|? ? Hnotin Hnd']; subst.
      destruct (IH Hnd') as [IHnd IHin]. split.
      * constructor; [|exact IHnd]. intro Hin.
        destruct (IHin k Hin) as [Hin'|E]; [contradiction|].
        subst k. assert (Et : TextChannel.eqb channel channel = true)
          by (apply channel_eqb_eq; reflexivity).
        congruence.
      * intros k' [<-|Hin']; [left; left; reflexivity|].
        destruct (IHin k' Hin'); [left; right|right]; assumption.
Qed.

Lemma mapping_append_not_empty mapping channel message :
  Forall (fun entry => snd entry <> []) mapping ->
  Forall (fun entry => snd entry <> []) (mapping_append mapping channel message).
Proof.
  induction 1 as [|[k ms] rest Hk Hrest IH]; cbn [mapping_append].
  - repeat constructor. discriminate.
  - destruct (TextChannel.eqb k channel).
    + constructor; [|assumption]. cbn. destruct ms; discriminate.
    + constructor; assumption.
Qed.

(** What the containers hold after a scan that started with [found]. *)
Lemma scan_step_fold to_delete messages : forall found,
  let result := fold_left (scan_step to_delete) messages found in
  snd result
  = (snd found ++ map Message.id (filter to_delete messages))%list /\
  (forall c,
      mapping_get (fst result) c
      = (mapping_get (fst found) c
         ++ filter (fun m => TextChannel.eqb (Message.channel m) c)
              (filter to_delete messages))%list) /\
  (NoDup (map fst (fst found)) -> NoDup (map fst (fst result))) /\
  (Forall (fun entry => snd entry <> []) (fst found) ->
   Forall (fun entry => snd entry <> []) (fst result)).
Proof.
  induction messages as [|m rest IH]; intro found; cbn zeta.
  - cbn. rewrite app_nil_r. split; [reflexivity|].
    split; [intro c; rewrite app_nil_r; reflexivity | auto].
  - cbn [fold_left filter]. specialize (IH (scan_step to_delete found m)).
    cbn zeta in IH. destruct IH as (Hids & Hget & Hnd & Hne).
    assert (Estep : scan_step to_delete found m
                    = if to_delete m then record_match found m else found)
      by reflexivity.
    rewrite Estep in *. clear Estep.
    destruct (to_delete m) eqn:Em.
    + split; [|split; [|split]].
      * rewrite Hids. cbn [record_match snd map].
        rewrite <- app_assoc. reflexivity.
      * intro c. rewrite Hget. cbn [record_match fst filter].
        rewrite mapping_get_append.
        destruct (TextChannel.eqb (Message.channel m) c);
          [rewrite <- app_assoc|]; reflexivity.
      * intro H. apply Hnd. cbn [record_match fst].
        apply mapping_append_keys. exact H.
      * intro H. apply Hne. cbn [record_match fst].
        apply mapping_append_not_empty. exact H.
    + split; [exact Hids|]. split; [exact Hget|]. split; assumption.
Qed.

Lemma collect_is_fold to_delete messages :
  collect to_delete messages = fold_left (scan_step to_delete) messages ([], []).
Proof. reflexivity. Qed.

Lemma cache_loop_complete cleaning_at to_delete messages :
  forall n found,
    (forall i, cleaning_at i = true) ->
    (forall m, In m messages -> exists b, to_delete m = Returned b) ->
    cache_loop cleaning_at to_delete messages n found
    = Returned (fold_left (scan_step (said_yes to_delete)) messages found).
Proof.
  induction messages as [|m rest IH]; intros n found Hup Hp; [reflexivity|].
  cbn [cache_loop fold_left]. rewrite Hup. cbn [negb].
  destruct (Hp m (or_introl eq_refl)) as [b Hb].
  unfold scan_step at 2. unfold said_yes at 2. rewrite Hb.
  destruct b; apply IH; auto; intros m' Hin; apply Hp; right; exact Hin.
Qed.

(** X7.  A cache scan that is not cancelled, with a predicate that does
    not raise, looks at the first [traverse] cached messages: the flat list
    holds the identifiers of the accepted messages in the order of the
    cache, every channel's entry holds the accepted messages of that
    channel in the same order, no channel has two entries and no entry is
    empty. *)
Theorem cache_scan_partitions env traverse to_delete :
  0 <= traverse ->
  (forall m, exists b, to_delete m = Returned b) ->
  exists found,
    _get_messages_from_cache env (fun _ => true) traverse to_delete
      = Returned found /\
    snd found
    = map Message.id
        (filter (said_yes to_delete)
           (firstn (Z.to_nat traverse) (cached_messages env))) /\
    (forall c,
        mapping_get (fst found) c
        = filter (fun m => TextChannel.eqb (Message.channel m) c)
            (filter (said_yes to_delete)
               (firstn (Z.to_nat traverse) (cached_messages env)))) /\
    NoDup (map fst (fst found)) /\
    Forall (fun entry => snd entry <> []) (fst found).
Proof.
  intros Hpos Hp. unfold _get_messages_from_cache.
  destruct (traverse <? 0) eqn:Hneg; [apply Z.ltb_lt in Hneg; lia|].
  rewrite cache_loop_complete by auto.
  eexists. split; [reflexivity|].
  destruct (scan_step_fold (said_yes to_delete)
              (firstn (Z.to_nat traverse) (cached_messages env)) ([], []))
    as (Hids & Hget & Hnd & Hne).
  split; [exact Hids|]. split; [exact Hget|].
  split; [apply Hnd; constructor | apply Hne; constructor].
Qed.

Lemma cache_scan_partitions_witness :
  exists found,
    _get_messages_from_cache a_cache_env (fun _ => true) 3 accept_all
      = Returned found /\
    snd found
    = map Message.id
        (filter (said_yes accept_all)
           (firstn (Z.to_nat 3) (cached_messages a_cache_env))) /\
    (forall c,
        mapping_get (fst found) c
        = filter (fun m => TextChannel.eqb (Message.channel m) c)
            (filter (said_yes accept_all)
               (firstn (Z.to_nat 3) (cached_messages a_cache_env)))) /\
    NoDup (map fst (fst found)) /\
    Forall (fun entry => snd entry <> []) (fst found).
Proof.
  apply cache_scan_partitions; [lia|].
  intro m. exists true. reflexivity.
Defined.

(** ** What a history scan returns *)

Lemma scan_step_answer to_delete found message b :
  to_delete message = Returned b ->
  scan_step (said_yes to_delete) found message
  = if b then record_match found message else found.
Proof.
  intro E. unfold scan_step, said_yes. rewrite E. destruct b; reflexivity.
Qed.

Lemma history_loop_result env channel traverse before after to_delete
    messages : forall found w found' w',
  history_loop env channel traverse before after to_delete messages found w
    = (Returned (Some found'), w') ->
  found' = fold_left (scan_step (said_yes to_delete)) messages found.
Proof.
  induction messages as [|m rest IH]; intros found w found' w' E.
  - cbn [history_loop] in E. unfold bind, await in E.
    destruct (exn_of _); inversion E. reflexivity.
  - cbn [history_loop] in E. unfold bind at 1 in E. unfold await at 1 in E.
    destruct (exn_of _); [|discriminate].
    unfold bind at 1 in E. unfold get_cleaning at 1 in E.
    cbn [cleaning] in E. destruct (negb _); [discriminate|].
    unfold bind at 1 in E. unfold lift at 1 in E.
    destruct (to_delete m) as [b|e] eqn:Em; [|discriminate].
    apply IH in E. rewrite E. cbn [fold_left].
    rewrite (scan_step_answer to_delete found m b Em). reflexivity.
Qed.

Lemma channels_loop_result env traverse before after to_delete channels :
  forall found w found' w',
    channels_loop env traverse channels to_delete before after found w
      = (Returned found', w') ->
    found' = ([], []) \/
    found' = fold_left (scan_step (said_yes to_delete))
               (flat_map (fun c => history env c traverse before after)
                  channels) found.
Proof.
  induction channels as [|c rest IH]; intros found w found' w' E.
  - inversion E. right. reflexivity.
  - cbn [channels_loop] in E. unfold bind at 1 in E.
    destruct (history_loop _ _ _ _ _ _ _ _ _) as [[[f|]|e] w1] eqn:Eh;
      [| |discriminate].
    + apply history_loop_result in Eh. apply IH in E.
      destruct E as [E|E]; [left; exact E|]. right.
      cbn [flat_map]. rewrite fold_left_app, <- Eh. exact E.
    + inversion E. left. reflexivity.
Qed.

(** X8.  Whatever the environment answers, a history scan that returns
    hands back either two empty containers or what the complete scan of
    all the channels collects: it never returns a part of the matches. *)
Theorem history_scan_is_all_or_nothing env traverse channels to_delete
    before after w found w' :
  _get_messages_from_channels env traverse channels to_delete before after w
    = (Returned found, w') ->
  found = ([], []) \/
  found = collect (said_yes to_delete)
            (flat_map (fun c => history env c traverse before after) channels).
Proof.
  intro E. unfold _get_messages_from_channels in E.
  apply channels_loop_result in E. exact E.
Qed.

Lemma history_scan_is_all_or_nothing_witness :
  (([], []) : Mapping * list Z) = ([], []) \/
  (([], []) : Mapping * list Z)
  = collect (said_yes accept_all)
      (flat_map (fun c => history a_history_env c 10 None None) [a_channel]).
Proof.
  apply (history_scan_is_all_or_nothing a_history_env 10 [a_channel]
           accept_all None None (a_world true) ([], [])
           (snd (_get_messages_from_channels a_history_env 10 [a_channel]
                   accept_all None None (a_world true)))).
  reflexivity.
Defined.

Lemma calm_from_later env start later :
  (start <= later)%nat -> calm_from env start -> calm_from env later.
Proof. intros Hle Hc n Hn. apply Hc. lia. Qed.

Lemma calm_await env call w :
  calm_from env (List.length (log w)) ->
  await env call w
  = (Returned tt,
     {| cleaning := cleaning w; ticks := ticks w;
        log := (log w ++ [(call, calm)])%list; ignored := ignored w |}).
Proof.
  intro Hc. unfold await. rewrite (Hc _ (le_n _)). cbn.
  rewrite andb_true_r. reflexivity.
Qed.

Lemma answered_calm env calls : forall start,
  calm_from env start ->
  answered env start calls = map (fun call => (call, calm)) calls.
Proof.
  induction calls as [|c rest IH]; intros start Hc; [reflexivity|].
  cbn [answered map]. rewrite (Hc _ (le_n _)), IH; [reflexivity|].
  eapply calm_from_later; [|exact Hc]. lia.
Qed.

Lemma history_loop_calm env channel traverse before after to_delete
    messages :
  (forall m, exists b, to_delete m = Returned b) ->
  forall found w,
  cleaning w = true ->
  calm_from env (List.length (log w)) ->
  history_loop env channel traverse before after to_delete messages found w
  = (Returned (Some (fold_left (scan_step (said_yes to_delete)) messages
                       found)),
     {| cleaning := true; ticks := ticks w;
        log := (log w
                ++ map (fun call => (call, calm))
                     (repeat (history_next channel traverse before after)
                        (S (List.length messages))))%list;
        ignored := ignored w |}).
Proof.
  intro Hp. induction messages as [|m rest IH]; intros found w Hflag Hc.
  - cbn [history_loop]. unfold bind. rewrite calm_await by exact Hc.
    unfold ret. rewrite Hflag. reflexivity.
  - cbn [history_loop]. unfold bind at 1. rewrite calm_await by exact Hc.
    unfold bind at 1. unfold get_cleaning at 1. cbn [cleaning].
    rewrite Hflag. cbn [negb].
    destruct (Hp m) as [b Hb].
    unfold bind at 1. unfold lift at 1. rewrite Hb.
    rewrite IH.
    + cbn [fold_left ticks log ignored List.length repeat map].
      rewrite (scan_step_answer to_delete found m b Hb), <- app_assoc.
      reflexivity.
    + reflexivity.
    + cbn [log]. eapply calm_from_later; [|exact Hc].
      rewrite length_app. lia.
Qed.

Lemma channels_loop_calm env traverse before after to_delete channels :
  (forall m, exists b, to_delete m = Returned b) ->
  forall found0 w0,
    cleaning w0 = true ->
    calm_from env (List.length (log w0)) ->
    exists w',
      channels_loop env traverse channels to_delete before after found0 w0
      = (Returned
           (fold_left (scan_step (said_yes to_delete))
              (flat_map (fun c => history env c traverse before after)
                 channels)
              found0),
         w') /\
      log w'
      = (log w0
         ++ map (fun call => (call, calm))
              (history_requests env traverse before after channels))%list /\
      cleaning w' = true.
Proof.
  intro Hp. unfold history_requests.
  induction channels as [|c rest IH]; intros found0 w0 Hflag Hc.
  - exists w0. cbn. rewrite app_nil_r. auto.
  - cbn [channels_loop flat_map]. unfold bind at 1.
    rewrite history_loop_calm by assumption.
    match goal with
    | |- context [channels_loop _ _ rest _ _ _ ?f ?w1] =>
        destruct (IH f w1) as (w' & Hrun & Hlog & Hflag')
    end.
    + reflexivity.
    + cbn [log]. eapply calm_from_later; [|exact Hc].
      rewrite length_app. lia.
    + exists w'. rewrite Hrun, fold_left_app.
      split; [reflexivity|]. split; [|exact Hflag'].
      rewrite Hlog. cbn [log]. rewrite map_app, <- app_assoc.
      reflexivity.
Qed.



(** * Further properties of the deleter and of a session *)

(** ** Every call of the deleter *)

Section Careful.

Variable env : Env.
Variable P : Call -> Prop.
Variable channel : TextChannel.t.
Variable Q : Message.t -> Prop.

Hypothesis bulk_P :
  forall ms, (0 < List.length ms <= 100)%nat -> Forall Q ms ->
             P (channel_delete_messages channel ms).
Hypothesis single_P : forall m, Q m -> P (message_delete m).

Lemma bulk_loop_careful messages : forall current_index pending deleted,
  Forall Q messages -> Forall Q pending ->
  (List.length pending < 100)%nat ->
  traces P
    (fun exit => match exit with
                 | LoopReturn _ => True
                 | LoopBreak _ pending' _ | LoopEnd pending' _ =>
                     Forall Q pending' /\ (List.length pending' < 100)%nat
                 end)
    (bulk_loop env channel messages current_index pending deleted).
Proof.
  induction messages as [|m rest IH]; intros idx pending deleted Hm Hp Hlen;
    cbn [bulk_loop].
  - apply traces_ret. auto.
  - inversion Hm; subst.
    eapply traces_bind; [apply traces_get_cleaning | intros flag _].
    destruct (negb flag); [apply traces_ret; exact I|].
    eapply traces_bind with (R1 := fun _ => True).
    + unfold is_older_than_14d.
      eapply traces_bind; [apply traces_time_time | intros now _].
      apply traces_ret. exact I.
    + intros old _. destruct old; [apply traces_ret; auto|].
      assert (Hp' : Forall Q (pending ++ [m])%list)
        by (apply Forall_app; auto).
      assert (Hlen' : List.length (pending ++ [m]) = S (List.length pending))
        by (rewrite length_app; cbn; lia).
      destruct (List.length (pending ++ [m]) =? 100)%nat eqn:E.
      * apply Nat.eqb_eq in E.
        eapply traces_bind with (R1 := fun _ => True).
        -- eapply traces_suppress. apply traces_await.
           apply bulk_P; [lia | exact Hp'].
        -- intros _ _. apply IH; [assumption | constructor | cbn; lia].
      * apply Nat.eqb_neq in E. apply IH; [assumption | exact Hp' | lia].
Qed.

Lemma delete_found_in_careful messages deleted :
  Forall Q messages ->
  traces P (fun _ => True) (delete_found_in env channel messages deleted).
Proof.
  intro Hm. unfold delete_found_in.
  eapply traces_bind;
    [apply bulk_loop_careful; [exact Hm | constructor | cbn; lia]|].
  assert (Hflush : forall pending d,
             Forall Q pending -> (List.length pending < 100)%nat ->
             traces P (fun _ => True)
               (if (0 <? List.length pending)%nat then
                  _ <- suppress_NotFound
                         (await env (channel_delete_messages channel pending));;
                  ret (d ++ pending)%list
                else ret d)).
  { intros pending d Hp Hlen. destruct (0 <? _)%nat eqn:E.
    - apply Nat.ltb_lt in E.
      eapply traces_bind with (R1 := fun _ => True).
      + eapply traces_suppress. apply traces_await.
        apply bulk_P; [lia | exact Hp].
      + intros _ _. apply traces_ret. exact I.
    - apply traces_ret. exact I. }
  intros [d|idx pending d|pending d] Hexit.
  - apply traces_ret. exact I.
  - destruct Hexit as [Hp Hlen].
    eapply traces_bind; [apply traces_get_cleaning | intros flag _].
    destruct (negb flag); [apply traces_ret; exact I|].
    eapply traces_bind; [apply Hflush; assumption | intros d' _].
    eapply traces_bind; [apply traces_get_cleaning | intros flag' _].
    destruct (negb flag'); [apply traces_ret; exact I|].
    eapply traces_bind with (R1 := fun _ => True).
    + unfold _delete_messages_individually.
      apply (individually_loop_Q env P Q single_P).
      apply Forall_skipn_Q. exact Hm.
    + intros old _. apply traces_ret. exact I.
  - destruct Hexit as [Hp Hlen].
    eapply traces_bind; [apply traces_get_cleaning | intros flag _].
    destruct (negb flag); [apply traces_ret; exact I|].
    eapply traces_bind; [apply Hflush; assumption | intros d' _].
    eapply traces_bind; [apply traces_get_cleaning | intros flag' _].
    destruct (negb flag'); apply traces_ret; exact I.
Qed.

End Careful.

(** X10.  Whatever the environment answers, the deleter makes no other
    call than deletions of matched messages: every bulk call carries
    between 1 and 100 messages, all taken from one entry of the mapping
    and sent to the channel of that entry, and every individual call
    deletes a message of the mapping. *)
Theorem deleter_deletes_matched_messages_only env message_mappings w :
  exists seg,
    log (snd (_delete_found env message_mappings w)) = (log w ++ seg)%list /\
    Forall (fun entry => deletes_matched message_mappings (fst entry)) seg.
Proof.
  assert (Hgen : forall rest deleted,
             incl rest message_mappings ->
             traces (deletes_matched message_mappings) (fun _ => True)
               (delete_found_loop env rest deleted)).
  { induction rest as [|[c ms] rest IH]; intros deleted Hincl;
      cbn [delete_found_loop].
    - apply traces_ret. exact I.
    - assert (Hin : In (c, ms) message_mappings)
        by (apply Hincl; left; reflexivity).
      eapply traces_bind with (R1 := fun _ => True).
      + apply (delete_found_in_careful env (deletes_matched message_mappings)
                 c (fun m => In m ms)).
        * intros batch Hlen Hall. split; [exact Hlen|]. exists ms. auto.
        * intros m Hm. exists c, ms. auto.
        * apply Forall_forall. auto.
      + intros [d|d] _; [apply traces_ret; exact I|].
        apply IH. intros e He. apply Hincl. right. exact He. }
  destruct (Hgen message_mappings [] (incl_refl _) w) as (seg & Hlog & HP & _).
  exists seg. split; assumption.
Qed.

(** ** Several channels *)

Lemma always_eligible_from env messages tick :
  always_eligible env messages -> all_eligible_from env tick messages = true.
Proof.
  revert tick. induction messages as [|m rest IH]; intros tick H;
    [reflexivity|].
  cbn [all_eligible_from]. rewrite (H tick m (or_introl eq_refl)).
  apply IH. intros t m' Hin. apply H. right. exact Hin.
Qed.

Lemma delete_found_loop_calm env : forall rest deleted w0,
  cleaning w0 = true ->
  quiet_from env (List.length (log w0)) ->
  always_eligible env (List.concat (map snd rest)) ->
  exists w',
    delete_found_loop env rest deleted w0
    = (Returned (deleted ++ List.concat (map snd rest))%list, w') /\
    log w'
    = (log w0
       ++ answered env (List.length (log w0)) (bulk_calls rest))%list /\
    cleaning w' = true.
Proof.
  induction rest as [|[c ms] rest IH]; intros deleted w0 Hflag Hq He.
  - exists w0. cbn. rewrite !app_nil_r. auto.
  - cbn [map snd List.concat] in He.
    assert (He1 : always_eligible env ms)
      by (intros t m Hin; apply He, in_or_app; left; exact Hin).
    assert (He2 : always_eligible env (List.concat (map snd rest)))
      by (intros t m Hin; apply He, in_or_app; right; exact Hin).
    destruct (delete_found_in_quiet env c ms [] deleted w0 Hflag Hq
                (always_eligible_from env ms (ticks w0) He1) eq_refl)
      as (w1 & Hrun & Hlog & _ & _ & Hflag1).
    rewrite app_nil_r in Hrun, Hlog.
    cbn [map answered reported flat_map] in Hrun.
    rewrite app_nil_r in Hrun.
    destruct (IH (deleted ++ ms)%list w1 Hflag1) as (w' & Hgo & Hlog' & Hf');
      [|exact He2|].
    { eapply quiet_from_later; [|exact Hq]. rewrite Hlog, length_app. lia. }
    exists w'. cbn [delete_found_loop]. unfold bind at 1. rewrite Hrun, Hgo.
    cbn [map snd List.concat]. rewrite <- app_assoc.
    split; [reflexivity|]. split; [|exact Hf'].
    rewrite Hlog', Hlog. unfold bulk_calls. cbn [flat_map fst snd].
    rewrite answered_app, length_app, answered_length, <- app_assoc.
    reflexivity.
Qed.

(** X11.  A mapping of several channels whose messages all pass the age
    test, no cancellation and no failing call: the deleter goes through the
    entries in order, deletes the messages of each entry in bulk calls of
    at most 100 that never mix two entries, and returns all the messages,
    entry after entry. *)
Theorem delete_found_channel_by_channel env message_mappings w :
  cleaning w = true ->
  quiet_from env (List.length (log w)) ->
  always_eligible env (List.concat (map snd message_mappings)) ->
  exists w',
    _delete_found env message_mappings w
      = (Returned (List.concat (map snd message_mappings)), w') /\
    log w'
    = (log w
       ++ answered env (List.length (log w)) (bulk_calls message_mappings))%list /\
    cleaning w' = true.
Proof.
  intros Hflag Hq He.
  destruct (delete_found_loop_calm env message_mappings [] w Hflag Hq He)
    as (w' & Hrun & Hlog & Hf).
  exists w'. unfold _delete_found. rewrite Hrun. auto.
Qed.

Lemma delete_found_channel_by_channel_witness :
  exists w',
    _delete_found a_quiet_env
      [(a_channel, two_young_messages); (a_channel, two_young_messages)]
      (a_world true)
      = (Returned
           (List.concat
              (map snd [(a_channel, two_young_messages);
                        (a_channel, two_young_messages)])),
         w') /\
    log w'
    = (log (a_world true)
       ++ answered a_quiet_env (List.length (log (a_world true)))
            (bulk_calls [(a_channel, two_young_messages);
                         (a_channel, two_young_messages)]))%list /\
    cleaning w' = true.
Proof.
  apply delete_found_channel_by_channel.
  - reflexivity.
  - intros n _. split; [reflexivity | discriminate].
  - intros t m Hin. cbn in Hin.
    repeat (destruct Hin as [<-|Hin]; [vm_compute; reflexivity|]).
    destruct Hin.
Defined.

(** X12.  [_delete_messages_individually] with no cancellation and no
    failing call makes one delete call per message, in order, and returns
    the messages whose call did not raise [NotFound], in order; it returns
    all of them when every call succeeds. *)
Theorem individual_deletion_skips_the_vanished env messages w :
  cleaning w = true ->
  quiet_from env (List.length (log w)) ->
  exists w',
    _delete_messages_individually env messages w
      = (Returned
           (reported (answered env (List.length (log w))
                        (map message_delete messages))),
         w') /\
    log w'
    = (log w
       ++ answered env (List.length (log w)) (map message_delete messages))%list /\
    subseq
      (reported (answered env (List.length (log w))
                   (map message_delete messages)))
      messages /\
    (calm_from env (List.length (log w)) ->
     reported (answered env (List.length (log w))
                 (map message_delete messages)) = messages).
Proof.
  intros Hflag Hq.
  destruct (individually_loop_quiet env messages [] w Hflag Hq)
    as (w' & Hrun & _ & Hlog).
  exists w'. split; [exact Hrun|]. split; [exact Hlog|]. split.
  - generalize (List.length (log w)). clear.
    induction messages as [|m rest IH]; intro n; [apply subseq_nil|].
    cbn [map answered]. rewrite reported_cons. unfold reported_by.
    cbn [fst snd]. destruct (outcome _); cbn [app];
      first [apply subseq_keep | apply subseq_skip]; apply IH.
  - intro Hc. rewrite answered_calm by exact Hc. clear.
    induction messages as [|m rest IH]; [reflexivity|].
    cbn [map]. rewrite reported_cons, IH. reflexivity.
Qed.

Lemma individual_deletion_skips_the_vanished_witness :
  exists w',
    _delete_messages_individually a_quiet_env two_young_messages (a_world true)
      = (Returned
           (reported (answered a_quiet_env (List.length (log (a_world true)))
                        (map message_delete two_young_messages))),
         w') /\
    log w'
    = (log (a_world true)
       ++ answered a_quiet_env (List.length (log (a_world true)))
            (map message_delete two_young_messages))%list /\
    subseq
      (reported (answered a_quiet_env (List.length (log (a_world true)))
                   (map message_delete two_young_messages)))
      two_young_messages /\
    (calm_from a_quiet_env (List.length (log (a_world true))) ->
     reported (answered a_quiet_env (List.length (log (a_world true)))
                 (map message_delete two_young_messages))
     = two_young_messages).
Proof.
  apply individual_deletion_skips_the_vanished.
  - reflexivity.
  - intros n _. split; [reflexivity | discriminate].
Defined.

(** ** Every call of a session *)

Lemma channels_loop_in env (P : Call -> Prop) (Q : Message.t -> Prop)
    to_delete traverse before after :
  (forall m, to_delete m = Returned true -> Q m) ->
  forall channels found,
    (forall c, In c channels -> P (history_next c traverse before after)) ->
    all_found Q found ->
    traces P (all_found Q)
      (channels_loop env traverse channels to_delete before after found).
Proof.
  intro Hq. induction channels as [|c rest IH]; intros found Hp Hf;
    cbn [channels_loop].
  - apply traces_ret. exact Hf.
  - eapply traces_bind.
    + apply (history_loop_Q env P Q to_delete Hq);
        [apply Hp; left; reflexivity | exact Hf].
    + intros [f|] Hr.
      * apply IH; [intros c' Hin; apply Hp; right; exact Hin|].
        apply Hr. reflexivity.
      * apply traces_ret. constructor.
Qed.

Section Session.

Variable env : Env.
Variable ctx : Context.t.
Variable traverse : Z.
Variable channels : option CleanChannels.
Variable bots_only : bool.
Variable users : option (list User.t).
Variable pattern : option Pattern.
Variables first_limit second_limit : option CleanLimit.
Variable use_cache : option bool.

Variable P : Call -> Prop.
Variable Q : Message.t -> Prop.

Hypothesis accepted_Q :
  forall m,
    session_predicate bots_only users pattern first_limit second_limit m
    = Returned true -> Q m.
Hypothesis history_P :
  _validate_input env traverse channels bots_only users
    first_limit second_limit = Returned tt ->
  forall c,
    In c (session_channels ctx channels first_limit second_limit) ->
    P (history_next c traverse
         (snd (standardize_limits first_limit second_limit))
         (fst (standardize_limits first_limit second_limit))).
Hypothesis bulk_P :
  forall c ms, Forall Q ms -> P (channel_delete_messages c ms).
Hypothesis single_P : forall m, Q m -> P (message_delete m).
Hypothesis invocation_P : P (message_delete (Context.message ctx)).
Hypothesis send_P :
  forall channel content delete_after,
    P (ctx_send channel content delete_after).
Hypothesis upload_P : forall ms actor, P (upload_log ms actor).
Hypothesis log_P : forall title text, P (send_log_message title text).
Hypothesis reaction_P : forall m emoji, P (add_reaction m emoji).

Lemma session_traces :
  traces P (fun _ => True)
    (_clean_messages env ctx traverse channels bots_only users pattern
       first_limit second_limit use_cache).
Proof.
  unfold _clean_messages.
  eapply traces_bind with
    (R1 := fun _ => _validate_input env traverse channels bots_only users
                      first_limit second_limit = Returned tt).
  { apply traces_lift. intros [] E. exact E. }
  intros _ Hvalid. specialize (history_P Hvalid).
  eapply traces_bind; [apply traces_get_cleaning | intros flag _].
  destruct flag.
  { unfold _send_expiring_message. apply traces_await. apply send_P. }
  eapply traces_bind; [apply traces_set_cleaning | intros _ _].
  cbv zeta.
  unfold session_predicate in accepted_Q.
  unfold session_channels in history_P.
  destruct (standardize_limits first_limit second_limit) as [lower upper].
  cbn [fst snd] in accepted_Q, history_P.
  set (predicate := _build_predicate bots_only users pattern lower upper)
    in *.
  eapply traces_bind with (R1 := fun _ => True).
  { unfold _delete_invocation. destruct (negb _).
    - eapply traces_bind; [apply traces_mod_log_ignore | intros _ _].
      eapply traces_bind with (R1 := fun _ => True).
      + eapply traces_suppress. apply traces_await. exact invocation_P.
      + intros _ _. apply traces_ret. exact I.
    - apply traces_ret. exact I. }
  intros _ _.
  eapply traces_bind with (R1 := all_found Q).
  { unfold find_messages.
    assert (Hhist : forall l,
               (forall c, In c l -> P (history_next c traverse upper lower)) ->
               traces P (all_found Q)
                 (_get_messages_from_channels env traverse l predicate
                    upper lower)).
    { intros l Hl. unfold _get_messages_from_channels.
      apply (channels_loop_in env P Q predicate traverse upper lower
               accepted_Q l _ Hl).
      constructor. }
    destruct (default_channels ctx channels first_limit second_limit)
      as [|l]; [|apply Hhist; exact history_P].
    destruct use_cache as [[|]|]; try (apply Hhist; exact history_P).
    apply traces_silent; [reflexivity|].
    intros w0 found E. unfold lift, _get_messages_from_cache in E.
    cbn [fst] in E. destruct (traverse <? 0); [discriminate|].
    eapply cache_loop_Q; [exact accepted_Q | | exact E]. constructor. }
  intros found Hfound.
  eapply traces_bind; [apply traces_get_cleaning | intros flag _].
  destruct (negb flag); [apply traces_ret; exact I|].
  eapply traces_bind; [apply traces_mod_log_ignore | intros _ _].
  eapply traces_bind with (R1 := fun _ => True).
  { unfold _delete_found.
    exact (delete_found_loop_Q env P Q bulk_P single_P (fst found) [] Hfound). }
  intros deleted _.
  eapply traces_bind; [apply traces_set_cleaning | intros _ _].
  eapply traces_bind with (R1 := fun _ => True).
  { apply modlog_traces; assumption. }
  intros logged _. destruct (logged && _).
  - eapply traces_bind with (R1 := fun _ => True).
    + eapply traces_suppress. apply traces_await. apply reaction_P.
    + intros _ _. apply traces_ret. exact I.
  - apply traces_ret. exact I.
Qed.

End Session.

(** X13.  Whatever the arguments and whatever the environment answers, a
    session reads the history of no other channel than those it was given
    or defaulted to, always with its traverse count and its standardized
    limits, and deletes nothing but the invocation and messages the
    predicate built from its arguments accepted. *)
Theorem session_is_confined env ctx traverse channels bots_only users
    pattern first_limit second_limit use_cache w :
  exists seg,
    log (snd (_clean_messages env ctx traverse channels bots_only users
                pattern first_limit second_limit use_cache w))
      = (log w ++ seg)%list /\
    Forall
      (fun entry =>
         session_call ctx traverse
           (session_channels ctx channels first_limit second_limit)
           (fst (standardize_limits first_limit second_limit))
           (snd (standardize_limits first_limit second_limit))
           (fun m =>
              session_predicate bots_only users pattern
                first_limit second_limit m = Returned true)
           (fst entry))
      seg.
Proof.
  destruct (session_traces env ctx traverse channels bots_only users pattern
              first_limit second_limit use_cache
              (session_call ctx traverse
                 (session_channels ctx channels first_limit second_limit)
                 (fst (standardize_limits first_limit second_limit))
                 (snd (standardize_limits first_limit second_limit))
                 (fun m =>
                    session_predicate bots_only users pattern
                      first_limit second_limit m = Returned true))
              (fun m =>
                 session_predicate bots_only users pattern
                   first_limit second_limit m = Returned true))
    with (w := w) as (seg & Hlog & HP & _).
  - auto.
  - intros _ c Hin. cbn. auto.
  - intros c ms Hms. exact Hms.
  - intros m Hm. left. exact Hm.
  - right. reflexivity.
  - intros. exact I.
  - intros. exact I.
  - intros. exact I.
  - intros. exact I.
  - exists seg. split; assumption.
Qed.

(** ** What the sub-commands delete *)

Lemma deletes_only_traces env ctx traverse channels bots_only users pattern
    first_limit second_limit use_cache (ok : Message.t -> Prop) w :
  (forall m,
      session_predicate bots_only users pattern first_limit second_limit m
      = Returned true -> ok m) ->
  exists seg,
    log (snd (_clean_messages env ctx traverse channels bots_only users
                pattern first_limit second_limit use_cache w))
      = (log w ++ seg)%list /\
    Forall (fun entry => deletes_only ctx ok (fst entry)) seg.
Proof.
  intro Hok.
  destruct (session_traces env ctx traverse channels bots_only users pattern
              first_limit second_limit use_cache (deletes_only ctx ok) ok)
    with (w := w) as (seg & Hlog & HP & _).
  - exact Hok.
  - intros _ c Hin. exact I.
  - intros c ms Hms. exact Hms.
  - intros m Hm. left. exact Hm.
  - right. reflexivity.
  - intros. exact I.
  - intros. exact I.
  - intros. exact I.
  - intros. exact I.
  - exists seg. split; assumption.
Qed.

(** X14.  Whatever the environment answers and whatever the optional
    arguments are, a sub-command deletes, its invocation apart, only what
    it names: [clean user] messages of that user, [clean bots] messages of
    bots, [clean regex] messages in whose text (the content and the
    entries of the embeds, joined by newlines) the search of the pattern
    finds a match, and [clean until] messages created at or after the
    limit. *)
Theorem subcommands_delete_what_they_name env ctx traverse use_cache
    channels w :
  (forall user,
      exists seg,
        log (snd (clean_user env ctx user traverse use_cache channels w))
          = (log w ++ seg)%list /\
        Forall
          (fun entry =>
             deletes_only ctx
               (fun m => User.id (Message.author m) = User.id user)
               (fst entry))
          seg) /\
  (exists seg,
      log (snd (clean_bots env ctx traverse use_cache channels w))
        = (log w ++ seg)%list /\
      Forall
        (fun entry =>
           deletes_only ctx
             (fun m => User.bot (Message.author m) = true) (fst entry))
        seg) /\
  (forall pattern,
      exists seg,
        log (snd (clean_regex env ctx pattern traverse use_cache channels w))
          = (log w ++ seg)%list /\
        Forall
          (fun entry =>
             deletes_only ctx
               (fun m =>
                  search pattern
                    (String.concat newline
                       (non_empty_entries (searched_entries m))) = true)
               (fst entry))
          seg) /\
  (forall until channel,
      exists seg,
        log (snd (clean_until env ctx until channel w))
          = (log w ++ seg)%list /\
        Forall
          (fun entry =>
             deletes_only ctx
               (fun m => resolve_limit until <= Message.created_at m)
               (fst entry))
          seg).
Proof.
  split; [|split; [|split]].
  - intro user. unfold clean_user. apply deletes_only_traces.
    intros m E. cbn in E. inversion E as [H].
    rewrite orb_false_r in H. unfold User.eqb in H.
    apply Z.eqb_eq in H. exact H.
  - unfold clean_bots. apply deletes_only_traces.
    intros m E. cbn in E. inversion E as [H]. reflexivity.
  - intro pattern. unfold clean_regex. apply deletes_only_traces.
    intros m E. cbn [session_predicate standardize_limits option_map fst snd
                       _build_predicate app] in E.
    unfold predicate_regex in E. rewrite searchable_text_spec in E.
    injection E as H. exact H.
  - intros until channel. unfold clean_until. apply deletes_only_traces.
    intros m E. cbn in E. inversion E as [H].
    apply Z.leb_le in H. exact H.
Qed.

(** ** The channel of a message limit *)

Lemma validated_message_limit env ctx traverse channels bots_only users
    first_limit second_limit message :
  _validate_input env traverse channels bots_only users
    first_limit second_limit = Returned tt ->
  first_limit = Some (LimitMessage message) \/
  second_limit = Some (LimitMessage message) ->
  session_channels ctx channels first_limit second_limit
  = [Message.channel message].
Proof.
  unfold _validate_input, session_channels, default_channels.
  intros Hvalid Hm.
  destruct (message_limit env <? traverse); [discriminate|].
  assert (Hmsg : (is_message first_limit || is_message second_limit) = true).
  { destruct Hm as [-> | ->]; [reflexivity|]. apply orb_true_r. }
  rewrite Hmsg in Hvalid. cbn [andb] in Hvalid.
  destruct channels as [[|[|c cs]]|]; try discriminate;
    cbn [channels_given] in Hvalid.
  - destruct Hm as [-> | ->]; [reflexivity|].
    destruct first_limit as [[first|t]|]; try reflexivity.
    destruct (TextChannel.eqb (Message.channel first)
                (Message.channel message)) eqn:Ec; [|discriminate].
    apply channel_eqb_eq in Ec. rewrite Ec. reflexivity.
  - destruct Hm as [-> | ->]; [reflexivity|].
    destruct first_limit as [[first|t]|]; try reflexivity.
    destruct (TextChannel.eqb (Message.channel first)
                (Message.channel message)) eqn:Ec; [|discriminate].
    apply channel_eqb_eq in Ec. rewrite Ec. reflexivity.
Qed.

(** X15.  A session that has a message as one of its limits reads no other
    history than that of the channel of this message, whatever the other
    arguments: with channels given, or with a second message from another
    channel, validation refuses the invocation before any call. *)
Theorem message_limit_pins_the_channel env ctx traverse channels bots_only
    users pattern first_limit second_limit use_cache message w :
  first_limit = Some (LimitMessage message) \/
  second_limit = Some (LimitMessage message) ->
  exists seg,
    log (snd (_clean_messages env ctx traverse channels bots_only users
                pattern first_limit second_limit use_cache w))
      = (log w ++ seg)%list /\
    Forall (fun entry => reads_only (Message.channel message) (fst entry)) seg.
Proof.
  intro Hm.
  destruct (session_traces env ctx traverse channels bots_only users pattern
              first_limit second_limit use_cache
              (reads_only (Message.channel message)) (fun _ => True))
    with (w := w) as (seg & Hlog & HP & _).
  - auto.
  - intros Hvalid c Hin.
    rewrite (validated_message_limit env ctx traverse channels bots_only
               users first_limit second_limit message Hvalid Hm) in Hin.
    destruct Hin as [<-|[]]. reflexivity.
  - intros. exact I.
  - intros. exact I.
  - exact I.
  - intros. exact I.
  - intros. exact I.
  - intros. exact I.
  - intros. exact I.
  - exists seg. split; assumption.
Qed.

Lemma message_limit_pins_the_channel_witness :
  exists seg,
    log (snd (_clean_messages a_quiet_env a_context 10 None false None None
                (Some (LimitMessage (a_message 5))) None (Some false)
                (a_world false)))
      = (log (a_world false) ++ seg)%list /\
    Forall
      (fun entry => reads_only (Message.channel (a_message 5)) (fst entry))
      seg.
Proof.
  apply message_limit_pins_the_channel. left. reflexivity.
Defined.

(** ** A session where nothing goes wrong *)

Lemma calm_is_quiet env start : calm_from env start -> quiet_from env start.
Proof.
  intros Hc n Hn. rewrite (Hc n Hn). split; [reflexivity | discriminate].
Qed.

Lemma runs_to_ret {A : Type} env w (a : A) flag :
  cleaning w = flag -> runs_to env w [] (ret a w) a flag.
Proof.
  intro H. unfold runs_to. cbn. rewrite app_nil_r. auto.
Qed.

Lemma runs_to_await env w call :
  calm_from env (List.length (log w)) ->
  runs_to env w [call] (await env call w) tt (cleaning w).
Proof.
  intro Hc. rewrite calm_await by exact Hc. unfold runs_to.
  cbn [fst snd cleaning log answered]. rewrite (Hc _ (le_n _)). auto.
Qed.

Lemma runs_to_bind {A B : Type} env w calls1 calls2 (m : M A)
    (k : A -> M B) a flag1 b flag2 :
  calm_from env (List.length (log w)) ->
  runs_to env w calls1 (m w) a flag1 ->
  (forall w1,
      cleaning w1 = flag1 -> calm_from env (List.length (log w1)) ->
      runs_to env w1 calls2 (k a w1) b flag2) ->
  runs_to env w (calls1 ++ calls2) (bind m k w) b flag2.
Proof.
  intros Hc (Hr & Hf & Hl) Hk. unfold bind.
  destruct (m w) as [r w1]. cbn [fst snd] in *. subst r.
  destruct (Hk w1 Hf) as (Hr2 & Hf2 & Hl2).
  { eapply calm_from_later; [|exact Hc]. rewrite Hl, length_app. lia. }
  split; [exact Hr2|]. split; [exact Hf2|].
  rewrite Hl2, Hl, answered_app, length_app, answered_length, app_assoc.
  reflexivity.
Qed.

Lemma runs_to_same_start {A : Type} env w0 w calls (run : Result A * World)
    a flag :
  log w0 = log w ->
  runs_to env w0 calls run a flag -> runs_to env w calls run a flag.
Proof.
  intros Hl H. unfold runs_to in *. rewrite <- Hl. exact H.
Qed.

Lemma delete_invocation_calm env ctx w :
  calm_from env (List.length (log w)) ->
  runs_to env w (invocation_calls env ctx) (_delete_invocation env ctx w) tt
    (cleaning w).
Proof.
  intro Hc. unfold _delete_invocation, invocation_calls.
  destruct (negb (is_mod_channel env (Context.channel ctx)));
    [|apply runs_to_ret; reflexivity].
  unfold bind at 1. unfold mod_log_ignore at 1.
  match goal with
  | |- runs_to _ _ _ (_ ?w') _ _ =>
      apply (runs_to_same_start env w' w); [reflexivity|];
      set (w0 := w')
  end.
  assert (Hc0 : calm_from env (List.length (log w0))) by exact Hc.
  assert (Hf0 : cleaning w0 = cleaning w) by reflexivity.
  rewrite <- Hf0. clearbody w0.
  unfold bind, suppress_NotFound. rewrite calm_await by exact Hc0.
  unfold runs_to, ret. cbn [fst snd cleaning log answered].
  rewrite (Hc0 _ (le_n _)). auto.
Qed.

Lemma modlog_calm env ctx channels messages w :
  calm_from env (List.length (log w)) ->
  runs_to env w (modlog_calls env ctx channels messages)
    (_modlog_cleaned_messages env messages channels ctx w)
    match messages with
    | [] => false
    | _ :: _ => true
    end
    (cleaning w).
Proof.
  intro Hc. unfold _modlog_cleaned_messages, modlog_calls.
  destruct messages as [|m ms].
  - change [ctx_send (Context.channel ctx)
              ":x: No matching messages could be found."
              (if is_mod_channel env (Context.channel ctx) then None
               else Some MESSAGE_DELETE_DELAY)]
      with ([ctx_send (Context.channel ctx)
               ":x: No matching messages could be found."
               (if is_mod_channel env (Context.channel ctx) then None
                else Some MESSAGE_DELETE_DELAY)] ++ [])%list.
    eapply runs_to_bind; [exact Hc | apply runs_to_await; exact Hc|].
    intros w1 Hf _. apply runs_to_ret. exact Hf.
  - match goal with
    | |- runs_to _ _ [?c1; ?c2] _ _ _ =>
        change [c1; c2] with ([c1] ++ [c2] ++ [])%list
    end.
    eapply runs_to_bind; [exact Hc | apply runs_to_await; exact Hc|].
    intros w1 Hf1 Hc1.
    eapply runs_to_bind; [exact Hc1 | apply runs_to_await; exact Hc1|].
    intros w2 Hf2 _. apply runs_to_ret. congruence.
Qed.

Lemma standardized_limits_given first_limit second_limit :
  is_some (fst (standardize_limits first_limit second_limit))
  = is_some first_limit /\
  is_some (snd (standardize_limits first_limit second_limit))
  = is_some second_limit.
Proof.
  destruct first_limit, second_limit; split; reflexivity.
Qed.

Lemma validated_limits env traverse channels bots_only users first_limit
    second_limit :
  _validate_input env traverse channels bots_only users
    first_limit second_limit = Returned tt ->
  is_some second_limit = true -> is_some first_limit = true.
Proof.
  unfold _validate_input. intros H Hs.
  repeat match type of H with
         | (if ?c then _ else _) = _ =>
             destruct c eqn:?; [discriminate|]
         end.
  rewrite Hs in *. cbn [andb] in *.
  apply negb_false_iff. assumption.
Qed.

Lemma fold_scan_step_ext p q messages : forall found,
  (forall m, In m messages -> p m = q m) ->
  fold_left (scan_step p) messages found
  = fold_left (scan_step q) messages found.
Proof.
  induction messages as [|m rest IH]; intros found H; [reflexivity|].
  cbn [fold_left]. unfold scan_step at 2 4.
  rewrite (H m (or_introl eq_refl)).
  apply IH. intros m' Hin. apply H. right. exact Hin.
Qed.

(** A complete scan, of the cache or of the histories. *)
Lemma find_messages_calm env ctx traverse channels use_cache bots_only users
    pattern first_limit second_limit w :
  let limits := standardize_limits first_limit second_limit in
  (is_some (snd limits) = true -> is_some (fst limits) = true) ->
  (reads_cache channels use_cache = true -> 0 <= traverse) ->
  cleaning w = true ->
  calm_from env (List.length (log w)) ->
  runs_to env w
    (scan_requests env ctx traverse channels use_cache
       first_limit second_limit)
    (find_messages env ctx traverse
       (default_channels ctx channels first_limit second_limit) use_cache
       (_build_predicate bots_only users pattern (fst limits) (snd limits))
       (fst limits) (snd limits) w)
    (collect
       (criteria_hold bots_only users pattern (fst limits) (snd limits))
       (messages_read env ctx traverse channels use_cache
          first_limit second_limit))
    true.
Proof.
  intros limits Hlimits Htraverse Hup Hc.
  unfold scan_requests, messages_read. fold limits.
  set (predicate := _build_predicate bots_only users pattern
                      (fst limits) (snd limits)).
  assert (Htotal : forall m, exists b, predicate m = Returned b).
  { intro m. eexists. apply build_predicate_criteria. exact Hlimits. }
  assert (Hsame : forall messages,
             fold_left (scan_step (said_yes predicate)) messages ([], [])
             = collect
                 (criteria_hold bots_only users pattern
                    (fst limits) (snd limits)) messages).
  { intro messages. rewrite collect_is_fold.
    apply fold_scan_step_ext. intros m _. unfold said_yes, predicate.
    rewrite build_predicate_criteria by exact Hlimits.
    destruct (criteria_hold _ _ _ _ _ _); reflexivity. }
  assert (Hhist : forall l,
             runs_to env w
               (history_requests env traverse (snd limits) (fst limits) l)
               (_get_messages_from_channels env traverse l predicate
                  (snd limits) (fst limits) w)
               (collect
                  (criteria_hold bots_only users pattern
                     (fst limits) (snd limits))
                  (flat_map
                     (fun c =>
                        history env c traverse (snd limits) (fst limits)) l))
               true).
  { intro l. unfold _get_messages_from_channels.
    destruct (channels_loop_calm env traverse (snd limits) (fst limits)
                predicate l Htotal ([], []) w Hup Hc)
      as (w' & Hrun & Hlog & Hflag).
    unfold runs_to. rewrite Hrun. cbn [fst snd].
    split; [rewrite Hsame; reflexivity|]. split; [exact Hflag|].
    rewrite Hlog, answered_calm by exact Hc. reflexivity. }
  unfold session_channels, find_messages.
  destruct (default_channels ctx channels first_limit second_limit)
    as [|l] eqn:Ed.
  - assert (Ec : channels = Some AllChannels).
    { unfold default_channels in Ed.
      destruct channels as [[|[|c cs]]|]; try reflexivity; try discriminate;
        destruct first_limit as [[?|?]|], second_limit as [[?|?]|];
        discriminate. }
    subst channels. cbn [reads_cache] in *.
    destruct use_cache as [[|]|]; try apply Hhist.
    specialize (Htraverse eq_refl).
    unfold lift, _get_messages_from_cache, runs_to. rewrite Hup.
    destruct (traverse <? 0) eqn:Et; [apply Z.ltb_lt in Et; lia|].
    rewrite cache_loop_complete; [|reflexivity | intros m _; apply Htotal].
    rewrite Hsame. cbn. rewrite app_nil_r. auto.
  - assert (Ec : reads_cache channels use_cache = false).
    { destruct channels as [[|l']|]; [discriminate | |]; reflexivity. }
    rewrite Ec. apply Hhist.
Qed.

(** A whole session in an environment where nothing goes wrong. *)
Lemma calm_session_runs env ctx traverse channels bots_only users pattern
    first_limit second_limit use_cache w :
  let limits := standardize_limits first_limit second_limit in
  let found :=
    collect
      (criteria_hold bots_only users pattern (fst limits) (snd limits))
      (messages_read env ctx traverse channels use_cache
         first_limit second_limit) in
  let deleted := List.concat (map snd (fst found)) in
  cleaning w = false ->
  calm_from env (List.length (log w)) ->
  _validate_input env traverse channels bots_only users
    first_limit second_limit = Returned tt ->
  (reads_cache channels use_cache = true -> 0 <= traverse) ->
  always_eligible env deleted ->
  exists w',
    _clean_messages env ctx traverse channels bots_only users
      pattern first_limit second_limit use_cache w
    = (Returned tt, w') /\
    cleaning w' = false /\
    log w'
    = (log w
       ++ answered env (List.length (log w))
            (invocation_calls env ctx
             ++ scan_requests env ctx traverse channels use_cache
                  first_limit second_limit
             ++ bulk_calls (fst found)
             ++ modlog_calls env ctx
                  (default_channels ctx channels first_limit second_limit)
                  deleted
             ++ reaction_calls env ctx deleted))%list.
Proof.
  intros limits found deleted Hdown Hcalm Hvalid Htraverse Helig.
  assert (Hgoal : runs_to env w
                    (invocation_calls env ctx
                     ++ scan_requests env ctx traverse channels use_cache
                          first_limit second_limit
                     ++ bulk_calls (fst found)
                     ++ modlog_calls env ctx
                          (default_channels ctx channels
                             first_limit second_limit) deleted
                     ++ reaction_calls env ctx deleted)
                    (_clean_messages env ctx traverse channels
                       bots_only users pattern first_limit second_limit
                       use_cache w)
                    tt false).
  2:{ destruct Hgoal as (Hr & Hf & Hl).
      destruct (_clean_messages env ctx traverse channels bots_only
                  users pattern first_limit second_limit use_cache w)
        as [r w'].
      cbn [fst snd] in *. subst r. exists w'. auto. }
  assert (Hlimits : is_some (snd limits) = true -> is_some (fst limits) = true).
  { destruct (standardized_limits_given first_limit second_limit) as [E1 E2].
    unfold limits. rewrite E1, E2.
    eapply validated_limits. exact Hvalid. }
  pose proof (find_messages_calm env ctx traverse channels use_cache
                bots_only users pattern first_limit second_limit) as Hfind.
  cbv zeta in Hfind. fold limits in Hfind. fold found in Hfind.
  specialize (fun w0 => Hfind w0 Hlimits Htraverse).
  unfold _clean_messages. unfold bind at 1. unfold lift at 1.
  rewrite Hvalid.
  unfold bind at 1. unfold get_cleaning at 1. rewrite Hdown.
  unfold bind at 1. unfold set_cleaning at 1.
  match goal with
  | |- runs_to _ _ _ (_ ?w') _ _ =>
      apply (runs_to_same_start env w' w); [reflexivity|];
      set (w1 := w')
  end.
  assert (Hc1 : calm_from env (List.length (log w1))) by exact Hcalm.
  assert (Hup : cleaning w1 = true) by reflexivity.
  clearbody w1. cbv zeta.
  fold limits. destruct limits as [lower upper] eqn:El.
  cbn [fst snd] in *.
  eapply runs_to_bind;
    [exact Hc1 | apply delete_invocation_calm; exact Hc1|].
  intros w2 Hup2 Hc2. rewrite Hup in Hup2.
  eapply runs_to_bind with (a := found) (flag1 := true);
    [exact Hc2 | apply Hfind; assumption|].
  intros w3 Hup3 Hc3.
  unfold bind at 1. unfold get_cleaning at 1. rewrite Hup3. cbn [negb].
  unfold bind at 1. unfold mod_log_ignore at 1.
  match goal with
  | |- runs_to _ _ _ (_ ?w') _ _ =>
      apply (runs_to_same_start env w' w3); [reflexivity|];
      set (w4 := w')
  end.
  assert (Hc4 : calm_from env (List.length (log w4))) by exact Hc3.
  assert (Hup4 : cleaning w4 = true) by exact Hup3.
  clearbody w4.
  eapply runs_to_bind with (a := deleted) (flag1 := true); [exact Hc4 | |].
  { destruct (delete_found_loop_calm env (fst found) [] w4 Hup4
                (calm_is_quiet env _ Hc4) Helig)
      as (w5 & Hrun & Hlog & Hflag).
    unfold _delete_found, runs_to. rewrite Hrun. auto. }
  intros w5 Hup5 Hc5.
  unfold bind at 1. unfold set_cleaning at 1.
  match goal with
  | |- runs_to _ _ _ (_ ?w') _ _ =>
      apply (runs_to_same_start env w' w5); [reflexivity|];
      set (w6 := w')
  end.
  assert (Hc6 : calm_from env (List.length (log w6))) by exact Hc5.
  assert (Hdown6 : cleaning w6 = false) by reflexivity.
  clearbody w6.
  eapply runs_to_bind;
    [exact Hc6 | apply modlog_calm; exact Hc6|].
  intros w7 Hdown7 Hc7. rewrite Hdown6 in Hdown7. unfold reaction_calls.
  destruct deleted as [|d ds]; cbn [andb];
    [apply runs_to_ret; exact Hdown7|].
  destruct (is_mod_channel env (Context.channel ctx));
    [|apply runs_to_ret; exact Hdown7].
  unfold bind, suppress_NotFound. rewrite calm_await by exact Hc7.
  unfold runs_to, ret. cbn [fst snd cleaning log answered].
  rewrite (Hc7 _ (le_n _)). auto.
Qed.

(** X17.  A session over the cache, with a traverse count that is not
    negative, in an environment where every call succeeds and
    [clean stop] never runs, the messages it matches all passing the age
    test: among the first [traverse] cached messages it
    collects those that meet the criteria, deletes its invocation outside
    mod channels, deletes the collected messages channel by channel in
    bulk calls, uploads the log of the deleted messages, reacts to the
    invocation in a mod channel, and returns with the flag down, having
    made no other call. *)
Theorem calm_cache_session env ctx traverse bots_only users pattern
    first_limit second_limit w :
  let limits := standardize_limits first_limit second_limit in
  let found :=
    collect
      (criteria_hold bots_only users pattern (fst limits) (snd limits))
      (firstn (Z.to_nat traverse) (cached_messages env)) in
  let deleted := List.concat (map snd (fst found)) in
  cleaning w = false ->
  calm_from env (List.length (log w)) ->
  _validate_input env traverse (Some AllChannels) bots_only users
    first_limit second_limit = Returned tt ->
  0 <= traverse ->
  always_eligible env deleted ->
  exists w',
    _clean_messages env ctx traverse (Some AllChannels) bots_only users
      pattern first_limit second_limit (Some true) w
    = (Returned tt, w') /\
    cleaning w' = false /\
    log w'
    = (log w
       ++ answered env (List.length (log w))
            (invocation_calls env ctx
             ++ bulk_calls (fst found)
             ++ modlog_calls env ctx AllChannels deleted
             ++ reaction_calls env ctx deleted))%list.
Proof.
  intros limits found deleted Hdown Hcalm Hvalid Htraverse Helig.
  exact (calm_session_runs env ctx traverse (Some AllChannels) bots_only
           users pattern first_limit second_limit (Some true) w
           Hdown Hcalm Hvalid (fun _ => Htraverse) Helig).
Qed.

Lemma calm_cache_session_witness :
  exists w',
    _clean_messages a_young_cache_env a_context 10 (Some AllChannels) false
      None None None None (Some true) (a_world false)
    = (Returned tt, w') /\
    cleaning w' = false /\
    log w'
    = (log (a_world false)
       ++ answered a_young_cache_env (List.length (log (a_world false)))
            (invocation_calls a_young_cache_env a_context
             ++ bulk_calls
                  (fst (collect
                          (criteria_hold false None None
                             (fst (standardize_limits None None))
                             (snd (standardize_limits None None)))
                          (firstn (Z.to_nat 10)
                             (cached_messages a_young_cache_env))))
             ++ modlog_calls a_young_cache_env a_context AllChannels
                  (List.concat
                     (map snd
                        (fst (collect
                                (criteria_hold false None None
                                   (fst (standardize_limits None None))
                                   (snd (standardize_limits None None)))
                                (firstn (Z.to_nat 10)
                                   (cached_messages a_young_cache_env))))))
             ++ reaction_calls a_young_cache_env a_context
                  (List.concat
                     (map snd
                        (fst (collect
                                (criteria_hold false None None
                                   (fst (standardize_limits None None))
                                   (snd (standardize_limits None None)))
                                (firstn (Z.to_nat 10)
                                   (cached_messages a_young_cache_env))))))))%list.
Proof.
  apply (calm_cache_session a_young_cache_env a_context 10 false None None
           None None (a_world false)).
  - reflexivity.
  - intros n _. reflexivity.
  - reflexivity.
  - lia.
  - intros t m Hin. vm_compute in Hin.
    repeat (destruct Hin as [<-|Hin]; [vm_compute; reflexivity|]).
    destruct Hin.
Defined.

(** X18.  A session over channel histories (channels other than ["*"])
    with valid arguments, started with the flag down in an environment
    where every call succeeds and [clean stop] never runs, the messages it
    matches all passing the age test: it deletes its invocation outside mod
    channels, reads the histories of its channels to the end, one request
    per message and one more per channel, with the later limit as [before]
    and the earlier as [after], deletes channel by channel in bulk calls
    the messages read that meet the criteria, writes the mod log, reacts
    to the invocation in a mod channel, and returns with the flag down,
    having made no other call. *)
Theorem calm_history_session env ctx traverse channels bots_only users
    pattern first_limit second_limit use_cache w :
  let limits := standardize_limits first_limit second_limit in
  let read := session_channels ctx channels first_limit second_limit in
  let found :=
    collect
      (criteria_hold bots_only users pattern (fst limits) (snd limits))
      (flat_map (fun c => history env c traverse (snd limits) (fst limits))
         read) in
  let deleted := List.concat (map snd (fst found)) in
  cleaning w = false ->
  calm_from env (List.length (log w)) ->
  _validate_input env traverse channels bots_only users
    first_limit second_limit = Returned tt ->
  channels <> Some AllChannels ->
  always_eligible env deleted ->
  exists w',
    _clean_messages env ctx traverse channels bots_only users
      pattern first_limit second_limit use_cache w
    = (Returned tt, w') /\
    cleaning w' = false /\
    log w'
    = (log w
       ++ answered env (List.length (log w))
            (invocation_calls env ctx
             ++ history_requests env traverse (snd limits) (fst limits) read
             ++ bulk_calls (fst found)
             ++ modlog_calls env ctx (ChannelList read) deleted
             ++ reaction_calls env ctx deleted))%list.
Proof.
  intros limits read found deleted Hdown Hcalm Hvalid Hnot Helig.
  assert (Hcache : reads_cache channels use_cache = false)
    by (destruct channels as [[|l]|]; [contradiction | |]; reflexivity).
  assert (Hread : default_channels ctx channels first_limit second_limit
                  = ChannelList read).
  { unfold read, session_channels.
    destruct (default_channels ctx channels first_limit second_limit)
      as [|l] eqn:Ed; [|reflexivity].
    exfalso. apply Hnot. unfold default_channels in Ed.
    destruct channels as [[|[|c cs]]|]; try reflexivity; try discriminate;
      destruct first_limit as [[?|?]|], second_limit as [[?|?]|];
      discriminate. }
  pose proof (calm_session_runs env ctx traverse channels bots_only users
                pattern first_limit second_limit use_cache w) as H.
  cbv zeta in H. unfold messages_read, scan_requests in H.
  rewrite Hcache, Hread in H.
  apply H; try assumption. discriminate.
Qed.

Lemma calm_history_session_witness :
  exists w',
    _clean_messages a_calm_history_env a_context 10 None false None None
      None None None (a_world false)
    = (Returned tt, w') /\
    cleaning w' = false /\
    log w'
    = (log (a_world false)
       ++ answered a_calm_history_env (List.length (log (a_world false)))
            (invocation_calls a_calm_history_env a_context
             ++ history_requests a_calm_history_env 10
                  (snd (standardize_limits None None))
                  (fst (standardize_limits None None))
                  (session_channels a_context None None None)
             ++ bulk_calls
                  (fst (collect
                          (criteria_hold false None None
                             (fst (standardize_limits None None))
                             (snd (standardize_limits None None)))
                          (flat_map
                             (fun c =>
                                history a_calm_history_env c 10
                                  (snd (standardize_limits None None))
                                  (fst (standardize_limits None None)))
                             (session_channels a_context None None None))))
             ++ modlog_calls a_calm_history_env a_context
                  (ChannelList (session_channels a_context None None None))
                  (List.concat
                     (map snd
                        (fst (collect
                                (criteria_hold false None None
                                   (fst (standardize_limits None None))
                                   (snd (standardize_limits None None)))
                                (flat_map
                                   (fun c =>
                                      history a_calm_history_env c 10
                                        (snd (standardize_limits None None))
                                        (fst (standardize_limits None None)))
                                   (session_channels a_context None None
                                      None))))))
             ++ reaction_calls a_calm_history_env a_context
                  (List.concat
                     (map snd
                        (fst (collect
                                (criteria_hold false None None
                                   (fst (standardize_limits None None))
                                   (snd (standardize_limits None None)))
                                (flat_map
                                   (fun c =>
                                      history a_calm_history_env c 10
                                        (snd (standardize_limits None None))
                                        (fst (standardize_limits None None)))
                                   (session_channels a_context None None
                                      None))))))))%list.
Proof.
  apply (calm_history_session a_calm_history_env a_context 10 None false
           None None None None None (a_world false)).
  - reflexivity.
  - intros n _. reflexivity.
  - reflexivity.
  - discriminate.
  - intros t m Hin. vm_compute in Hin.
    repeat (destruct Hin as [<-|Hin]; [vm_compute; reflexivity|]).
    destruct Hin.
Defined.

(** ** The order of the limits *)

Lemma validate_input_either_order env traverse channels bots_only users
    first_limit second_limit :
  _validate_input env traverse channels bots_only users
    (Some first_limit) (Some second_limit)
  = _validate_input env traverse channels bots_only users
      (Some second_limit) (Some first_limit).
Proof.
  unfold _validate_input.
  rewrite (orb_comm (is_message (Some first_limit))).
  destruct first_limit as [m|t], second_limit as [m'|t']; try reflexivity.
  unfold TextChannel.eqb.
  rewrite (Z.eqb_sym (TextChannel.id (Message.channel m))). reflexivity.
Qed.

(** Two message limits that pass validation are in the same channel, so
    the default channel does not depend on which comes first. *)
Lemma default_channels_either_order env ctx traverse channels bots_only users
    first_limit second_limit :
  _validate_input env traverse channels bots_only users
    (Some first_limit) (Some second_limit) = Returned tt ->
  default_channels ctx channels (Some first_limit) (Some second_limit)
  = default_channels ctx channels (Some second_limit) (Some first_limit).
Proof.
  intro Hvalid. unfold default_channels.
  destruct first_limit as [m|t], second_limit as [m'|t']; try reflexivity.
  assert (E : Message.channel m = Message.channel m').
  { unfold _validate_input in Hvalid.
    destruct (message_limit env <? traverse); [discriminate|].
    destruct ((is_message (Some (LimitMessage m))
               || is_message (Some (LimitMessage m')))
              && channels_given channels); [discriminate|].
    destruct (TextChannel.eqb (Message.channel m) (Message.channel m'))
      eqn:Heq; [|discriminate].
    unfold TextChannel.eqb in Heq. apply Z.eqb_eq in Heq.
    destruct (Message.channel m), (Message.channel m').
    cbn in Heq. subst. reflexivity. }
  rewrite E. reflexivity.
Qed.

Lemma clean_messages_either_order env ctx traverse channels bots_only users
    pattern first_limit second_limit use_cache w :
  _clean_messages env ctx traverse channels bots_only users pattern
    (Some first_limit) (Some second_limit) use_cache w
  = _clean_messages env ctx traverse channels bots_only users pattern
      (Some second_limit) (Some first_limit) use_cache w.
Proof.
  unfold _clean_messages.
  rewrite (validate_input_either_order env traverse channels bots_only users
             second_limit first_limit).
  destruct (_validate_input env traverse channels bots_only users
              (Some first_limit) (Some second_limit)) as [[]|e] eqn:Hvalid;
    [|reflexivity].
  rewrite (default_channels_either_order env ctx traverse channels bots_only
             users first_limit second_limit Hvalid).
  unfold standardize_limits. cbn [option_map].
  rewrite (Z.min_comm (resolve_limit second_limit)),
    (Z.max_comm (resolve_limit second_limit)).
  reflexivity.
Qed.


(** C8.  With both limits given, the session works with the earlier of the
    two resolved datetimes as first limit and the later as second limit,
    in whatever order they come: the session is the same when the two
    limits are exchanged.  Every history request it makes carries the two
    datetimes as [after] and [before], and every message it deletes, the
    invocation apart, was created between them.  The predicate is built
    from them: in an environment where nothing goes wrong, a session with
    valid arguments, whose traverse count is not negative when it reads
    the cache, and whose matched messages all pass the age test, deletes
    exactly the messages it goes through that meet the criteria with the
    earlier datetime as lower bound and the later as upper bound. *)
Theorem limits_sorted_before_use env ctx traverse channels bots_only users
    pattern first_limit second_limit use_cache w :
  let lower := Z.min (resolve_limit first_limit) (resolve_limit second_limit) in
  let upper := Z.max (resolve_limit first_limit) (resolve_limit second_limit) in
  let found :=
    collect
      (criteria_hold bots_only users pattern (Some lower) (Some upper))
      (messages_read env ctx traverse channels use_cache
         (Some first_limit) (Some second_limit)) in
  let deleted := List.concat (map snd (fst found)) in
  standardize_limits (Some first_limit) (Some second_limit)
    = (Some lower, Some upper) /\
  lower <= upper /\
  (exists seg,
      log (snd (_clean_messages env ctx traverse channels bots_only users
                  pattern (Some first_limit) (Some second_limit) use_cache w))
        = (log w ++ seg)%list /\
      Forall (fun entry => uses_limits ctx lower upper (fst entry)) seg) /\
  _clean_messages env ctx traverse channels bots_only users pattern
    (Some first_limit) (Some second_limit) use_cache w
  = _clean_messages env ctx traverse channels bots_only users pattern
      (Some second_limit) (Some first_limit) use_cache w /\
  (cleaning w = false ->
   calm_from env (List.length (log w)) ->
   _validate_input env traverse channels bots_only users
     (Some first_limit) (Some second_limit) = Returned tt ->
   (reads_cache channels use_cache = true -> 0 <= traverse) ->
   always_eligible env deleted ->
   exists w',
     _clean_messages env ctx traverse channels bots_only users
       pattern (Some first_limit) (Some second_limit) use_cache w
     = (Returned tt, w') /\
     cleaning w' = false /\
     log w'
     = (log w
        ++ answered env (List.length (log w))
             (invocation_calls env ctx
              ++ scan_requests env ctx traverse channels use_cache
                   (Some first_limit) (Some second_limit)
              ++ bulk_calls (fst found)
              ++ modlog_calls env ctx
                   (default_channels ctx channels
                      (Some first_limit) (Some second_limit))
                   deleted
              ++ reaction_calls env ctx deleted))%list).
Proof.
  intros lower upper found deleted.
  split; [reflexivity|]. split; [unfold lower, upper; lia|].
  split; [apply limits_reach_every_call|].
  split; [apply clean_messages_either_order|].
  intros Hdown Hcalm Hvalid Htraverse Helig.
  exact (calm_session_runs env ctx traverse channels bots_only users pattern
           (Some first_limit) (Some second_limit) use_cache w
           Hdown Hcalm Hvalid Htraverse Helig).
Qed.

(** A session whose limits come in the wrong order, the later first: the
    two messages of the history, created between them, are deleted. *)
Lemma limits_sorted_before_use_witness :
  exists w',
    _clean_messages a_calm_history_env a_context 10 None false None None
      (Some (LimitDatetime 5)) (Some (LimitDatetime (-5))) None
      (a_world false)
    = (Returned tt, w') /\
    cleaning w' = false /\
    log w'
    = (log (a_world false)
       ++ answered a_calm_history_env (List.length (log (a_world false)))
            (invocation_calls a_calm_history_env a_context
             ++ scan_requests a_calm_history_env a_context 10 None None
                  (Some (LimitDatetime 5)) (Some (LimitDatetime (-5)))
             ++ bulk_calls
                  (fst (collect
                          (criteria_hold false None None
                             (Some (Z.min (resolve_limit (LimitDatetime 5))
                                      (resolve_limit (LimitDatetime (-5)))))
                             (Some (Z.max (resolve_limit (LimitDatetime 5))
                                      (resolve_limit (LimitDatetime (-5))))))
                          (messages_read a_calm_history_env a_context 10
                             None None (Some (LimitDatetime 5))
                             (Some (LimitDatetime (-5))))))
             ++ modlog_calls a_calm_history_env a_context
                  (default_channels a_context None
                     (Some (LimitDatetime 5)) (Some (LimitDatetime (-5))))
                  (List.concat
                     (map snd
                        (fst (collect
                                (criteria_hold false None None
                                   (Some (Z.min
                                            (resolve_limit (LimitDatetime 5))
                                            (resolve_limit
                                               (LimitDatetime (-5)))))
                                   (Some (Z.max
                                            (resolve_limit (LimitDatetime 5))
                                            (resolve_limit
                                               (LimitDatetime (-5))))))
                                (messages_read a_calm_history_env a_context
                                   10 None None (Some (LimitDatetime 5))
                                   (Some (LimitDatetime (-5))))))))
             ++ reaction_calls a_calm_history_env a_context
                  (List.concat
                     (map snd
                        (fst (collect
                                (criteria_hold false None None
                                   (Some (Z.min
                                            (resolve_limit (LimitDatetime 5))
                                            (resolve_limit
                                               (LimitDatetime (-5)))))
                                   (Some (Z.max
                                            (resolve_limit (LimitDatetime 5))
                                            (resolve_limit
                                               (LimitDatetime (-5))))))
                                (messages_read a_calm_history_env a_context
                                   10 None None (Some (LimitDatetime 5))
                                   (Some (LimitDatetime (-5))))))))))%list.
Proof.
  apply (proj2 (proj2 (proj2 (proj2
           (limits_sorted_before_use a_calm_history_env a_context 10 None
              false None None (LimitDatetime 5) (LimitDatetime (-5)) None
              (a_world false)))))).
  - reflexivity.
  - intros n _. reflexivity.
  - reflexivity.
  - discriminate.
  - intros t m Hin. vm_compute in Hin.
    repeat (destruct Hin as [<-|Hin]; [vm_compute; reflexivity|]).
    destruct Hin.
Defined.

(** What that session does: one bulk call for the two messages. *)
Example the_limits_in_the_wrong_order :
  map fst
    (log (snd (_clean_messages a_calm_history_env a_context 10 None false
                 None None (Some (LimitDatetime 5))
                 (Some (LimitDatetime (-5))) None (a_world false))))
  = [history_next a_channel 10 (Some 5) (Some (-5));
     history_next a_channel 10 (Some 5) (Some (-5));
     history_next a_channel 10 (Some 5) (Some (-5));
     channel_delete_messages a_channel two_young_messages;
     upload_log (rev two_young_messages) 7;
     send_log_message "Bulk message delete"
       ("**2** messages deleted in <#1> by <@7>" ++ newline ++ newline
        ++ "A log of the deleted messages can be found [here](url).")%string;
     add_reaction (a_message 5) "ok"].
Proof. vm_compute. reflexivity. Qed.
